(** * Timeline compositor and capture pipeline of the scene-to-video page

    A shallow embedding of [generateVideo] and of the helpers it closes over
    (the page component of the application), followed by the properties of
    the timeline resolver, the audio scheduler, the render loop and the
    capture session.

    Numbers.  The page computes with JavaScript numbers, IEEE 754 doubles.
    Durations, offsets and timestamps are embedded as exact rationals [Q],
    compared with [==]; [Math.max], [Math.min] and [Math.floor] become
    [Qmax], [Qmin] and [Qfloor].  An equation stated with [==] is one of
    exact arithmetic.  Where the doubles of the page can part from it, the
    theorems state the steps of the code with [=] and the orderings and
    bounds that rounding keeps; module [Double] repeats the arithmetic of
    the render pass on binary64 numbers and gives the inputs on which the
    exact equation fails on the page.

    The page.  [Reachable] describes the scene lists the editor can hold,
    the initial list and what the handlers make of it, and [onPage] a host
    whose canvas is mounted when a scene is selected. *)

From Stdlib Require Import QArith Qminmax Qround Lqa ZArith Lia.
From Stdlib Require Import List String Bool.
Import ListNotations.

Open Scope Q_scope.

(** ** Constants of the page *)

Definition DURATION_MIN : Q := 1.
Definition DURATION_MAX : Q := 30.

(** Lead-in added to [audioCtx.currentTime] when the audio cursor is
    initialised: [audioCtx.currentTime + 0.4]. *)
Definition LEAD_IN : Q := 4 # 10.

(** Strict comparison on numbers, as a boolean. *)
Definition Qltb (x y : Q) : bool := negb (Qle_bool y x).

(** ** Data model *)

(** An [ArrayBuffer] is a sequence of bytes; so is a [Blob]. *)
Definition ArrayBuffer := list Byte.byte.
Definition Blob := list Byte.byte.

Definition blob_size (b : Blob) : nat := List.length b.

(** [new Blob(chunks)]: the chunks, concatenated in order. *)
Definition new_Blob (chunks : list Blob) : Blob := List.concat chunks.

(** Web Audio [AudioBuffer]: a channel count, a length in sample frames and
    a sample rate; its [duration] in seconds is [length / sampleRate]. *)
Record AudioBuffer := mkAudioBuffer {
  numberOfChannels : Z;
  ab_length : Z;
  ab_sampleRate : Q
}.

Definition ab_duration (b : AudioBuffer) : Q :=
  inject_Z (ab_length b) / ab_sampleRate b.

Record HTMLImageElement := mkImage {
  img_width : Q;
  img_height : Q
}.

Module Scene.
Record t := mk {
  id : string;
  dialogue : string;
  duration : Q;
  imageDataUrl : option string;
  imageName : option string;
  audioName : option string;
  audioArrayBuffer : option ArrayBuffer;
  audioDuration : option Q;
  accentColor : string
}.
End Scene.

Module SceneMeta.
Record t := mk {
  scene : Scene.t;
  image : HTMLImageElement;
  duration : Q;
  audioLength : Q
}.
End SceneMeta.

(** Truthiness of an optional string: [undefined] and the empty string are
    falsy. *)
Definition truthy_string (s : option string) : bool :=
  match s with
  | Some EmptyString => false
  | Some _ => true
  | None => false
  end.

(** [scenes.filter((scene) => scene.imageDataUrl)] *)
Definition scenesReady (scenes : list Scene.t) : list Scene.t :=
  filter (fun scene => truthy_string (Scene.imageDataUrl scene)) scenes.

(** ** The render-pass audio context

    What [generateVideo] reads from the [AudioContext] it creates: the clock
    value when the cursor is initialised, the sample rate, and the decoder
    ([None] when the promise of [decodeAudioData] rejects). *)
Record AudioContext := mkAudioContext {
  currentTime : Q;
  sampleRate : Q;
  decodeAudioData : ArrayBuffer -> option AudioBuffer
}.

(** [audioCtx.createBuffer(channels, length, sampleRate)] *)
Definition createBuffer (channels length : Z) (rate : Q) : AudioBuffer :=
  mkAudioBuffer channels length rate.

(** One [source.start(when)] on a buffer source connected to the
    destination node. *)
Record ScheduledSource := mkScheduled {
  src_buffer : AudioBuffer;
  src_when : Q
}.

Inductive Exn :=
| Context2dUnavailable
| ImageLoadError
| AudioDecodeError
| InvalidTimelineError
| RecorderNotSupported.

(** ** Timeline resolver and audio scheduler: the loop over [scenesReady] *)

Record LoopState := mkLoop {
  metas : list SceneMeta.t;
  bus : list ScheduledSource;
  audioTimelineCursor : Q
}.

(** The duration a scene enters the loop with:
    [Math.max(scene.duration, DURATION_MIN)]. *)
Definition baseDuration (scene : Scene.t) : Q :=
  Qmax (Scene.duration scene) DURATION_MIN.

(** Length in sample frames of the silent buffer:
    [Math.max(1, Math.floor(duration * audioCtx.sampleRate))]. *)
Definition silenceFrames (audioCtx : AudioContext) (duration : Q) : Z :=
  Z.max 1 (Qfloor (duration * sampleRate audioCtx)).

(** First half of the loop body: the buffer to play, the [audioLength] and
    the [duration] of a scene.  A rejected [decodeAudioData] is an
    exception. *)
Definition sceneAudio (audioCtx : AudioContext) (scene : Scene.t)
    : Exn + (AudioBuffer * Q * Q) :=
  let duration := baseDuration scene in
  match Scene.audioArrayBuffer scene with
  | Some buf =>
      match decodeAudioData audioCtx buf with
      | Some decoded =>
          let audioLength := ab_duration decoded in
          inr (decoded, audioLength, Qmax duration audioLength)
      | None => inl AudioDecodeError
      end
  | None =>
      let audioLength := duration in
      inr (createBuffer 1 (silenceFrames audioCtx duration)
             (sampleRate audioCtx),
           audioLength, duration)
  end.

(** One iteration of the loop: the source is started at the cursor, the
    meta is pushed, the cursor advances by the duration. *)
Definition loopBody (audioCtx : AudioContext) (st : LoopState)
    (scene : Scene.t) (image : HTMLImageElement) : Exn + LoopState :=
  match sceneAudio audioCtx scene with
  | inl e => inl e
  | inr (audioBuffer, audioLength, duration) =>
      inr {| metas := metas st ++
                      [SceneMeta.mk scene image duration audioLength];
             bus := bus st ++
                    [mkScheduled audioBuffer (audioTimelineCursor st)];
             audioTimelineCursor := audioTimelineCursor st + duration |}
  end.

(** [for (let i = 0; i < scenesReady.length; i++)], over the scenes paired
    with their loaded images.  On a rejected decode the loop is left with
    the state reached so far. *)
Fixpoint resolveLoop (audioCtx : AudioContext)
    (items : list (Scene.t * HTMLImageElement)) (st : LoopState)
    : LoopState * option Exn :=
  match items with
  | [] => (st, None)
  | (scene, image) :: rest =>
      match loopBody audioCtx st scene image with
      | inl e => (st, Some e)
      | inr st' => resolveLoop audioCtx rest st'
      end
  end.

Definition initialLoopState (audioCtx : AudioContext) : LoopState :=
  {| metas := [];
     bus := [];
     audioTimelineCursor := currentTime audioCtx + LEAD_IN |}.

(** [metas.reduce((acc, meta) => acc + meta.duration, 0)] *)
Definition totalTimelineDuration (ms : list SceneMeta.t) : Q :=
  fold_left (fun acc meta => acc + SceneMeta.duration meta) ms 0.

(** ** Render loop: [renderFrame] *)

(** One call [drawSceneFrame(ctx, canvas, meta, elapsed, total)]; the meta is
    named by its position in [metas]. *)
Record DrawCall := mkDraw {
  draw_index : nat;
  draw_meta : SceneMeta.t;
  draw_elapsed : Q;
  draw_total : Q
}.

(** Filled fraction of the progress bar:
    [total > 0 ? Math.min(1, elapsed / total) : 1]. *)
Definition completion (elapsed total : Q) : Q :=
  if Qltb 0 total then Qmin 1 (elapsed / total) else 1.

(** [for (const meta of metas)] with its [break]: the first meta whose
    interval holds [elapsed], with its position and its [metaStart]. *)
Fixpoint scan (elapsed accumulated : Q) (i : nat) (ms : list SceneMeta.t)
    : option (nat * SceneMeta.t * Q) :=
  match ms with
  | [] => None
  | meta :: rest =>
      let metaStart := accumulated in
      let metaEnd := accumulated + SceneMeta.duration meta in
      if Qle_bool metaStart elapsed && Qltb elapsed metaEnd
      then Some (i, meta, metaStart)
      else scan elapsed (accumulated + SceneMeta.duration meta) (S i) rest
  end.

(** [metas[metas.length - 1]]; [None] stands for [undefined]. *)
Definition lastMeta (ms : list SceneMeta.t) : option SceneMeta.t :=
  nth_error ms (List.length ms - 1).

Record Selection := mkSelection {
  currentIndex : nat;
  currentMeta : SceneMeta.t;
  currentStart : Q;
  sceneElapsed : Q
}.

(** The part of [renderFrame] that picks the meta to paint, for the metas
    and the total of the enclosing render pass. *)
Definition selectSegment (ms : list SceneMeta.t) (total elapsed : Q)
    : option Selection :=
  match lastMeta ms with
  | None => None
  | Some lm =>
      let '(idx, cm, cs) :=
        match scan elapsed 0 0%nat ms with
        | Some hit => hit
        | None => ((List.length ms - 1)%nat, lm, total - SceneMeta.duration lm)
        end in
      Some {| currentIndex := idx;
              currentMeta := cm;
              currentStart := cs;
              sceneElapsed :=
                Qmin (SceneMeta.duration cm) (Qmax 0 (elapsed - cs)) |}
  end.

(** [renderFrame(timestamp)]: the frames painted by this tick and whether
    another tick is requested ([true]) or the recorder is stopped
    ([false]). *)
Definition renderFrame (ms : list SceneMeta.t) (total startInstant : Q)
    (timestamp : Q) : option (list DrawCall * bool) :=
  let elapsed := (timestamp - startInstant) / 1000 in
  match selectSegment ms total elapsed, lastMeta ms with
  | Some sel, Some lm =>
      let first :=
        mkDraw (currentIndex sel) (currentMeta sel) (sceneElapsed sel)
               (SceneMeta.duration (currentMeta sel)) in
      if Qltb elapsed total
      then Some ([first], true)
      else Some ([first;
                  mkDraw (List.length ms - 1) lm (SceneMeta.duration lm)
                         (SceneMeta.duration lm)],
                 false)
  | _, _ => None
  end.

Inductive LoopEnd :=
| RecorderStopped   (* [recorder.stop()] was called *)
| AwaitingFrame     (* the next animation frame has not come yet *)
| CallbackCrashed.  (* the callback threw; no further frame is requested *)

(** The chain of [requestAnimationFrame(renderFrame)] callbacks over the
    timestamps the host delivers, in order. *)
Fixpoint renderLoop (ms : list SceneMeta.t) (total startInstant : Q)
    (timestamps : list Q) : list DrawCall * LoopEnd :=
  match timestamps with
  | [] => ([], AwaitingFrame)
  | timestamp :: later =>
      match renderFrame ms total startInstant timestamp with
      | None => ([], CallbackCrashed)
      | Some (draws, true) =>
          let '(more, e) := renderLoop ms total startInstant later in
          (draws ++ more, e)
      | Some (draws, false) => (draws, RecorderStopped)
      end
  end.

(** ** Capture session *)

(** [recorder.ondataavailable]: a chunk is kept when its size is positive. *)
Definition ondataavailable (chunks : list Blob) (data : Blob) : list Blob :=
  if (0 <? blob_size data)%nat then chunks ++ [data] else chunks.

(** The chunk list after the given [dataavailable] events. *)
Definition recordedChunks (events : list Blob) : list Blob :=
  fold_left ondataavailable events [].

(** ** The page state touched by [generateVideo], and its host *)

Inductive Tone := ToneNeutral | ToneSuccess | ToneError.

Record UiState := mkUi {
  isGenerating : bool;
  statusTone : Tone;
  statusMessage : string;
  (* the object URL, named by the blob it points to *)
  generatedVideoUrl : option Blob
}.

Record Host := mkHost {
  canvasCurrent : bool;          (* [canvasRef.current] is not null *)
  context2d : bool;              (* [canvas.getContext("2d")] is not null *)
  loadImage : string -> option HTMLImageElement;
  audioCtx : AudioContext;       (* the [new AudioContext()] of the pass *)
  fps : Q;
  isTypeSupported : string -> bool;
  startInstant : Q;              (* [performance.now()] after the start *)
  animationFrames : list Q;      (* timestamps of the frame callbacks *)
  dataEvents : list Blob         (* [event.data] of every chunk event *)
}.

Inductive Effect :=
| SetStatusTone (tone : Tone)
| SetStatusMessage (message : string)
| SetIsGenerating (b : bool)
| NewAudioContext
| SourceStart (s : ScheduledSource)
| CaptureStream (rate : Q)
| NewMediaRecorder (mimeType : string)
| RecorderStart (timeslice : Q)
| DrawSceneFrame (d : DrawCall)
| RecorderStop
| AudioContextClose
| CreateObjectURL (b : Blob)
| RevokeObjectURL (b : Blob)
| SetGeneratedVideoUrl (b : Blob)
| ConsoleError (e : Exn).

(** Effects that start an audio, capture or encoder resource. *)
Definition startsResource (e : Effect) : bool :=
  match e with
  | NewAudioContext | SourceStart _ | CaptureStream _
  | NewMediaRecorder _ | RecorderStart _ => true
  | _ => false
  end.

Definition applyEffect (ui : UiState) (e : Effect) : UiState :=
  match e with
  | SetStatusTone tone =>
      mkUi (isGenerating ui) tone (statusMessage ui) (generatedVideoUrl ui)
  | SetStatusMessage message =>
      mkUi (isGenerating ui) (statusTone ui) message (generatedVideoUrl ui)
  | SetIsGenerating b =>
      mkUi b (statusTone ui) (statusMessage ui) (generatedVideoUrl ui)
  | SetGeneratedVideoUrl b =>
      mkUi (isGenerating ui) (statusTone ui) (statusMessage ui) (Some b)
  | _ => ui
  end.

Definition applyEffects (ui : UiState) (es : list Effect) : UiState :=
  fold_left applyEffect es ui.

(** ** [generateVideo] *)

Open Scope string_scope.

Definition preferredMime : string := "video/webm;codecs=vp9,opus".
Definition fallbackMime : string := "video/webm;codecs=vp8,opus".

Definition chooseMime (supported : string -> bool) : string :=
  if supported preferredMime then preferredMime
  else if supported fallbackMime then fallbackMime
  else "video/webm".

Definition msgNoCanvas : string :=
  "Necesitamos un canvas disponible para renderizar.".
Definition msgNoScenes : string :=
  "Agrega al menos una escena con imagen para generar el video.".
Definition msgPreparing : string := "Preparando escenas y recursos...".
Definition msgRendering : string := "Renderizando video con IA...".
Definition msgSuccess : string := "Video generado exitosamente.".
Definition msgFailure : string := "Hubo un problema al generar el video.".

Close Scope string_scope.

(** [Promise.all(scenesReady.map((scene) => loadImage(scene.imageDataUrl)))]:
    every image, or nothing when one of them fails to load. *)
Fixpoint loadImages (load : string -> option HTMLImageElement)
    (ready : list Scene.t) : option (list HTMLImageElement) :=
  match ready with
  | [] => Some []
  | scene :: rest =>
      match Scene.imageDataUrl scene with
      | None => None
      | Some src =>
          match load src, loadImages load rest with
          | Some img, Some imgs => Some (img :: imgs)
          | _, _ => None
          end
      end
  end.

(** How the body of the [try] block ends. *)
Inductive Completion :=
| Returned
| Threw (e : Exn)
| Suspended.   (* [await recorderPromise] has not resolved *)

(** The resolver of the pass: the loop run from its fresh state over the
    ready scenes and their images. *)
Definition resolve (ctx : AudioContext) (ready : list Scene.t)
    (images : list HTMLImageElement) : LoopState * option Exn :=
  resolveLoop ctx (combine ready images) (initialLoopState ctx).

(** The body of the [try] block, for a non-empty list of ready scenes. *)
Definition tryBlock (host : Host) (ui : UiState) (ready : list Scene.t)
    : list Effect * Completion :=
  if negb (context2d host) then ([], Threw Context2dUnavailable)
  else
    match loadImages (loadImage host) ready with
    | None => ([], Threw ImageLoadError)
    | Some images =>
        let '(st, failure) := resolve (audioCtx host) ready images in
        let priming := NewAudioContext :: map SourceStart (bus st) in
        match failure with
        | Some e => (priming, Threw e)
        | None =>
            let total := totalTimelineDuration (metas st) in
            if Qle_bool total 0 then (priming, Threw InvalidTimelineError)
            else
              let mimeType := chooseMime (isTypeSupported host) in
              if negb (isTypeSupported host mimeType)
              then (priming ++ [CaptureStream (fps host)],
                    Threw RecorderNotSupported)
              else
                let started :=
                  priming ++
                  [CaptureStream (fps host); NewMediaRecorder mimeType;
                   RecorderStart 500; SetStatusMessage msgRendering] in
                let '(draws, ending) :=
                  renderLoop (metas st) total (startInstant host)
                             (animationFrames host) in
                let painted := started ++ map DrawSceneFrame draws in
                match ending with
                | RecorderStopped =>
                    let videoBlob :=
                      new_Blob (recordedChunks (dataEvents host)) in
                    (painted ++
                     [RecorderStop; AudioContextClose;
                      CreateObjectURL videoBlob] ++
                     match generatedVideoUrl ui with
                     | Some old => [RevokeObjectURL old]
                     | None => []
                     end ++
                     [SetGeneratedVideoUrl videoBlob;
                      SetStatusTone ToneSuccess;
                      SetStatusMessage msgSuccess],
                     Returned)
                | _ => (painted, Suspended)
                end
        end
    end.

Record Run := mkRun {
  trace : list Effect;
  settled : bool      (* the promise of [generateVideo] has settled *)
}.

Definition generateVideo (host : Host) (ui : UiState)
    (scenes : list Scene.t) : Run :=
  if isGenerating ui then mkRun [] true
  else if negb (canvasCurrent host)
  then mkRun [SetStatusTone ToneError; SetStatusMessage msgNoCanvas] true
  else
    let ready := scenesReady scenes in
    if (List.length ready =? 0)%nat
    then mkRun [SetStatusTone ToneError; SetStatusMessage msgNoScenes] true
    else
      let entry :=
        [SetIsGenerating true; SetStatusTone ToneNeutral;
         SetStatusMessage msgPreparing] in
      match tryBlock host ui ready with
      | (body, Returned) => mkRun (entry ++ body ++ [SetIsGenerating false]) true
      | (body, Threw e) =>
          mkRun (entry ++ body ++
                 [ConsoleError e; SetStatusTone ToneError;
                  SetStatusMessage msgFailure; SetIsGenerating false]) true
      | (body, Suspended) => mkRun (entry ++ body) false
      end.

(** The page state once the effects of a run have been applied. *)
Definition stateAfter (host : Host) (ui : UiState) (scenes : list Scene.t)
    : UiState :=
  applyEffects ui (trace (generateVideo host ui scenes)).

(** ** The editing handlers that write a scene's duration and audio *)

(** [createScene()], with the identifier and the accent colour drawn by the
    host's random sources. *)
Definition createScene (newId accent : string) : Scene.t :=
  Scene.mk newId EmptyString 6 None None None None None accent.

(** [handleDurationChange(sceneId, duration)] as a state update. *)
Definition handleDurationChange (sceneId : string) (duration : Q)
    (prev : list Scene.t) : list Scene.t :=
  map (fun scene =>
         if String.eqb (Scene.id scene) sceneId
         then Scene.mk (Scene.id scene) (Scene.dialogue scene) duration
                (Scene.imageDataUrl scene) (Scene.imageName scene)
                (Scene.audioName scene) (Scene.audioArrayBuffer scene)
                (Scene.audioDuration scene) (Scene.accentColor scene)
         else scene) prev.

Record File := mkFile {
  file_name : string;
  file_bytes : ArrayBuffer
}.

Record Editor := mkEditor {
  ed_scenes : list Scene.t;
  ed_tone : Tone;
  ed_message : string
}.

Open Scope string_scope.
Definition msgAudioLoaded : string := "Audio cargado en la escena.".
Definition msgAudioUndecodable : string :=
  "No se pudo decodificar el archivo de audio.".
Definition msgVoiceName : string := "Grabación de voz".
Definition msgVoiceSaved : string := "Grabación guardada en la escena.".
Close Scope string_scope.

(** [handleAudioUpload(sceneId, file)], with the decoder of the shared
    editing context. *)
Definition handleAudioUpload (decode : ArrayBuffer -> option AudioBuffer)
    (sceneId : string) (file : option File) (ed : Editor) : Editor :=
  match file with
  | None => ed
  | Some f =>
      match decode (file_bytes f) with
      | Some decoded =>
          mkEditor
            (map (fun scene =>
                    if String.eqb (Scene.id scene) sceneId
                    then Scene.mk (Scene.id scene) (Scene.dialogue scene)
                           (Scene.duration scene) (Scene.imageDataUrl scene)
                           (Scene.imageName scene) (Some (file_name f))
                           (Some (file_bytes f)) (Some (ab_duration decoded))
                           (Scene.accentColor scene)
                    else scene) (ed_scenes ed))
            ToneSuccess msgAudioLoaded
      | None => mkEditor (ed_scenes ed) ToneError msgAudioUndecodable
      end
  end.

(** [recorder.onstop] of the voice recorder of a scene, on the chunks it
    kept: an empty blob ends the handler before anything is written or
    reported.  A rejected decode is an unhandled rejection of the handler
    and writes nothing either. *)
Definition voiceRecorderStopped (decode : ArrayBuffer -> option AudioBuffer)
    (sceneId : string) (chunks : list Blob) (ed : Editor) : Editor :=
  let blob := new_Blob chunks in
  if (blob_size blob =? 0)%nat then ed
  else
    match decode blob with
    | Some decoded =>
        mkEditor
          (map (fun scene =>
                  if String.eqb (Scene.id scene) sceneId
                  then Scene.mk (Scene.id scene) (Scene.dialogue scene)
                         (Scene.duration scene) (Scene.imageDataUrl scene)
                         (Scene.imageName scene) (Some msgVoiceName)
                         (Some blob) (Some (ab_duration decoded))
                         (Scene.accentColor scene)
                  else scene) (ed_scenes ed))
          ToneSuccess msgVoiceSaved
    | None => ed
    end.

(** ** Notions the properties are stated with *)

(** The values [metaStart] takes in the scan when it runs over every meta:
    the start offset of each segment on the timeline. *)
Fixpoint metaStarts (accumulated : Q) (ms : list SceneMeta.t) : list Q :=
  match ms with
  | [] => []
  | meta :: rest =>
      accumulated :: metaStarts (accumulated + SceneMeta.duration meta) rest
  end.

Definition startOffsets (ms : list SceneMeta.t) : list Q := metaStarts 0 ms.

(** Sum of the effective durations, from the right. *)
Definition sumDurations (ms : list SceneMeta.t) : Q :=
  fold_right (fun meta acc => SceneMeta.duration meta + acc) 0 ms.

(** One completed iteration of the resolver loop at a given cursor. *)
Definition iteration (ctx : AudioContext) (cursor : Q)
    (item : Scene.t * HTMLImageElement) (meta : SceneMeta.t)
    (src : ScheduledSource) : Prop :=
  sceneAudio ctx (fst item)
    = inr (src_buffer src, SceneMeta.audioLength meta, SceneMeta.duration meta)
  /\ SceneMeta.scene meta = fst item
  /\ SceneMeta.image meta = snd item
  /\ src_when src = cursor.

(** The completed iterations of a run of the loop, with the cursor threaded
    through them. *)
Inductive Iterations (ctx : AudioContext)
  : Q -> list (Scene.t * HTMLImageElement) -> list SceneMeta.t ->
    list ScheduledSource -> Q -> Prop :=
| Iterations_nil cursor : Iterations ctx cursor [] [] [] cursor
| Iterations_cons cursor item meta src items ms srcs final :
    iteration ctx cursor item meta src ->
    Iterations ctx (cursor + SceneMeta.duration meta) items ms srcs final ->
    Iterations ctx cursor (item :: items) (meta :: ms) (src :: srcs) final.

(** What the timeline resolver promises for one scene: the meta is the
    scene's, and its duration is the largest of the requested duration, the
    minimum, and the decoded length of the attached audio when there is
    one. *)
Definition resolvesTo (ctx : AudioContext) (scene : Scene.t)
    (meta : SceneMeta.t) : Prop :=
  SceneMeta.scene meta = scene /\
  match Scene.audioArrayBuffer scene with
  | None =>
      SceneMeta.duration meta == Qmax (Scene.duration scene) DURATION_MIN
  | Some buf =>
      exists decoded,
        decodeAudioData ctx buf = Some decoded /\
        SceneMeta.duration meta ==
          Qmax (Qmax (Scene.duration scene) (ab_duration decoded))
               DURATION_MIN
  end.

(** ** A sample project

    Two renderable scenes and one without image: five seconds of picture
    without audio, then a three-second scene carrying a six-second clip.
    The sample decoder rejects the empty buffer and reads every other one as
    six seconds of stereo per byte at 48 kHz. *)

Open Scope string_scope.

Definition sampleDecode (buf : ArrayBuffer) : option AudioBuffer :=
  match buf with
  | [] => None
  | _ => Some (mkAudioBuffer 2 (288000 * Z.of_nat (List.length buf)) 48000)
  end.

Definition sampleCtx : AudioContext :=
  mkAudioContext (1 # 4) 48000 sampleDecode.

Definition sampleLoad (src : string) : option HTMLImageElement :=
  Some (mkImage 640 480).

Definition sceneA : Scene.t :=
  Scene.mk "a" "Hola" 5 (Some "data:image/png;base64,AAAA") (Some "a.png")
           None None None "hsl(10, 82%, 58%)".

Definition sceneB : Scene.t :=
  Scene.mk "b" "" 3 (Some "data:image/png;base64,BBBB") (Some "b.png")
           (Some "b.ogg") (Some [Byte.x01]) (Some 6) "hsl(200, 82%, 58%)".

Definition sceneNoImage : Scene.t :=
  Scene.mk "c" "sin imagen" 6 None None None None None "hsl(90, 82%, 58%)".

(** A scene whose attached buffer the sample decoder rejects. *)
Definition sceneUndecodable : Scene.t :=
  Scene.mk "d" "" 4 (Some "data:image/png;base64,DDDD") (Some "d.png")
           (Some "d.ogg") (Some []) (Some 2) "hsl(300, 82%, 58%)".

(** A scene whose stored duration lies above [DURATION_MAX]. *)
Definition sceneLong : Scene.t :=
  Scene.mk "e" "" 45 (Some "data:image/png;base64,EEEE") (Some "e.png")
           None None None "hsl(40, 82%, 58%)".

Definition sampleScenes : list Scene.t := [sceneA; sceneNoImage; sceneB].

Definition sampleImages : list HTMLImageElement :=
  [mkImage 640 480; mkImage 640 480].

Definition sampleState : LoopState :=
  fst (resolve sampleCtx (scenesReady sampleScenes) sampleImages).

Definition sampleUi : UiState := mkUi false ToneNeutral "" None.

(** A host that supports the fallback codec pair only, delivers five frame
    callbacks (the first one stamped before the recorded start instant, the
    last two past the end of the eleven-second timeline) and three chunk
    events, one of them empty. *)
Definition sampleHost : Host :=
  mkHost true true sampleLoad sampleCtx 30
         (fun mime => String.eqb mime fallbackMime)
         1000 [990; 1016; 6500; 12000; 12016]
         [[Byte.x1a; Byte.x45]; []; [Byte.xdf]].

(** The same host when the recorder hands over no data at all. *)
Definition silentRecorderHost : Host :=
  mkHost true true sampleLoad sampleCtx 30
         (fun mime => String.eqb mime fallbackMime)
         1000 [990; 1016; 6500; 12000; 12016]
         [].

Close Scope string_scope.

(** The buffer a scene's source plays: the decoded one, or the silent one. *)
Definition plays (ctx : AudioContext) (scene : Scene.t)
    (src : ScheduledSource) : Prop :=
  match Scene.audioArrayBuffer scene with
  | Some buf => decodeAudioData ctx buf = Some (src_buffer src)
  | None =>
      src_buffer src =
        createBuffer 1 (silenceFrames ctx (baseDuration scene))
                     (sampleRate ctx)
  end.

(** Recognisers for effects of a trace. *)
Definition isRecorderStop (e : Effect) : bool :=
  match e with RecorderStop => true | _ => false end.

Definition isRecorderStart (e : Effect) : bool :=
  match e with RecorderStart _ => true | _ => false end.

Definition isDraw (e : Effect) : bool :=
  match e with DrawSceneFrame _ => true | _ => false end.

Definition isSuccessTone (e : Effect) : bool :=
  match e with SetStatusTone ToneSuccess => true | _ => false end.

(** A scene without a bound image, as the filter of [generateVideo] sees
    it. *)
Definition lacksImage (scene : Scene.t) : Prop :=
  truthy_string (Scene.imageDataUrl scene) = false.

(** A stored duration inside the range of the duration slider. *)
Definition withinSlider (scene : Scene.t) : Prop :=
  DURATION_MIN <= Scene.duration scene <= DURATION_MAX.

(** The undecodable sample scene with its audio detached. *)
Definition sceneDetached : Scene.t :=
  Scene.mk (Scene.id sceneUndecodable) (Scene.dialogue sceneUndecodable)
           (Scene.duration sceneUndecodable)
           (Scene.imageDataUrl sceneUndecodable)
           (Scene.imageName sceneUndecodable) None None None
           (Scene.accentColor sceneUndecodable).

(** ** The other scene-list handlers of the editor *)

(** [handleDialogueChange(sceneId, value)] as a state update. *)
Definition handleDialogueChange (sceneId value : string)
    (prev : list Scene.t) : list Scene.t :=
  map (fun scene =>
         if String.eqb (Scene.id scene) sceneId
         then Scene.mk (Scene.id scene) value (Scene.duration scene)
                (Scene.imageDataUrl scene) (Scene.imageName scene)
                (Scene.audioName scene) (Scene.audioArrayBuffer scene)
                (Scene.audioDuration scene) (Scene.accentColor scene)
         else scene) prev.

(** [handleImageUpload(sceneId, file)]: the state update run by the
    reader's [onload], with the data URL the reader produced ([None] when
    the read fails and [onload] never runs). *)
Definition handleImageUpload (readAsDataURL : File -> option string)
    (sceneId : string) (file : option File) (prev : list Scene.t)
    : list Scene.t :=
  match file with
  | None => prev
  | Some f =>
      match readAsDataURL f with
      | None => prev
      | Some dataUrl =>
          map (fun scene =>
                 if String.eqb (Scene.id scene) sceneId
                 then Scene.mk (Scene.id scene) (Scene.dialogue scene)
                        (Scene.duration scene) (Some dataUrl)
                        (Some (file_name f)) (Scene.audioName scene)
                        (Scene.audioArrayBuffer scene)
                        (Scene.audioDuration scene) (Scene.accentColor scene)
                 else scene) prev
      end
  end.

(** [clearAudio(sceneId)] *)
Definition clearAudio (sceneId : string) (prev : list Scene.t)
    : list Scene.t :=
  map (fun scene =>
         if String.eqb (Scene.id scene) sceneId
         then Scene.mk (Scene.id scene) (Scene.dialogue scene)
                (Scene.duration scene) (Scene.imageDataUrl scene)
                (Scene.imageName scene) None None None
                (Scene.accentColor scene)
         else scene) prev.

(** [addScene()] *)
Definition addScene (newId accent : string) (prev : list Scene.t)
    : list Scene.t :=
  prev ++ [createScene newId accent].

(** [prev.findIndex(p)]; [None] stands for [-1]. *)
Fixpoint findIndex (p : Scene.t -> bool) (l : list Scene.t) : option nat :=
  match l with
  | [] => None
  | scene :: rest =>
      if p scene then Some 0%nat else option_map S (findIndex p rest)
  end.

(** [duplicateScene(sceneId)], with the identifier and the accent colour
    drawn for the clone. *)
Definition duplicateScene (newId accent : string) (sceneId : string)
    (prev : list Scene.t) : list Scene.t :=
  match findIndex (fun scene => String.eqb (Scene.id scene) sceneId) prev with
  | None => prev
  | Some index =>
      match nth_error prev index with
      | None => prev
      | Some original =>
          let clone :=
            Scene.mk newId (Scene.dialogue original) (Scene.duration original)
              (Scene.imageDataUrl original) (Scene.imageName original)
              (Scene.audioName original) (Scene.audioArrayBuffer original)
              (Scene.audioDuration original) accent in
          firstn (index + 1) prev ++ clone :: skipn (index + 1) prev
      end
  end.

(** [removeScene(sceneId)] *)
Definition removeScene (sceneId : string) (prev : list Scene.t)
    : list Scene.t :=
  if (List.length prev =? 1)%nat then prev
  else filter (fun scene => negb (String.eqb (Scene.id scene) sceneId)) prev.

(** ** Selection *)

(** The effect that keeps [selectedSceneId] on a scene of the list: the
    value the effect leaves in the state. *)
Definition syncSelection (scenes : list Scene.t)
    (selectedSceneId : option string) : option string :=
  if negb (truthy_string selectedSceneId) && (0 <? List.length scenes)%nat
  then option_map Scene.id (hd_error scenes)
  else
    match selectedSceneId with
    | Some sel =>
        if truthy_string selectedSceneId
           && negb (existsb (fun scene => String.eqb (Scene.id scene) sel)
                            scenes)
        then option_map Scene.id (hd_error scenes)
        else selectedSceneId
    | None => selectedSceneId
    end.

(** [scenes.find((scene) => scene.id === selectedSceneId) ?? null] *)
Definition selectedScene (scenes : list Scene.t)
    (selectedSceneId : option string) : option Scene.t :=
  match selectedSceneId with
  | Some sel => find (fun scene => String.eqb (Scene.id scene) sel) scenes
  | None => None
  end.

(** ** Durations shown by the editor *)

(** Truthiness of an optional number: [undefined] and zero are falsy. *)
Definition truthy_number (n : option Q) : bool :=
  match n with
  | Some a => negb (Qeq_bool a 0)
  | None => false
  end.

(** The memo [totalDuration]. *)
Definition totalDuration (scenes : list Scene.t) : Q :=
  fold_left
    (fun sum scene =>
       let base := Qmax (Scene.duration scene) DURATION_MIN in
       match Scene.audioDuration scene with
       | Some a =>
           if truthy_number (Some a) then sum + Qmax base a else sum + base
       | None => sum + base
       end)
    scenes 0.

(** [Math.max(scene.duration, scene.audioDuration ?? 0, DURATION_MIN)] *)
Definition segmentDuration (scene : Scene.t) : Q :=
  Qmax (Qmax (Scene.duration scene)
             (match Scene.audioDuration scene with
              | Some a => a
              | None => 0
              end))
       DURATION_MIN.

(** One entry of the timeline bar; [seg_width] is the number the template
    prints in front of the percent sign. *)
Record TimelineSegment := mkSegment {
  seg_id : string;
  seg_width : Q;
  seg_color : string
}.

(** The memo [timelineSegments]. *)
Definition timelineSegments (scenes : list Scene.t) : list TimelineSegment :=
  let total :=
    fold_left (fun acc scene => acc + segmentDuration scene) scenes 0 in
  if Qeq_bool total 0 then []
  else
    map (fun scene =>
           mkSegment (Scene.id scene)
                     (segmentDuration scene / total * 100)
                     (Scene.accentColor scene))
        scenes.

(** ** [formatSeconds] *)

From Stdlib Require Import DecimalString Ascii.

Open Scope string_scope.

(** [n.toString()] for a whole number. *)
Definition toString (n : Z) : string := NilZero.string_of_int (Z.to_int n).

(** [s.padStart(2, "0")] *)
Definition padStart2 (s : string) : string :=
  match String.length s with
  | 0%nat => "00"
  | 1%nat => "0" ++ s
  | _ => s
  end.

(** Rounding towards zero, and the remainder [x % y] built on it (the sign
    of the result is the sign of [x]). *)
Definition Qtrunc (q : Q) : Z :=
  if Qle_bool 0 q then Qfloor q else Qceiling q.

Definition jsRem (x y : Q) : Q := x - y * inject_Z (Qtrunc (x / y)).

Definition formatSeconds (seconds : Q) : string :=
  let mins := padStart2 (toString (Qfloor (seconds / 60))) in
  let secs := padStart2 (toString (Qfloor (jsRem seconds 60))) in
  mins ++ ":" ++ secs.

(** ** Painting a frame: [wrapText] and [drawSceneFrame] *)

(** What the 2D context is asked to do. *)
Inductive FillStyle :=
| Color (css : string)
| LinearGradient (x0 y0 x1 y1 : Q) (stops : list (Q * string)).

Inductive CanvasOp :=
| Save
| Restore
| SetFillStyle (style : FillStyle)
| FillRect (x y w h : Q)
| DrawImage (img : HTMLImageElement) (dx dy dw dh : Q)
| SetTextAlign (align : string)
| SetTextBaseline (baseline : string)
| SetFont (weight sizePx : Q)
| FillText (line : string) (x y : Q).

(** The string functions and the text metrics the painter takes from its
    host: [ctx.measureText(s).width] under the font of the given size,
    [s.split(/\s+/)] and [s.trim()]. *)
Record TextHost := mkTextHost {
  measureText : Q -> string -> Q;
  splitWhitespace : string -> list string;
  trim : string -> string
}.

(** Truthiness of a string. *)
Definition nonEmpty (s : string) : bool :=
  match s with
  | EmptyString => false
  | _ => true
  end.

(** The [for] loop of [wrapText] from word [n] on: the lines flushed, the
    line in progress and its ordinate. *)
Fixpoint wrapLoop (measure : string -> Q) (x maxWidth lineHeight : Q)
    (words : list string) (n : nat) (line : string) (currentY : Q)
    : list CanvasOp * string * Q :=
  match words with
  | [] => ([], line, currentY)
  | word :: rest =>
      let testLine := if nonEmpty line then line ++ " " ++ word else word in
      if Qltb maxWidth (measure testLine) && (0 <? n)%nat
      then
        let '(ops, final, y) :=
          wrapLoop measure x maxWidth lineHeight rest (S n) word
                   (currentY + lineHeight) in
        (FillText line x currentY :: ops, final, y)
      else
        wrapLoop measure x maxWidth lineHeight rest (S n) testLine currentY
  end.

(** [wrapText(ctx, text, x, y, maxWidth, lineHeight)], on the words of the
    text. *)
Definition wrapWords (measure : string -> Q) (words : list string)
    (x y maxWidth lineHeight : Q) : list CanvasOp :=
  let '(ops, line, currentY) :=
    wrapLoop measure x maxWidth lineHeight words 0 "" y in
  ops ++ (if nonEmpty line then [FillText line x currentY] else []).

Definition wrapText (host : TextHost) (fontSize : Q) (text : string)
    (x y maxWidth lineHeight : Q) : list CanvasOp :=
  wrapWords (measureText host fontSize) (splitWhitespace host text)
            x y maxWidth lineHeight.

(** The rectangle [dx, dy, drawWidth, drawHeight] the image is drawn in. *)
Definition fitImage (image : HTMLImageElement) (width height : Q)
    : Q * Q * Q * Q :=
  let imgRatio := img_width image / img_height image in
  let canvasRatio := width / height in
  let '(drawWidth, drawHeight) :=
    if Qltb canvasRatio imgRatio
    then (width, width / imgRatio)
    else (height * imgRatio, height) in
  ((width - drawWidth) / 2, (height - drawHeight) / 2, drawWidth, drawHeight).

(** The track of the progress bar: [progressX, progressY, progressWidth,
    progressHeight]. *)
Definition progressTrack (width height : Q) : Q * Q * Q * Q :=
  let progressWidth := width * (6 # 10) in
  let progressHeight := Qmax 10 (height * (15 # 1000)) in
  ((width - progressWidth) / 2,
   height - progressHeight - Qmax 40 (height * (4 # 100)),
   progressWidth, progressHeight).

(** [drawSceneFrame(ctx, canvas, meta, elapsed, total)] on a canvas of the
    given size. *)
Definition drawSceneFrame (host : TextHost) (width height : Q)
    (meta : SceneMeta.t) (elapsed total : Q) : list CanvasOp :=
  let image := SceneMeta.image meta in
  let scene := SceneMeta.scene meta in
  let '(dx, dy, drawWidth, drawHeight) := fitImage image width height in
  let caption := trim host (Scene.dialogue scene) in
  let '(progressX, progressY, progressWidth, progressHeight) :=
    progressTrack width height in
  [Save; SetFillStyle (Color "#020409"); FillRect 0 0 width height;
   DrawImage image dx dy drawWidth drawHeight] ++
  (if nonEmpty caption
   then
     let captionHeight := height * (28 # 100) in
     let fontSize := Qmax 28 (width * (26 # 1000)) in
     [SetFillStyle
        (LinearGradient 0 (height - captionHeight) 0 height
           [(0, "rgba(0,0,0,0)"); (4 # 10, "rgba(0,0,0,0.45)");
            (1, "rgba(0,0,0,0.75)")]);
      FillRect 0 (height - captionHeight) width captionHeight;
      SetTextAlign "center"; SetTextBaseline "middle";
      SetFillStyle (Color "#f8fafc"); SetFont 600 fontSize] ++
     wrapText host fontSize caption (width / 2)
              (height - captionHeight / 2) (width * (7 # 10))
              (Qmax 34 (width * (35 # 1000)))
   else []) ++
  [SetFillStyle (Color "rgba(255, 255, 255, 0.25)");
   FillRect progressX progressY progressWidth progressHeight;
   SetFillStyle (Color (Scene.accentColor scene));
   FillRect progressX progressY
            (progressWidth * completion elapsed total) progressHeight;
   Restore].

Close Scope string_scope.

(** The text of a [FillText], and nothing for another operation. *)
Definition textOf (op : CanvasOp) : option string :=
  match op with
  | FillText line _ _ => Some line
  | _ => None
  end.

Definition ordinateOf (op : CanvasOp) : option Q :=
  match op with
  | FillText _ _ y => Some y
  | _ => None
  end.

Definition isFillText (op : CanvasOp) : bool :=
  match op with
  | FillText _ _ _ => true
  | _ => false
  end.

(** A sample text host: every character is ten pixels wide, words are
    separated by single spaces, and trimming leaves such a text as it is. *)
Fixpoint splitSpaces (current : string) (s : string) : list string :=
  match s with
  | EmptyString => [current]
  | String c rest =>
      if Ascii.eqb c " "%char then current :: splitSpaces EmptyString rest
      else splitSpaces (current ++ String c EmptyString) rest
  end.

Definition sampleTextHost : TextHost :=
  mkTextHost (fun _ s => inject_Z (10 * Z.of_nat (String.length s)))
             (splitSpaces EmptyString) (fun s => s).

(** ** Notions for the properties of the editor *)

(** Sum of a rational measure over a list, from the right. *)
Definition sumQ {A} (f : A -> Q) (l : list A) : Q :=
  fold_right (fun x acc => f x + acc) 0 l.

(** The clone [duplicateScene] makes of a scene. *)
Definition cloneOf (newId accent : string) (original : Scene.t) : Scene.t :=
  Scene.mk newId (Scene.dialogue original) (Scene.duration original)
    (Scene.imageDataUrl original) (Scene.imageName original)
    (Scene.audioName original) (Scene.audioArrayBuffer original)
    (Scene.audioDuration original) accent.

(** A scene that carries no audio at all. *)
Definition audioless (scene : Scene.t) : Prop :=
  Scene.audioName scene = None /\
  Scene.audioArrayBuffer scene = None /\
  Scene.audioDuration scene = None.

(** The duration stored with a scene is the duration of its buffer as the
    render context decodes it, and both are present or absent together. *)
Definition storedAudioAgrees (ctx : AudioContext) (scene : Scene.t) : Prop :=
  match Scene.audioArrayBuffer scene, Scene.audioDuration scene with
  | None, None => True
  | Some buf, Some stored =>
      exists decoded,
        decodeAudioData ctx buf = Some decoded /\
        stored == ab_duration decoded
  | _, _ => False
  end.

(** A sample file reader: every file reads as the same small data URL. *)
Definition sampleReader (f : File) : option string :=
  Some "data:image/png;base64,CCCC"%string.

(** The clock text of whole minutes and seconds. *)
Definition clock (mins secs : Z) : string :=
  (padStart2 (toString mins) ++ ":" ++ padStart2 (toString secs))%string.

(** The whole number a string of decimal digits reads as. *)
Definition readDecimal (s : string) : option Z :=
  option_map Z.of_int (NilZero.int_of_string s).

(** The lines of text a list of canvas operations draws, in order. *)
Definition textsOf (ops : list CanvasOp) : list string :=
  flat_map (fun op => match textOf op with
                      | Some line => [line]
                      | None => []
                      end) ops.

(** Words joined by single spaces. *)
Definition joinWords (words : list string) : string :=
  String.concat " "%string words.

(** The words of the sample caption. *)
Definition sampleWords : list string :=
  ["uno"; "dos"; "tres"]%string.

(** Recognisers for the exceptions a trace logs. *)
Definition logsInvalidTimeline (e : Effect) : bool :=
  match e with ConsoleError InvalidTimelineError => true | _ => false end.

(** ** The page around [generateVideo] *)

(** [canvasRef.current] is not null exactly when the editor panel is
    rendered, that is when [selectedScene] is a scene: the canvas element
    sits inside the branch [selectedScene ? (...) : (...)] of the page. *)
Definition canvasMounted (scenes : list Scene.t)
    (selectedSceneId : option string) : bool :=
  match selectedScene scenes selectedSceneId with
  | Some _ => true
  | None => false
  end.

(** A host seen from the page: the canvas reference is the page's. *)
Definition onPage (host : Host) (scenes : list Scene.t)
    (selectedSceneId : option string) : Host :=
  mkHost (canvasMounted scenes selectedSceneId) (context2d host)
         (loadImage host) (audioCtx host) (fps host) (isTypeSupported host)
         (startInstant host) (animationFrames host) (dataEvents host).

(** The two buttons that call [generateVideo] carry
    [disabled={isGenerating}]: a click reaches the handler only in a render
    whose [isGenerating] is false. *)
Definition clickGenerate (host : Host) (ui : UiState)
    (scenes : list Scene.t) : option Run :=
  if isGenerating ui then None else Some (generateVideo host ui scenes).

(** One edit of the scene list, as the handlers of the page make it.  The
    duration handler is called by the range input, whose value lies between
    its [min] and [max] attributes, [DURATION_MIN] and [DURATION_MAX]; the
    audio handlers decode with the given decoder; the identifier that
    [createId()] draws for a new scene is one no scene of the list bears. *)
Inductive EditorStep (decode : ArrayBuffer -> option AudioBuffer)
  : list Scene.t -> list Scene.t -> Prop :=
| StepDialogue sceneId value prev :
    EditorStep decode prev (handleDialogueChange sceneId value prev)
| StepDuration sceneId value prev :
    DURATION_MIN <= value <= DURATION_MAX ->
    EditorStep decode prev (handleDurationChange sceneId value prev)
| StepImage reader sceneId file prev :
    EditorStep decode prev (handleImageUpload reader sceneId file prev)
| StepAudio sceneId file tone message prev :
    EditorStep decode prev
      (ed_scenes (handleAudioUpload decode sceneId file
                    (mkEditor prev tone message)))
| StepVoice sceneId chunks tone message prev :
    EditorStep decode prev
      (ed_scenes (voiceRecorderStopped decode sceneId chunks
                    (mkEditor prev tone message)))
| StepClear sceneId prev :
    EditorStep decode prev (clearAudio sceneId prev)
| StepAdd newId accent prev :
    ~ In newId (map Scene.id prev) ->
    EditorStep decode prev (addScene newId accent prev)
| StepDuplicate newId accent sceneId prev :
    ~ In newId (map Scene.id prev) ->
    EditorStep decode prev (duplicateScene newId accent sceneId prev)
| StepRemove sceneId prev :
    EditorStep decode prev (removeScene sceneId prev).

(** The scene lists the page can hold: the initial list
    [[createScene()]] and what the handlers make of it. *)
Inductive Reachable (decode : ArrayBuffer -> option AudioBuffer)
  : list Scene.t -> Prop :=
| Reachable_initial newId accent :
    Reachable decode [createScene newId accent]
| Reachable_step prev next :
    Reachable decode prev -> EditorStep decode prev next ->
    Reachable decode next.


(** ** The arithmetic of the render pass in binary64

    The same lines of [generateVideo] and [renderFrame] with the numbers of
    the page, IEEE 754 doubles, in place of exact rationals.  A meta stands
    here by its duration, the one field the arithmetic reads.  [Math.max]
    and [Math.min] are taken on numbers that are not NaN. *)

From Stdlib Require Floats.

Module Double.

Import PrimFloat.
#[local] Set Warnings "-inexact-float".
#[local] Open Scope float_scope.

Definition Math_max (a b : float) : float := if ltb a b then b else a.
Definition Math_min (a b : float) : float := if ltb b a then b else a.

(** [metas.reduce((acc, meta) => acc + meta.duration, 0)] *)
Definition totalTimelineDuration (durations : list float) : float :=
  fold_left add durations 0.

(** The scan of [renderFrame]: position and [metaStart] of the hit. *)
Fixpoint scan (elapsed accumulated : float) (i : nat)
    (durations : list float) : option (nat * float) :=
  match durations with
  | [] => None
  | duration :: rest =>
      let metaStart := accumulated in
      let metaEnd := accumulated + duration in
      if leb metaStart elapsed && ltb elapsed metaEnd
      then Some (i, metaStart)
      else scan elapsed (accumulated + duration) (S i) rest
  end.

(** The selection of [renderFrame]: position, [currentStart] and
    [sceneElapsed]. *)
Definition selectSegment (durations : list float) (total elapsed : float)
    : option (nat * float * float) :=
  match nth_error durations (List.length durations - 1) with
  | None => None
  | Some lastDuration =>
      let '(idx, currentStart) :=
        match scan elapsed 0 0%nat durations with
        | Some hit => hit
        | None => ((List.length durations - 1)%nat, total - lastDuration)
        end in
      match nth_error durations idx with
      | Some duration =>
          Some (idx, currentStart,
                Math_min duration (Math_max 0 (elapsed - currentStart)))
      | None => None
      end
  end.

(** The values [metaStart] takes over the whole list. *)
Fixpoint metaStarts (accumulated : float) (durations : list float)
    : list float :=
  match durations with
  | [] => []
  | duration :: rest =>
      accumulated :: metaStarts (accumulated + duration) rest
  end.

(** The arguments of the calls [source.start(audioTimelineCursor)], the
    cursor starting at [audioCtx.currentTime + 0.4]. *)
Definition sourceStarts (currentTime : float) (durations : list float)
    : list float :=
  metaStarts (currentTime + 0.4) durations.

(** Differences of neighbours in a list of numbers. *)
Fixpoint gaps (xs : list float) : list float :=
  match xs with
  | a :: (b :: _) as rest => (b - a) :: gaps rest
  | _ => []
  end.

(** Two clips of 2.2 s and 1.8 s on scenes of the minimum duration, and a
    frame stamped four seconds after the start. *)
Definition clips : list float := [2.2; 1.8].
Definition atTheEnd : float := (4000 - 0) / 1000.
Definition lastClip : float := 1.8.
Definition shortOfLastClip : float := 1.7999999999999998.

(** Three segments of 5 s, 6 s and 1 s scheduled when the audio clock
    reads 512 frames at 48 kHz. *)
Definition segments : list float := [5; 6; 1].
Definition clockAtPriming : float := 512 / 48000.
Definition startsOfSegments : list float :=
  [0.4106666666666667; 5.410666666666667; 11.410666666666668].
Definition gapsOfStarts : list float := [5; 6.000000000000001].
Definition gapsOfOffsets : list float := [5; 6].

End Double.

(** A host whose audio runs at 11025 Hz, and the initial scene with the
    slider moved to a second and a half and an image uploaded. *)
Definition slowCtx : AudioContext :=
  mkAudioContext (1 # 4) 11025 sampleDecode.

Definition slowScenes : list Scene.t :=
  handleImageUpload sampleReader "f"%string
    (Some (mkFile "f.png"%string []))
    (handleDurationChange "f"%string (3 # 2)
       [createScene "f"%string "hsl(120, 82%, 58%)"%string]).

Definition slowState : LoopState :=
  fst (resolve slowCtx (scenesReady slowScenes) [mkImage 640 480]).

(** The initial scene after the slider was moved to twelve seconds, an
    image uploaded and a clip attached that the sample decoder reads as six
    seconds. *)
Definition pageScenes : list Scene.t :=
  ed_scenes
    (handleAudioUpload sampleDecode "g"%string
       (Some (mkFile "g.ogg"%string [Byte.x01]))
       (mkEditor
          (handleImageUpload sampleReader "g"%string
             (Some (mkFile "g.png"%string []))
             (handleDurationChange "g"%string 12
                [createScene "g"%string "hsl(210, 82%, 58%)"%string]))
          ToneNeutral EmptyString)).

(** The values [currentY] takes in [wrapText]: the ordinate of the first
    line, then [currentY += lineHeight] line after line. *)
Fixpoint lineOrdinates (currentY lineHeight : Q) (lines : nat) : list Q :=
  match lines with
  | O => []
  | S more =>
      currentY :: lineOrdinates (currentY + lineHeight) lineHeight more
  end.

(** * Properties *)

(** ** Comparisons and extrema on numbers *)

Lemma Qltb_lt (x y : Q) : Qltb x y = true <-> x < y.
Proof.
  unfold Qltb. rewrite negb_true_iff.
  split; intro H.
  - destruct (Qlt_le_dec x y) as [L | L]; [exact L |].
    apply Qle_bool_iff in L. congruence.
  - destruct (Qle_bool y x) eqn:E; [| reflexivity].
    apply Qle_bool_iff in E. lra.
Qed.

Lemma Qltb_ge (x y : Q) : Qltb x y = false <-> y <= x.
Proof.
  unfold Qltb. rewrite negb_false_iff. apply Qle_bool_iff.
Qed.

Lemma Qle_bool_gt (x y : Q) : Qle_bool x y = false <-> y < x.
Proof.
  split; intro H.
  - destruct (Qlt_le_dec y x) as [L | L]; [exact L |].
    apply Qle_bool_iff in L. congruence.
  - destruct (Qle_bool x y) eqn:E; [| reflexivity].
    apply Qle_bool_iff in E. lra.
Qed.


(** Case analysis on every [Qmax] and [Qmin] in sight, then linear
    arithmetic. *)
Ltac extrema :=
  repeat match goal with
  | |- context [Qmax ?a ?b] =>
      let H := fresh "Hmax" in
      destruct (Q.max_spec a b) as [[? H] | [? H]];
      revert H; generalize (Qmax a b); intros ? H
  | |- context [Qmin ?a ?b] =>
      let H := fresh "Hmin" in
      destruct (Q.min_spec a b) as [[? H] | [? H]];
      revert H; generalize (Qmin a b); intros ? H
  | H0 : context [Qmax ?a ?b] |- _ =>
      let H := fresh "Hmax" in
      destruct (Q.max_spec a b) as [[? H] | [? H]];
      revert H H0; generalize (Qmax a b); intros ? H H0
  | H0 : context [Qmin ?a ?b] |- _ =>
      let H := fresh "Hmin" in
      destruct (Q.min_spec a b) as [[? H] | [? H]];
      revert H H0; generalize (Qmin a b); intros ? H H0
  end;
  try lra.

Lemma Qmax3_reorder (r a m : Q) :
  Qmax (Qmax r m) a == Qmax (Qmax r a) m.
Proof. extrema. Qed.

Lemma baseDuration_ge_min (scene : Scene.t) :
  DURATION_MIN <= baseDuration scene.
Proof. unfold baseDuration. extrema. Qed.

(** ** The resolver loop as a sequence of iterations *)

Section ResolverLoop.

Variable ctx : AudioContext.

Lemma loopBody_iteration st scene image st' :
  loopBody ctx st scene image = inr st' ->
  exists meta src,
    iteration ctx (audioTimelineCursor st) (scene, image) meta src /\
    metas st' = metas st ++ [meta] /\
    bus st' = bus st ++ [src] /\
    audioTimelineCursor st' =
      audioTimelineCursor st + SceneMeta.duration meta.
Proof.
  unfold loopBody.
  destruct (sceneAudio ctx scene) as [e | [[buffer len] dur]] eqn:E;
    [discriminate |].
  intros [= <-].
  exists (SceneMeta.mk scene image dur len),
         (mkScheduled buffer (audioTimelineCursor st)).
  repeat split; simpl; auto.
Qed.

Lemma resolveLoop_iterations items : forall st st',
  resolveLoop ctx items st = (st', None) ->
  exists ms srcs,
    metas st' = metas st ++ ms /\
    bus st' = bus st ++ srcs /\
    Iterations ctx (audioTimelineCursor st) items ms srcs
               (audioTimelineCursor st').
Proof.
  induction items as [| [scene image] rest IH]; intros st st' Hrun.
  - injection Hrun as <-. exists [], [].
    rewrite !app_nil_r. repeat split. constructor.
  - simpl in Hrun.
    destruct (loopBody ctx st scene image) as [e | st1] eqn:Hbody;
      [discriminate |].
    destruct (loopBody_iteration _ _ _ _ Hbody)
      as (meta & src & Hit & Hm & Hb & Hc).
    destruct (IH _ _ Hrun) as (ms & srcs & Hm' & Hb' & Hits).
    exists (meta :: ms), (src :: srcs).
    rewrite Hm', Hb', Hm, Hb, <- !app_assoc. repeat split.
    econstructor; [exact Hit |].
    rewrite <- Hc. exact Hits.
Qed.


Lemma resolveLoop_failure items : forall st st' e,
  resolveLoop ctx items st = (st', Some e) ->
  e = AudioDecodeError /\
  exists scene buf,
    In scene (map fst items) /\
    Scene.audioArrayBuffer scene = Some buf /\
    decodeAudioData ctx buf = None.
Proof.
  induction items as [| [scene image] rest IH]; intros st st' e Hrun.
  - discriminate.
  - simpl in Hrun.
    destruct (loopBody ctx st scene image) as [e1 | st1] eqn:Hbody.
    + injection Hrun as <- <-.
      unfold loopBody, sceneAudio in Hbody.
      destruct (Scene.audioArrayBuffer scene) as [buf |] eqn:Hbuf;
        [| discriminate].
      destruct (decodeAudioData ctx buf) eqn:Hdec; [discriminate |].
      injection Hbody as <-. split; [reflexivity |].
      exists scene, buf. simpl. auto.
    + destruct (IH _ _ _ Hrun) as (He & s & b & Hin & Hb & Hd).
      split; [exact He |]. exists s, b. simpl. auto.
Qed.

Lemma resolveLoop_decode_failure items : forall st scene buf,
  In scene (map fst items) ->
  Scene.audioArrayBuffer scene = Some buf ->
  decodeAudioData ctx buf = None ->
  exists st', resolveLoop ctx items st = (st', Some AudioDecodeError).
Proof.
  induction items as [| [s image] rest IH]; intros st scene buf Hin Hb Hd.
  - destruct Hin.
  - simpl.
    destruct (loopBody ctx st s image) as [e1 | st1] eqn:Hbody.
    + unfold loopBody, sceneAudio in Hbody.
      destruct (Scene.audioArrayBuffer s) as [b |]; [| discriminate].
      destruct (decodeAudioData ctx b); [discriminate |].
      injection Hbody as <-. eexists. reflexivity.
    + simpl in Hin. destruct Hin as [<- | Hin].
      * unfold loopBody, sceneAudio in Hbody. simpl in Hbody.
        rewrite Hb, Hd in Hbody. discriminate.
      * eapply IH; eauto.
Qed.

(** Facts read off the iterations. *)

Lemma Iterations_lengths c items ms srcs c' :
  Iterations ctx c items ms srcs c' ->
  List.length ms = List.length items /\
  List.length srcs = List.length items.
Proof. induction 1; simpl; intuition congruence. Qed.

Lemma iteration_resolvesTo c item meta src :
  iteration ctx c item meta src -> resolvesTo ctx (fst item) meta.
Proof.
  intros (Haudio & Hscene & _ & _). split; [exact Hscene |].
  unfold sceneAudio in Haudio.
  destruct (Scene.audioArrayBuffer (fst item)) as [buf |].
  - destruct (decodeAudioData ctx buf) as [decoded |]; [| discriminate].
    injection Haudio as _ _ Hd. exists decoded. split; [reflexivity |].
    rewrite <- Hd. unfold baseDuration. apply Qmax3_reorder.
  - injection Haudio as _ _ Hd. rewrite <- Hd. reflexivity.
Qed.

Lemma Iterations_resolvesTo c items ms srcs c' :
  Iterations ctx c items ms srcs c' ->
  Forall2 (resolvesTo ctx) (map fst items) ms.
Proof.
  induction 1; simpl; constructor; eauto using iteration_resolvesTo.
Qed.

Lemma iteration_duration_ge_min c item meta src :
  iteration ctx c item meta src -> DURATION_MIN <= SceneMeta.duration meta.
Proof.
  intros (Haudio & _). unfold sceneAudio in Haudio.
  pose proof (baseDuration_ge_min (fst item)) as Hbase.
  destruct (Scene.audioArrayBuffer (fst item)) as [buf |].
  - destruct (decodeAudioData ctx buf) as [decoded |]; [| discriminate].
    injection Haudio as _ _ Hd. rewrite <- Hd. extrema.
  - injection Haudio as _ _ Hd. rewrite <- Hd. exact Hbase.
Qed.

Lemma Iterations_durations c items ms srcs c' :
  Iterations ctx c items ms srcs c' ->
  Forall (fun meta => DURATION_MIN <= SceneMeta.duration meta) ms.
Proof.
  induction 1; constructor; eauto using iteration_duration_ge_min.
Qed.

Lemma Iterations_when c items ms srcs c' :
  Iterations ctx c items ms srcs c' ->
  map src_when srcs = metaStarts c ms.
Proof.
  induction 1 as [| c item meta src items ms srcs c' Hit _ IH];
    simpl; [reflexivity |].
  destruct Hit as (_ & _ & _ & ->). now rewrite IH.
Qed.

End ResolverLoop.

(** ** Offsets and totals of a list of metas *)

Lemma metaStarts_length ms : forall acc,
  List.length (metaStarts acc ms) = List.length ms.
Proof. induction ms; intros; simpl; auto. Qed.

Lemma metaStarts_shift ms : forall c c' d,
  c' == c + d ->
  Forall2 (fun a b => a == b + d) (metaStarts c' ms) (metaStarts c ms).
Proof.
  induction ms as [| meta rest IH]; intros c c' d Hc; simpl; constructor.
  - lra.
  - apply IH. lra.
Qed.

Lemma metaStarts_succ ms : forall acc i meta s,
  nth_error ms i = Some meta ->
  nth_error (metaStarts acc ms) i = Some s ->
  (S i < List.length ms)%nat ->
  nth_error (metaStarts acc ms) (S i) = Some (s + SceneMeta.duration meta).
Proof.
  induction ms as [| m rest IH]; intros acc i meta s Hm Hs Hlt.
  - destruct i; discriminate.
  - destruct i as [| i].
    + simpl in Hm, Hs. injection Hm as ->. injection Hs as ->.
      destruct rest; simpl in *; [lia | reflexivity].
    + simpl in Hm, Hs, Hlt. change (nth_error (metaStarts acc (m :: rest)) (S (S i)))
        with (nth_error (metaStarts (acc + SceneMeta.duration m) rest) (S i)).
      apply IH; auto. lia.
Qed.

Lemma fold_durations ms : forall acc,
  fold_left (fun a meta => a + SceneMeta.duration meta) ms acc
    == acc + sumDurations ms.
Proof.
  induction ms as [| meta rest IH]; intros acc; simpl.
  - lra.
  - rewrite IH. lra.
Qed.

Lemma total_is_sum ms : totalTimelineDuration ms == sumDurations ms.
Proof. unfold totalTimelineDuration. rewrite fold_durations. lra. Qed.

Lemma sumDurations_nonneg ms :
  Forall (fun meta => 0 <= SceneMeta.duration meta) ms ->
  0 <= sumDurations ms.
Proof.
  induction 1 as [| meta rest Hd _ IH]; simpl; lra.
Qed.

Lemma sumDurations_ge_count ms :
  Forall (fun meta => DURATION_MIN <= SceneMeta.duration meta) ms ->
  inject_Z (Z.of_nat (List.length ms)) * DURATION_MIN <= sumDurations ms.
Proof.
  unfold DURATION_MIN.
  induction 1 as [| meta rest Hd _ IH].
  - vm_compute. discriminate.
  - cbn [List.length sumDurations fold_right].
    rewrite Nat2Z.inj_succ, <- Z.add_1_r, inject_Z_plus.
    change (inject_Z 1) with 1. fold (sumDurations rest). lra.
Qed.

Lemma ge_min_nonneg ms :
  Forall (fun meta => DURATION_MIN <= SceneMeta.duration meta) ms ->
  Forall (fun meta => 0 <= SceneMeta.duration meta) ms.
Proof.
  apply Forall_impl. unfold DURATION_MIN. intros; lra.
Qed.

(** The last meta ends where the timeline ends. *)
Lemma last_offset ms : forall acc,
  ms <> [] ->
  exists lm s,
    lastMeta ms = Some lm /\
    nth_error (metaStarts acc ms) (List.length ms - 1) = Some s /\
    acc + sumDurations ms == s + SceneMeta.duration lm.
Proof.
  unfold lastMeta.
  induction ms as [| meta rest IH]; intros acc Hne; [congruence |].
  destruct rest as [| m2 rest].
  - exists meta, acc. simpl. repeat split. lra.
  - destruct (IH (acc + SceneMeta.duration meta)) as (lm & s & Hl & Hs & Heq);
      [discriminate |].
    exists lm, s.
    replace (List.length (meta :: m2 :: rest) - 1)%nat
      with (S (List.length (m2 :: rest) - 1)) by (simpl; lia).
    cbn [nth_error metaStarts]. cbn [metaStarts] in Hs.
    repeat split; [exact Hl | exact Hs |].
    cbn [sumDurations fold_right] in *. lra.
Qed.

(** Offsets grow along the list when no duration is negative. *)
Lemma metaStarts_ge ms : forall acc j s,
  Forall (fun meta => 0 <= SceneMeta.duration meta) ms ->
  nth_error (metaStarts acc ms) j = Some s ->
  acc <= s.
Proof.
  induction ms as [| meta rest IH]; intros acc j s Hpos Hs.
  - destruct j; discriminate.
  - inversion Hpos as [| ? ? Hd Hrest]; subst.
    destruct j as [| j]; simpl in Hs.
    + injection Hs as <-. lra.
    + specialize (IH _ _ _ Hrest Hs). lra.
Qed.

Lemma metaStarts_monotone ms : forall acc i j m s s',
  Forall (fun meta => 0 <= SceneMeta.duration meta) ms ->
  (i < j)%nat ->
  nth_error ms i = Some m ->
  nth_error (metaStarts acc ms) i = Some s ->
  nth_error (metaStarts acc ms) j = Some s' ->
  s + SceneMeta.duration m <= s'.
Proof.
  induction ms as [| meta rest IH]; intros acc i j m s s' Hpos Hlt Hm Hs Hs'.
  - destruct i; discriminate.
  - inversion Hpos as [| ? ? Hd Hrest]; subst.
    destruct j as [| j]; [lia |].
    destruct i as [| i].
    + simpl in Hm, Hs. injection Hm as ->. injection Hs as ->.
      simpl in Hs'. eapply metaStarts_ge; eauto.
    + simpl in Hm, Hs, Hs'.
      apply (IH (acc + SceneMeta.duration meta) i j m s s'); auto. lia.
Qed.

(** ** The scan of [renderFrame] *)

Lemma scan_some ms : forall elapsed acc i0 i meta start,
  scan elapsed acc i0 ms = Some (i, meta, start) ->
  exists k,
    i = (i0 + k)%nat /\
    nth_error ms k = Some meta /\
    nth_error (metaStarts acc ms) k = Some start /\
    start <= elapsed /\ elapsed < start + SceneMeta.duration meta.
Proof.
  induction ms as [| m rest IH]; intros elapsed acc i0 i meta start Hscan;
    [discriminate |].
  simpl in Hscan.
  destruct (Qle_bool acc elapsed
            && Qltb elapsed (acc + SceneMeta.duration m)) eqn:Hin.
  - injection Hscan as <- <- <-.
    apply andb_true_iff in Hin. destruct Hin as [Hlo Hhi].
    apply Qle_bool_iff in Hlo. apply Qltb_lt in Hhi.
    exists 0%nat. rewrite Nat.add_0_r. simpl. auto.
  - destruct (IH _ _ _ _ _ _ Hscan) as (k & -> & Hm & Hs & Hlo & Hhi).
    exists (S k). simpl. repeat split; auto; lia.
Qed.

Lemma scan_hit ms : forall elapsed acc i0,
  acc <= elapsed -> elapsed < acc + sumDurations ms ->
  exists hit, scan elapsed acc i0 ms = Some hit.
Proof.
  induction ms as [| m rest IH]; intros elapsed acc i0 Hlo Hhi; simpl in *.
  - lra.
  - destruct (Qle_bool acc elapsed
              && Qltb elapsed (acc + SceneMeta.duration m)) eqn:Hin.
    + eexists. reflexivity.
    + apply IH.
      * apply andb_false_iff in Hin. destruct Hin as [Hin | Hin].
        -- apply Qle_bool_gt in Hin. lra.
        -- apply Qltb_ge in Hin. exact Hin.
      * fold (sumDurations rest) in Hhi. lra.
Qed.

Lemma scan_none_before ms : forall elapsed acc i0,
  Forall (fun meta => 0 <= SceneMeta.duration meta) ms ->
  elapsed < acc ->
  scan elapsed acc i0 ms = None.
Proof.
  induction ms as [| m rest IH]; intros elapsed acc i0 Hpos Hlt; simpl;
    [reflexivity |].
  inversion Hpos as [| ? ? Hd Hrest]; subst.
  replace (Qle_bool acc elapsed) with false
    by (symmetry; apply Qle_bool_gt; exact Hlt).
  simpl. apply IH; [exact Hrest | lra].
Qed.

Lemma scan_none_after ms : forall elapsed acc i0,
  Forall (fun meta => 0 <= SceneMeta.duration meta) ms ->
  acc + sumDurations ms <= elapsed ->
  scan elapsed acc i0 ms = None.
Proof.
  induction ms as [| m rest IH]; intros elapsed acc i0 Hpos Hge; simpl;
    [reflexivity |].
  inversion Hpos as [| ? ? Hd Hrest]; subst.
  simpl in Hge. fold (sumDurations rest) in Hge.
  pose proof (sumDurations_nonneg rest Hrest) as Hsum.
  replace (Qltb elapsed (acc + SceneMeta.duration m)) with false
    by (symmetry; apply Qltb_ge; lra).
  rewrite andb_false_r. apply IH; [exact Hrest | lra].
Qed.

(** At most one segment holds a given instant. *)
Lemma interval_unique ms i j mi mj si sj elapsed :
  Forall (fun meta => 0 <= SceneMeta.duration meta) ms ->
  nth_error ms i = Some mi ->
  nth_error ms j = Some mj ->
  nth_error (startOffsets ms) i = Some si ->
  nth_error (startOffsets ms) j = Some sj ->
  si <= elapsed < si + SceneMeta.duration mi ->
  sj <= elapsed < sj + SceneMeta.duration mj ->
  i = j.
Proof.
  intros Hpos Hmi Hmj Hsi Hsj [Hi1 Hi2] [Hj1 Hj2].
  destruct (Nat.lt_trichotomy i j) as [Hlt | [Heq | Hgt]]; [| exact Heq |].
  - pose proof (metaStarts_monotone _ _ _ _ _ _ _ Hpos Hlt Hmi Hsi Hsj). lra.
  - pose proof (metaStarts_monotone _ _ _ _ _ _ _ Hpos Hgt Hmj Hsj Hsi). lra.
Qed.

Section Selection.

Variable ms : list SceneMeta.t.
Hypothesis ms_nonempty : ms <> [].
Hypothesis ms_durations :
  Forall (fun meta => DURATION_MIN <= SceneMeta.duration meta) ms.

Let total := totalTimelineDuration ms.

Lemma select_inside elapsed :
  0 <= elapsed < total ->
  exists sel,
    selectSegment ms total elapsed = Some sel /\
    nth_error ms (currentIndex sel) = Some (currentMeta sel) /\
    nth_error (startOffsets ms) (currentIndex sel)
      = Some (currentStart sel) /\
    currentStart sel <= elapsed
      < currentStart sel + SceneMeta.duration (currentMeta sel) /\
    sceneElapsed sel == elapsed - currentStart sel.
Proof.
  intros [Hlo Hhi]. unfold selectSegment.
  destruct (last_offset ms 0 ms_nonempty) as (lm & s & Hlast & _ & _).
  rewrite Hlast.
  destruct (scan_hit ms elapsed 0 0%nat) as [[[i meta] start] Hscan].
  - exact Hlo.
  - unfold total in Hhi. rewrite total_is_sum in Hhi. lra.
  - rewrite Hscan.
    destruct (scan_some _ _ _ _ _ _ _ Hscan) as (k & -> & Hm & Hs & H1 & H2).
    eexists. split; [reflexivity |]. simpl.
    repeat split; auto. extrema.
Qed.

Lemma select_past_end elapsed :
  total <= elapsed ->
  exists sel lm,
    selectSegment ms total elapsed = Some sel /\
    lastMeta ms = Some lm /\
    currentIndex sel = (List.length ms - 1)%nat /\
    currentMeta sel = lm /\
    sceneElapsed sel == SceneMeta.duration lm.
Proof.
  intros Hge. unfold selectSegment.
  destruct (last_offset ms 0 ms_nonempty) as (lm & s & Hlast & _ & _).
  rewrite Hlast.
  rewrite scan_none_after.
  - eexists. exists lm. split; [reflexivity |]. simpl.
    repeat split. extrema.
  - apply ge_min_nonneg, ms_durations.
  - unfold total in Hge. rewrite total_is_sum in Hge. lra.
Qed.

Lemma select_before_start elapsed :
  elapsed < 0 ->
  scan elapsed 0 0%nat ms = None /\
  exists sel lm,
    selectSegment ms total elapsed = Some sel /\
    lastMeta ms = Some lm /\
    currentIndex sel = (List.length ms - 1)%nat /\
    currentMeta sel = lm /\
    sceneElapsed sel == 0.
Proof.
  intros Hneg.
  assert (Hnone : scan elapsed 0 0%nat ms = None)
    by (apply scan_none_before; [apply ge_min_nonneg, ms_durations | lra]).
  split; [exact Hnone |]. unfold selectSegment.
  destruct (last_offset ms 0 ms_nonempty) as (lm & s & Hlast & Hs & Hend).
  rewrite Hlast, Hnone.
  eexists. exists lm. split; [reflexivity |]. simpl.
  repeat split.
  pose proof (metaStarts_ge _ _ _ _ (ge_min_nonneg _ ms_durations) Hs) as H0.
  assert (Hlm : DURATION_MIN <= SceneMeta.duration lm).
  { unfold lastMeta in Hlast. apply nth_error_In in Hlast.
    rewrite Forall_forall in ms_durations. auto. }
  unfold total, DURATION_MIN in *.
  pose proof (total_is_sum ms) as Ht.
  extrema.
Qed.

End Selection.

(** ** The resolver of a render pass *)

Lemma loadImages_length load ready : forall images,
  loadImages load ready = Some images ->
  List.length images = List.length ready.
Proof.
  induction ready as [| scene rest IH]; intros images Hload; simpl in Hload.
  - injection Hload as <-. reflexivity.
  - destruct (Scene.imageDataUrl scene) as [src |]; [| discriminate].
    destruct (load src); [| discriminate].
    destruct (loadImages load rest) as [imgs |]; [| discriminate].
    injection Hload as <-. simpl. f_equal. auto.
Qed.

Lemma map_fst_combine {A B} (xs : list A) : forall ys : list B,
  List.length ys = List.length xs -> map fst (combine xs ys) = xs.
Proof.
  induction xs as [| x xs IH]; intros [| y ys] Hlen; simpl in *;
    try discriminate; auto.
  f_equal. apply IH. lia.
Qed.

Lemma resolve_iterations ctx load ready images st :
  loadImages load ready = Some images ->
  resolve ctx ready images = (st, None) ->
  Iterations ctx (currentTime ctx + LEAD_IN) (combine ready images)
             (metas st) (bus st) (audioTimelineCursor st) /\
  map fst (combine ready images) = ready.
Proof.
  intros Hload Hres. unfold resolve in Hres.
  destruct (resolveLoop_iterations _ _ _ _ Hres) as (ms & srcs & Hm & Hb & Hits).
  simpl in Hm, Hb, Hits. rewrite Hm, Hb. split; [exact Hits |].
  apply map_fst_combine. eapply loadImages_length; eauto.
Qed.

Lemma resolve_metas ctx load ready images st :
  loadImages load ready = Some images ->
  resolve ctx ready images = (st, None) ->
  List.length (metas st) = List.length ready /\
  Forall (fun meta => DURATION_MIN <= SceneMeta.duration meta) (metas st).
Proof.
  intros Hload Hres.
  destruct (resolve_iterations _ _ _ _ _ Hload Hres) as [Hits Hfst].
  split.
  - destruct (Iterations_lengths _ _ _ _ _ _ Hits) as [-> _].
    rewrite <- Hfst at 2. now rewrite length_map.
  - eapply Iterations_durations; eauto.
Qed.


(** C1. For every scene of the image-filtered list the resolved duration is
    [max(requested, MIN_DURATION)] when the scene has no audio buffer, and
    [max(requested, audioDuration, MIN_DURATION)] when it has one,
    [audioDuration] being the duration of the buffer as decoded in the pass. *)
Theorem effective_duration_resolved ctx load scenes images st :
  loadImages load (scenesReady scenes) = Some images ->
  resolve ctx (scenesReady scenes) images = (st, None) ->
  Forall2 (resolvesTo ctx) (scenesReady scenes) (metas st).
Proof.
  intros Hload Hres.
  destruct (resolve_iterations _ _ _ _ _ Hload Hres) as [Hits Hfst].
  rewrite <- Hfst. eapply Iterations_resolvesTo; eauto.
Qed.

Lemma effective_duration_resolved_sample :
  Forall2 (resolvesTo sampleCtx) (scenesReady sampleScenes)
          (metas sampleState).
Proof.
  exact (effective_duration_resolved sampleCtx sampleLoad sampleScenes
           sampleImages sampleState eq_refl eq_refl).
Defined.

(** When the duration stored with a scene at upload agrees with the
    duration of its buffer as the pass decodes it, the resolved duration is
    the largest of the requested, the stored and the minimum duration. *)
Lemma resolvesTo_stored ctx scene meta buf decoded stored :
  resolvesTo ctx scene meta ->
  Scene.audioArrayBuffer scene = Some buf ->
  decodeAudioData ctx buf = Some decoded ->
  Scene.audioDuration scene = Some stored ->
  stored == ab_duration decoded ->
  SceneMeta.duration meta
    == Qmax (Qmax (Scene.duration scene) stored) DURATION_MIN.
Proof.
  intros [_ Hres] Hbuf Hdec _ Heq. rewrite Hbuf in Hres.
  destruct Hres as (d & Hd & Hdur). rewrite Hdec in Hd. injection Hd as <-.
  rewrite Hdur. unfold DURATION_MIN. extrema.
Qed.

(** The scenario of the written design: durations 5 and 6, offsets 0 and 5,
    total 11. *)
Example sample_timeline :
  Forall2 Qeq (map SceneMeta.duration (metas sampleState)) [5; 6] /\
  Forall2 Qeq (startOffsets (metas sampleState)) [0; 5] /\
  totalTimelineDuration (metas sampleState) == 11.
Proof.
  repeat split; vm_compute; repeat constructor.
Qed.

(** ** Contiguous offsets *)

Lemma audioless_minimum_durations ctx c items ms srcs c' :
  Iterations ctx c items ms srcs c' ->
  Forall (fun scene => Scene.audioArrayBuffer scene = None /\
                       Scene.duration scene <= DURATION_MIN)
         (map fst items) ->
  sumDurations ms == inject_Z (Z.of_nat (List.length ms)) * DURATION_MIN.
Proof.
  unfold DURATION_MIN.
  induction 1 as [| c item meta src items ms srcs c' Hit _ IH]; intros Hall.
  - vm_compute. reflexivity.
  - inversion Hall as [| ? ? [Hnone Hmin] Hrest]; subst.
    specialize (IH Hrest).
    destruct Hit as (Haudio & _). unfold sceneAudio in Haudio.
    rewrite Hnone in Haudio. injection Haudio as _ _ Hd.
    cbn [List.length sumDurations fold_right].
    rewrite Nat2Z.inj_succ, <- Z.add_1_r, inject_Z_plus.
    change (inject_Z 1) with 1. fold (sumDurations ms).
    rewrite <- Hd. unfold baseDuration, DURATION_MIN in *. extrema.
Qed.

(** Scanning at the very start of a segment selects that segment. *)
Lemma scan_at_start ms : forall acc i0 i meta s,
  Forall (fun meta => DURATION_MIN <= SceneMeta.duration meta) ms ->
  nth_error ms i = Some meta ->
  nth_error (metaStarts acc ms) i = Some s ->
  scan s acc i0 ms = Some ((i0 + i)%nat, meta, s).
Proof.
  induction ms as [| m rest IH]; intros acc i0 i meta s Hmin Hm Hs.
  - destruct i; discriminate.
  - inversion Hmin as [| ? ? Hd Hrest]; subst. unfold DURATION_MIN in Hd.
    destruct i as [| i]; simpl in Hm, Hs; cbn [scan].
    + injection Hm as <-. injection Hs as <-.
      replace (Qle_bool acc acc) with true
        by (symmetry; apply Qle_bool_iff; lra).
      replace (Qltb acc (acc + SceneMeta.duration m)) with true
        by (symmetry; apply Qltb_lt; lra).
      simpl. now rewrite Nat.add_0_r.
    + pose proof (metaStarts_ge rest _ _ _ (ge_min_nonneg _ Hrest) Hs) as Hge.
      replace (Qltb s (acc + SceneMeta.duration m)) with false
        by (symmetry; apply Qltb_ge; exact Hge).
      rewrite andb_false_r.
      rewrite (IH _ (S i0) i meta s Hrest Hm Hs). do 3 f_equal. lia.
Qed.

(** The sources are started along the cursor: the first at the value the
    cursor is given, each next one a duration later. *)
Lemma Iterations_cursor ctx c items ms srcs c' :
  Iterations ctx c items ms srcs c' ->
  (forall first, nth_error srcs 0 = Some first -> src_when first = c) /\
  (forall i meta si sj,
      nth_error ms i = Some meta ->
      nth_error srcs i = Some si ->
      nth_error srcs (S i) = Some sj ->
      src_when sj = src_when si + SceneMeta.duration meta).
Proof.
  intros Hits. pose proof (Iterations_when _ _ _ _ _ _ Hits) as Hwhen.
  split.
  - intros first Hfirst.
    destruct srcs as [| s0 srcs]; [discriminate |]. injection Hfirst as ->.
    destruct ms as [| m ms]; [discriminate |]. simpl in Hwhen. congruence.
  - intros i meta si sj Hm Hi Hj.
    assert (Hsi : nth_error (metaStarts c ms) i = Some (src_when si))
      by (rewrite <- Hwhen, nth_error_map, Hi; reflexivity).
    assert (Hsj : nth_error (metaStarts c ms) (S i) = Some (src_when sj))
      by (rewrite <- Hwhen, nth_error_map, Hj; reflexivity).
    assert (Hlt : (S i < List.length ms)%nat).
    { rewrite <- (metaStarts_length ms c). apply nth_error_Some. congruence. }
    rewrite (metaStarts_succ _ _ _ _ _ Hm Hsi Hlt) in Hsj. congruence.
Qed.

(** The total of the pass is the left fold the scan runs through: the
    start of the last segment plus its duration. *)
Lemma total_ends_last_segment ms : forall acc,
  ms <> [] ->
  exists lm s,
    lastMeta ms = Some lm /\
    nth_error (metaStarts acc ms) (List.length ms - 1) = Some s /\
    fold_left (fun a meta => a + SceneMeta.duration meta) ms acc
      = s + SceneMeta.duration lm.
Proof.
  unfold lastMeta.
  induction ms as [| meta rest IH]; intros acc Hne; [congruence |].
  destruct rest as [| m2 rest].
  - exists meta, acc. simpl. repeat split.
  - destruct (IH (acc + SceneMeta.duration meta)) as (lm & s & Hl & Hs & Heq);
      [discriminate |].
    exists lm, s.
    replace (List.length (meta :: m2 :: rest) - 1)%nat
      with (S (List.length (m2 :: rest) - 1)) by (simpl; lia).
    cbn [nth_error metaStarts]. cbn [metaStarts] in Hs.
    repeat split; [exact Hl | exact Hs |].
    cbn [fold_left] in *. exact Heq.
Qed.

Lemma total_adds_in_order ms : forall acc,
  fold_left (fun a meta => a + SceneMeta.duration meta) ms acc
  = fold_left Qplus (map SceneMeta.duration ms) acc.
Proof.
  induction ms as [| meta rest IH]; intros acc; simpl; [reflexivity |].
  apply IH.
Qed.

(** C2. In a pass resolved from a non-empty filtered list every scene has
    its meta and its source, and the segments are contiguous on both clocks
    of the code.  The start offset of a segment is the [metaStart] the scan
    of the render loop returns when it is asked for that instant: the first
    is 0 and each next one is the previous one plus the previous effective
    duration.  The audio cursor makes the same steps: each source starts one
    effective duration after the one before.  The total is the effective
    durations added up in order from 0, which is the end of the last
    segment, and N audioless scenes at the minimum duration give N times the
    minimum. *)
Theorem offsets_contiguous ctx load scenes images st :
  scenesReady scenes <> [] ->
  loadImages load (scenesReady scenes) = Some images ->
  resolve ctx (scenesReady scenes) images = (st, None) ->
  List.length (metas st) = List.length (scenesReady scenes) /\
  List.length (bus st) = List.length (scenesReady scenes) /\
  List.length (startOffsets (metas st)) = List.length (scenesReady scenes) /\
  (forall i meta s,
      nth_error (metas st) i = Some meta ->
      nth_error (startOffsets (metas st)) i = Some s ->
      scan s 0 0%nat (metas st) = Some (i, meta, s)) /\
  nth_error (startOffsets (metas st)) 0 = Some 0 /\
  (forall i meta s,
      nth_error (metas st) i = Some meta ->
      nth_error (startOffsets (metas st)) i = Some s ->
      (S i < List.length (metas st))%nat ->
      nth_error (startOffsets (metas st)) (S i)
        = Some (s + SceneMeta.duration meta)) /\
  (forall first,
      nth_error (bus st) 0 = Some first ->
      src_when first = currentTime ctx + LEAD_IN) /\
  (forall i meta si sj,
      nth_error (metas st) i = Some meta ->
      nth_error (bus st) i = Some si ->
      nth_error (bus st) (S i) = Some sj ->
      src_when sj = src_when si + SceneMeta.duration meta) /\
  totalTimelineDuration (metas st)
    = fold_left Qplus (map SceneMeta.duration (metas st)) 0 /\
  (exists lm s,
      lastMeta (metas st) = Some lm /\
      nth_error (startOffsets (metas st)) (List.length (metas st) - 1)
        = Some s /\
      totalTimelineDuration (metas st) = s + SceneMeta.duration lm) /\
  (Forall (fun scene => Scene.audioArrayBuffer scene = None /\
                        Scene.duration scene <= DURATION_MIN)
          (scenesReady scenes) ->
   totalTimelineDuration (metas st)
     == inject_Z (Z.of_nat (List.length (scenesReady scenes)))
        * DURATION_MIN).
Proof.
  intros Hne Hload Hres.
  destruct (resolve_iterations _ _ _ _ _ Hload Hres) as [Hits Hfst].
  destruct (resolve_metas _ _ _ _ _ Hload Hres) as [Hlen Hmin].
  destruct (Iterations_lengths _ _ _ _ _ _ Hits) as [Hmetas Hbus].
  destruct (Iterations_cursor _ _ _ _ _ _ Hits) as [Hfirst Hnext].
  assert (Hms : metas st <> []).
  { intros Heq. rewrite Heq in Hlen. destruct (scenesReady scenes);
      [congruence | discriminate]. }
  split; [exact Hlen |].
  split; [rewrite Hbus, <- Hmetas; exact Hlen |].
  unfold startOffsets.
  split; [rewrite metaStarts_length; exact Hlen |].
  split; [intros i meta s Hm Hs;
          exact (scan_at_start _ _ 0%nat _ _ _ Hmin Hm Hs) |].
  split; [destruct (metas st); [congruence | reflexivity] |].
  split; [intros i meta s; apply metaStarts_succ |].
  split; [exact Hfirst |]. split; [exact Hnext |].
  split; [apply total_adds_in_order |]. split.
  - destruct (total_ends_last_segment (metas st) 0 Hms)
      as (lm & s & Hl & Hs & Hend).
    exists lm, s. repeat split; auto.
  - intros Hall. rewrite total_is_sum, <- Hlen.
    eapply audioless_minimum_durations; eauto. now rewrite Hfst.
Qed.

Lemma offsets_contiguous_sample :
  List.length (bus sampleState) = 2%nat /\
  option_map (fun hit => (fst (fst hit), snd hit))
             (scan 5 0 0%nat (metas sampleState)) = Some (1%nat, 5) /\
  option_map src_when (nth_error (bus sampleState) 1)
    = Some (currentTime sampleCtx + LEAD_IN + 5).
Proof.
  destruct (offsets_contiguous sampleCtx sampleLoad sampleScenes sampleImages
              sampleState ltac:(discriminate) eq_refl eq_refl)
    as (_ & Hbus & _ & _ & _ & _ & _ & Hnext & _).
  split; [exact Hbus |]. split.
  - reflexivity.
  - destruct (nth_error (bus sampleState) 1) as [sj |] eqn:Hj;
      [| discriminate].
    simpl. f_equal. exact (Hnext 0%nat _ _ sj eq_refl eq_refl Hj).
Defined.

(** ** Audio start times *)

Lemma Forall2_nth_error {A B} (R : A -> B -> Prop) xs ys :
  Forall2 R xs ys ->
  forall i x y, nth_error xs i = Some x -> nth_error ys i = Some y -> R x y.
Proof.
  induction 1 as [| x0 y0 xs ys Hr _ IH]; intros [| i] x y Hx Hy;
    simpl in *; try discriminate.
  - injection Hx as <-. injection Hy as <-. exact Hr.
  - eauto.
Qed.

Lemma Forall2_map_l {A B C} (f : A -> B) (R : B -> C -> Prop) xs ys :
  Forall2 R (map f xs) ys -> Forall2 (fun x y => R (f x) y) xs ys.
Proof.
  revert ys. induction xs as [| x xs IH]; intros ys H; simpl in H;
    inversion H; subst; constructor; auto.
Qed.

Lemma Iterations_plays ctx c items ms srcs c' :
  Iterations ctx c items ms srcs c' ->
  Forall2 (plays ctx) (map fst items) srcs.
Proof.
  induction 1 as [| c item meta src items ms srcs c' Hit _ IH]; simpl;
    constructor; [| exact IH].
  destruct Hit as (Haudio & _). unfold plays, sceneAudio in *.
  destruct (Scene.audioArrayBuffer (fst item)) as [buf |].
  - destruct (decodeAudioData ctx buf); [| discriminate].
    now injection Haudio as <- _ _.
  - now injection Haudio as <- _ _.
Qed.

(** Read in exact arithmetic, the cursor of source [i] is the clock at
    priming plus the start offset plus the lead-in.  The doubles of the page
    round each step of the cursor, so this equation is the model's and not
    the code's; see [start_times_drift_from_offsets]. *)
Lemma audio_start_times_exact ctx load scenes images st :
  loadImages load (scenesReady scenes) = Some images ->
  resolve ctx (scenesReady scenes) images = (st, None) ->
  Forall2 (fun src offset =>
             src_when src == currentTime ctx + offset + LEAD_IN)
          (bus st) (startOffsets (metas st)).
Proof.
  intros Hload Hres.
  destruct (resolve_iterations _ _ _ _ _ Hload Hres) as [Hits Hfst].
  apply Forall2_map_l with (f := src_when)
    (R := fun w offset => w == currentTime ctx + offset + LEAD_IN).
  rewrite (Iterations_when _ _ _ _ _ _ Hits). unfold startOffsets.
  eapply Forall2_impl;
    [| apply metaStarts_shift with (d := currentTime ctx + LEAD_IN); lra].
  simpl. intros a b Hab. lra.
Qed.

(** C7, contradicted in the numbers of the page: three segments of 5 s,
    6 s and 1 s primed when the audio clock reads 512/48000 s are started at
    0.4106666666666667, 5.410666666666667 and 11.410666666666668; the second
    and third start times differ by 6.000000000000001 while their start
    offsets, 5 and 11, differ by 6. *)
Lemma start_times_drift_from_offsets :
  Double.sourceStarts Double.clockAtPriming Double.segments
    = Double.startsOfSegments /\
  Double.gaps (Double.sourceStarts Double.clockAtPriming Double.segments)
    = Double.gapsOfStarts /\
  Double.gaps (Double.metaStarts PrimFloat.zero Double.segments)
    = Double.gapsOfOffsets /\
  PrimFloat.ltb (nth 1 Double.gapsOfOffsets PrimFloat.zero)
                (nth 1 Double.gapsOfStarts PrimFloat.zero) = true.
Proof. repeat split; vm_compute; reflexivity. Qed.

Lemma Iterations_starts_grow ctx c items ms srcs c' :
  Iterations ctx c items ms srcs c' ->
  Forall (fun src => c <= src_when src) srcs.
Proof.
  induction 1 as [| c item meta src items ms srcs c' Hit _ IH];
    constructor.
  - destruct Hit as (_ & _ & _ & ->). lra.
  - pose proof (iteration_duration_ge_min _ _ _ _ _ Hit) as Hmin.
    unfold DURATION_MIN in Hmin.
    eapply Forall_impl; [| exact IH]. simpl. intros s Hs. lra.
Qed.

(** C7, amended.  Scene by scene, in order, the scheduler starts one
    source per ready scene, playing the scene's decoded buffer or its silent
    one, at the audio cursor: the cursor begins at the clock's reading at
    priming plus the lead-in of 0.4 s, the same for all segments, and
    advances by the effective duration of each segment, so every source
    starts one effective duration after the one before it and none before
    the lead-in has passed. *)
Theorem audio_start_times ctx load scenes images st :
  loadImages load (scenesReady scenes) = Some images ->
  resolve ctx (scenesReady scenes) images = (st, None) ->
  LEAD_IN == 4 # 10 /\
  List.length (bus st) = List.length (scenesReady scenes) /\
  Forall2 (plays ctx) (scenesReady scenes) (bus st) /\
  (forall first,
      nth_error (bus st) 0 = Some first ->
      src_when first = currentTime ctx + LEAD_IN) /\
  (forall i meta si sj,
      nth_error (metas st) i = Some meta ->
      nth_error (bus st) i = Some si ->
      nth_error (bus st) (S i) = Some sj ->
      src_when sj = src_when si + SceneMeta.duration meta /\
      src_when si < src_when sj) /\
  Forall (fun src => currentTime ctx + LEAD_IN <= src_when src) (bus st).
Proof.
  intros Hload Hres.
  destruct (resolve_iterations _ _ _ _ _ Hload Hres) as [Hits Hfst].
  destruct (resolve_metas _ _ _ _ _ Hload Hres) as [Hlen Hmin].
  destruct (Iterations_lengths _ _ _ _ _ _ Hits) as [Hmetas Hbus].
  destruct (Iterations_cursor _ _ _ _ _ _ Hits) as [Hfirst Hnext].
  split; [reflexivity |].
  split; [rewrite Hbus, <- Hmetas; exact Hlen |].
  split; [rewrite <- Hfst; eapply Iterations_plays; eauto |].
  split; [exact Hfirst |]. split.
  - intros i meta si sj Hm Hi Hj.
    pose proof (Hnext _ _ _ _ Hm Hi Hj) as Hstep.
    split; [exact Hstep |]. rewrite Hstep.
    apply nth_error_In in Hm. rewrite Forall_forall in Hmin.
    specialize (Hmin _ Hm). unfold DURATION_MIN in Hmin. lra.
  - eapply Iterations_starts_grow; eauto.
Qed.

Lemma audio_start_times_sample :
  List.length (bus sampleState) = 2%nat /\
  option_map src_when (nth_error (bus sampleState) 0)
    = Some (currentTime sampleCtx + LEAD_IN) /\
  option_map src_when (nth_error (bus sampleState) 1)
    = Some (currentTime sampleCtx + LEAD_IN + 5).
Proof.
  destruct (audio_start_times sampleCtx sampleLoad sampleScenes sampleImages
              sampleState eq_refl eq_refl)
    as (_ & Hbus & _ & Hfirst & Hnext & _).
  split; [exact Hbus |]. split.
  - destruct (nth_error (bus sampleState) 0) as [s0 |] eqn:H0;
      [| discriminate].
    simpl. f_equal. exact (Hfirst s0 eq_refl).
  - destruct (nth_error (bus sampleState) 1) as [sj |] eqn:Hj;
      [| discriminate].
    simpl. f_equal. exact (proj1 (Hnext 0%nat _ _ sj eq_refl eq_refl Hj)).
Defined.

(** ** Silent buffers *)

Lemma Iterations_nth ctx c items ms srcs c' :
  Iterations ctx c items ms srcs c' ->
  forall i item,
    nth_error items i = Some item ->
    exists meta src cursor,
      nth_error ms i = Some meta /\
      nth_error srcs i = Some src /\
      iteration ctx cursor item meta src.
Proof.
  induction 1 as [| c item0 meta src items ms srcs c' Hit _ IH];
    intros [| i] item Hi; simpl in Hi; try discriminate.
  - injection Hi as <-. exists meta, src, c. simpl. auto.
  - destruct (IH _ _ Hi) as (m & s & cur & Hm & Hs & Hiter).
    exists m, s, cur. simpl. auto.
Qed.

(** A buffer of [floor(d * rate)] frames at [rate] lasts [d] seconds up to
    one sample period, and exactly [d] when [d * rate] is whole. *)
Lemma silence_seconds (d rate : Q) :
  1 <= d -> 1 <= rate ->
  d - 1 / rate < inject_Z (Z.max 1 (Qfloor (d * rate))) / rate <= d /\
  (inject_Z (Qfloor (d * rate)) == d * rate ->
   inject_Z (Z.max 1 (Qfloor (d * rate))) / rate == d).
Proof.
  intros Hd Hr.
  assert (Hx : 1 <= d * rate) by nra.
  assert (Hfl : (1 <= Qfloor (d * rate))%Z).
  { change 1%Z with (Qfloor 1). apply Qfloor_resp_le. exact Hx. }
  rewrite Z.max_r by exact Hfl.
  pose proof (Qfloor_le (d * rate)) as Hlo.
  pose proof (Qlt_floor (d * rate)) as Hhi.
  rewrite inject_Z_plus in Hhi. change (inject_Z 1) with 1 in Hhi.
  assert (Hpos : 0 < rate) by lra.
  assert (Hne : ~ rate == 0) by lra.
  set (n := inject_Z (Qfloor (d * rate))) in *.
  assert (Hdiv : n / rate * rate == n) by (field; exact Hne).
  assert (Hone : 1 / rate * rate == 1) by (field; exact Hne).
  repeat split.
  - nra.
  - nra.
  - intros Hwhole. nra.
Qed.

(** A duration in half seconds holds a whole number of frames at an even
    sample rate. *)
Lemma half_steps_whole (d rate : Q) (k r : Z) :
  d == inject_Z k / 2 ->
  rate == inject_Z (2 * r) ->
  inject_Z (Qfloor (d * rate)) == d * rate.
Proof.
  intros Hd Hrate.
  assert (Hwhole : d * rate == inject_Z (k * r)).
  { rewrite Hd, Hrate, !inject_Z_mult. change (inject_Z 2) with 2. field. }
  rewrite (Qfloor_comp _ _ Hwhole), Qfloor_Z. symmetry. exact Hwhole.
Qed.

(** C8, contradicted at a sample rate that the duration does not divide
    into whole frames: with the slider of the initial scene at 1.5 s, an
    image uploaded and the audio at 11025 Hz, the silent buffer has 16537
    frames and lasts less than the scene's effective duration. *)
Lemma silence_shorter_at_11025 :
  Reachable (decodeAudioData slowCtx) slowScenes /\
  List.length (scenesReady slowScenes) = 1%nat /\
  snd (resolve slowCtx (scenesReady slowScenes) [mkImage 640 480]) = None /\
  Forall2 Qeq (map SceneMeta.duration (metas slowState)) [3 # 2] /\
  map (fun src => ab_length (src_buffer src)) (bus slowState)
    = [16537%Z] /\
  Forall (fun src => ab_duration (src_buffer src) < 3 # 2) (bus slowState) /\
  ~ Forall2 (fun src meta =>
               ab_duration (src_buffer src) == SceneMeta.duration meta)
            (bus slowState) (metas slowState).
Proof.
  split.
  { unfold slowScenes.
    eapply Reachable_step; [| apply StepImage].
    eapply Reachable_step; [apply Reachable_initial |].
    apply StepDuration. split; discriminate. }
  split; [reflexivity |].
  split; [reflexivity |]. split; [repeat constructor |].
  split; [reflexivity |]. split; [repeat constructor |].
  intros H. inversion H as [| ? ? ? ? Heq _]; subst.
  vm_compute in Heq. discriminate.
Qed.

(** C8, amended.  Every scene of the render list gets a source on the bus
    that plays its decoded clip or its silent buffer, so every resolved
    segment carries a playable buffer; a scene without an audio buffer gets
    a silent buffer, synthesized for it and put on the bus: one channel, the
    sample rate of the output context, and as many frames as the effective
    duration holds whole ones, [max(1, floor(duration * sampleRate))].  On a
    rate of at least 1 the buffer lasts less than one sample period short of
    the effective duration, and exactly the effective duration when that is
    a whole number of frames, as it is for a duration in half seconds at an
    even sample rate; the meta records the effective duration as its audio
    length. *)
Theorem silence_for_audioless ctx load scenes images st :
  loadImages load (scenesReady scenes) = Some images ->
  resolve ctx (scenesReady scenes) images = (st, None) ->
  List.length (metas st) = List.length (scenesReady scenes) /\
  List.length (bus st) = List.length (scenesReady scenes) /\
  Forall2 (plays ctx) (scenesReady scenes) (bus st) /\
  forall i scene,
    nth_error (scenesReady scenes) i = Some scene ->
    Scene.audioArrayBuffer scene = None ->
    exists meta src,
      nth_error (metas st) i = Some meta /\
      nth_error (bus st) i = Some src /\
      SceneMeta.scene meta = scene /\
      numberOfChannels (src_buffer src) = 1%Z /\
      ab_sampleRate (src_buffer src) = sampleRate ctx /\
      ab_length (src_buffer src)
        = Z.max 1 (Qfloor (SceneMeta.duration meta * sampleRate ctx)) /\
      SceneMeta.audioLength meta = SceneMeta.duration meta /\
      (1 <= sampleRate ctx ->
       SceneMeta.duration meta - 1 / sampleRate ctx
         < ab_duration (src_buffer src) <= SceneMeta.duration meta) /\
      (1 <= sampleRate ctx ->
       inject_Z (Qfloor (SceneMeta.duration meta * sampleRate ctx))
         == SceneMeta.duration meta * sampleRate ctx ->
       ab_duration (src_buffer src) == SceneMeta.duration meta) /\
      (forall k r : Z,
          1 <= sampleRate ctx ->
          SceneMeta.duration meta == inject_Z k / 2 ->
          sampleRate ctx == inject_Z (2 * r) ->
          ab_duration (src_buffer src) == SceneMeta.duration meta).
Proof.
  intros Hload Hres.
  destruct (resolve_iterations _ _ _ _ _ Hload Hres) as [Hits Hfst].
  destruct (resolve_metas _ _ _ _ _ Hload Hres) as [Hlen _].
  split; [exact Hlen |]. split; [| split].
  - destruct (Iterations_lengths _ _ _ _ _ _ Hits) as [Hm Hb].
    rewrite Hb, <- Hm. exact Hlen.
  - rewrite <- Hfst. eapply Iterations_plays; eauto.
  - intros i scene Hi Hnone.
    rewrite <- Hfst in Hi. rewrite nth_error_map in Hi.
    destruct (nth_error (combine (scenesReady scenes) images) i)
      as [item |] eqn:Hitem; [| discriminate].
    injection Hi as Hscene.
    destruct (Iterations_nth _ _ _ _ _ _ Hits _ _ Hitem)
      as (meta & src & cur & Hm & Hs & Hiter).
    exists meta, src.
    pose proof (iteration_duration_ge_min _ _ _ _ _ Hiter) as Hmin.
    destruct Hiter as (Haudio & Hsc & _ & _).
    rewrite Hscene in Haudio, Hsc. unfold sceneAudio in Haudio.
    rewrite Hnone in Haudio. injection Haudio as Hbuf Hlen' Hdur.
    rewrite <- Hbuf. unfold ab_duration, silenceFrames. simpl.
    rewrite <- Hlen', <- Hdur in *.
    repeat split; auto.
    + apply silence_seconds; [exact Hmin | assumption].
    + apply silence_seconds; [exact Hmin | assumption].
    + intros Hr Hwhole. apply silence_seconds; auto.
    + intros k r Hr Hhalf Heven. apply silence_seconds; auto.
      eapply half_steps_whole; eauto.
Qed.

Lemma silence_for_audioless_sample :
  List.length (bus sampleState) = 2%nat /\
  exists meta src,
    nth_error (metas sampleState) 0 = Some meta /\
    nth_error (bus sampleState) 0 = Some src /\
    src_buffer src = mkAudioBuffer 1 240000 48000.
Proof.
  destruct (silence_for_audioless sampleCtx sampleLoad sampleScenes
              sampleImages sampleState eq_refl eq_refl)
    as (_ & Hbus & _ & Hsilent).
  split; [exact Hbus |].
  destruct (Hsilent 0%nat sceneA eq_refl eq_refl)
    as (meta & src & Hm & Hs & _ & Hch & Hrate & Hlen & _).
  exists meta, src. split; [exact Hm |]. split; [exact Hs |].
  destruct (src_buffer src) as [ch len rate]. simpl in *.
  rewrite Hch, Hrate, Hlen.
  injection Hm as <-. reflexivity.
Defined.

(** The silent buffer of the first sample scene: mono, 48 kHz, 240000
    frames, that is five seconds. *)
Example sample_silence :
  option_map src_buffer (nth_error (bus sampleState) 0)
    = Some (mkAudioBuffer 1 240000 48000).
Proof. reflexivity. Qed.

(** ** Segment selection *)

Lemma resolve_nonempty ctx load ready images st :
  ready <> [] ->
  loadImages load ready = Some images ->
  resolve ctx ready images = (st, None) ->
  metas st <> [].
Proof.
  intros Hne Hload Hres Heq.
  destruct (resolve_metas _ _ _ _ _ Hload Hres) as [Hlen _].
  rewrite Heq in Hlen. destruct ready; [congruence | discriminate].
Qed.

(** C3, contradicted in the numbers of the page for the local elapsed time
    past the end: with clips of 2.2 s and 1.8 s the total is 4 s, and a
    frame stamped exactly 4 s after the start matches no interval, selects
    the last segment with [currentStart = 4 - 1.8] and gets the local
    elapsed time 1.7999999999999998, short of the segment's 1.8 s. *)
Lemma past_end_local_elapsed_short :
  Double.totalTimelineDuration Double.clips = Double.atTheEnd /\
  Double.scan Double.atTheEnd PrimFloat.zero 0%nat Double.clips = None /\
  option_map (fun hit => (fst (fst hit), snd hit))
    (Double.selectSegment Double.clips
       (Double.totalTimelineDuration Double.clips) Double.atTheEnd)
    = Some (1%nat, Double.shortOfLastClip) /\
  PrimFloat.ltb Double.shortOfLastClip Double.lastClip = true.
Proof. repeat split; vm_compute; reflexivity. Qed.

(** At or past the total the scan matches nothing and the defaults of
    [renderFrame] stand. *)
Lemma select_past_end_defaults ms elapsed :
  ms <> [] ->
  Forall (fun meta => DURATION_MIN <= SceneMeta.duration meta) ms ->
  totalTimelineDuration ms <= elapsed ->
  scan elapsed 0 0%nat ms = None /\
  exists lm,
    lastMeta ms = Some lm /\
    selectSegment ms (totalTimelineDuration ms) elapsed
      = Some (mkSelection
                (List.length ms - 1) lm
                (totalTimelineDuration ms - SceneMeta.duration lm)
                (Qmin (SceneMeta.duration lm)
                      (Qmax 0 (elapsed - (totalTimelineDuration ms
                                          - SceneMeta.duration lm))))).
Proof.
  intros Hne Hmin Hge.
  assert (Hnone : scan elapsed 0 0%nat ms = None).
  { apply scan_none_after; [apply ge_min_nonneg, Hmin |].
    rewrite total_is_sum in Hge. lra. }
  split; [exact Hnone |].
  destruct (last_offset ms 0 Hne) as (lm & s & Hlast & _ & _).
  exists lm. split; [exact Hlast |].
  unfold selectSegment. rewrite Hlast, Hnone. reflexivity.
Qed.

(** C3, amended.  On a resolved segment list, an elapsed time in [0, total)
    makes the scan select one segment, the only one whose half-open interval
    [startOffset, startOffset + duration) holds it, with the local elapsed
    time measured from that segment's start.  An elapsed time at or past the
    total matches no interval: the last segment is selected with
    [currentStart = total - duration], and the local elapsed time is
    [min(duration, max(0, elapsed - currentStart))], which lies between 0
    and the segment's duration and is the full duration whenever
    [elapsed - currentStart] reaches it; the closing frame of that tick is
    painted at exactly the full duration, and no further frame is
    requested. *)
Theorem segment_selection ctx load scenes images st elapsed :
  scenesReady scenes <> [] ->
  loadImages load (scenesReady scenes) = Some images ->
  resolve ctx (scenesReady scenes) images = (st, None) ->
  (0 <= elapsed < totalTimelineDuration (metas st) ->
   exists sel,
     selectSegment (metas st) (totalTimelineDuration (metas st)) elapsed
       = Some sel /\
     nth_error (metas st) (currentIndex sel) = Some (currentMeta sel) /\
     nth_error (startOffsets (metas st)) (currentIndex sel)
       = Some (currentStart sel) /\
     currentStart sel <= elapsed
       < currentStart sel + SceneMeta.duration (currentMeta sel) /\
     sceneElapsed sel == elapsed - currentStart sel /\
     (forall j meta start,
         nth_error (metas st) j = Some meta ->
         nth_error (startOffsets (metas st)) j = Some start ->
         start <= elapsed < start + SceneMeta.duration meta ->
         j = currentIndex sel)) /\
  (totalTimelineDuration (metas st) <= elapsed ->
   scan elapsed 0 0%nat (metas st) = None /\
   exists sel lm,
     selectSegment (metas st) (totalTimelineDuration (metas st)) elapsed
       = Some sel /\
     lastMeta (metas st) = Some lm /\
     currentIndex sel = (List.length (metas st) - 1)%nat /\
     currentMeta sel = lm /\
     currentStart sel
       = totalTimelineDuration (metas st) - SceneMeta.duration lm /\
     sceneElapsed sel
       = Qmin (SceneMeta.duration lm) (Qmax 0 (elapsed - currentStart sel)) /\
     0 <= sceneElapsed sel <= SceneMeta.duration lm /\
     (SceneMeta.duration lm <= elapsed - currentStart sel ->
      sceneElapsed sel == SceneMeta.duration lm) /\
     forall start timestamp,
       (timestamp - start) / 1000 = elapsed ->
       renderFrame (metas st) (totalTimelineDuration (metas st))
                   start timestamp
       = Some ([mkDraw (currentIndex sel) lm (sceneElapsed sel)
                       (SceneMeta.duration lm);
                mkDraw (List.length (metas st) - 1) lm
                       (SceneMeta.duration lm) (SceneMeta.duration lm)],
               false)).
Proof.
  intros Hne Hload Hres.
  pose proof (resolve_nonempty _ _ _ _ _ Hne Hload Hres) as Hms.
  destruct (resolve_metas _ _ _ _ _ Hload Hres) as [_ Hmin].
  split.
  - intros Hin.
    destruct (select_inside _ Hms _ Hin)
      as (sel & Hsel & Hm & Hs & Hint & Hlocal).
    exists sel. repeat split; try tauto.
    intros j meta start Hj Hsj Hjint.
    eapply interval_unique with (ms := metas st); eauto.
    apply ge_min_nonneg, Hmin.
  - intros Hge.
    destruct (select_past_end_defaults _ _ Hms Hmin Hge)
      as (Hnone & lm & Hlast & Hsel).
    split; [exact Hnone |].
    eexists. exists lm. split; [exact Hsel |]. simpl.
    assert (Hlm : DURATION_MIN <= SceneMeta.duration lm).
    { unfold lastMeta in Hlast. apply nth_error_In in Hlast.
      rewrite Forall_forall in Hmin. auto. }
    unfold DURATION_MIN in Hlm.
    split; [exact Hlast |]. split; [reflexivity |].
    split; [reflexivity |]. split; [reflexivity |].
    split; [reflexivity |]. split; [split; extrema |].
    split; [intros Hreach; extrema |].
    intros start timestamp <-.
    unfold renderFrame. rewrite Hsel, Hlast. simpl.
    replace (Qltb ((timestamp - start) / 1000)
                  (totalTimelineDuration (metas st)))
      with false by (symmetry; apply Qltb_ge; exact Hge).
    reflexivity.
Qed.

Lemma segment_selection_sample :
  (exists sel,
     selectSegment (metas sampleState)
                   (totalTimelineDuration (metas sampleState)) (11 # 2)
       = Some sel /\
     currentIndex sel = 1%nat /\
     sceneElapsed sel == 1 # 2) /\
  scan ((12000 - 1000) / 1000) 0 0%nat (metas sampleState) = None /\
  option_map (fun frames => (map draw_index (fst frames), snd frames))
    (renderFrame (metas sampleState)
                 (totalTimelineDuration (metas sampleState)) 1000 12000)
    = Some ([1; 1]%nat, false).
Proof.
  split.
  - destruct (proj1 (segment_selection sampleCtx sampleLoad sampleScenes
                       sampleImages sampleState (11 # 2)
                       ltac:(discriminate) eq_refl eq_refl))
      as (sel & Hsel & _).
    + split; [discriminate | reflexivity].
    + exists sel. split; [exact Hsel |].
      injection Hsel as <-. split; reflexivity.
  - destruct (proj2 (segment_selection sampleCtx sampleLoad sampleScenes
                       sampleImages sampleState ((12000 - 1000) / 1000)
                       ltac:(discriminate) eq_refl eq_refl))
      as (Hnone & sel & lm & Hsel & _ & _ & _ & _ & _ & _ & _ & Hframe).
    + discriminate.
    + split; [exact Hnone |].
      rewrite (Hframe 1000 12000 eq_refl).
      injection Hsel as <-. reflexivity.
Defined.

(** The instants of the sample timeline: 0 and 4.9 s fall in the first
    segment, 5 s and 10.9 s in the second, 11 s and later in the second at
    its full six seconds. *)
Example sample_selection :
  option_map currentIndex
    (selectSegment (metas sampleState) 11 0) = Some 0%nat /\
  option_map currentIndex
    (selectSegment (metas sampleState) 11 (49 # 10)) = Some 0%nat /\
  option_map currentIndex
    (selectSegment (metas sampleState) 11 5) = Some 1%nat /\
  option_map currentIndex
    (selectSegment (metas sampleState) 11 (109 # 10)) = Some 1%nat /\
  option_map currentIndex
    (selectSegment (metas sampleState) 11 11) = Some 1%nat /\
  option_map (fun sel => Qeq_bool (sceneElapsed sel) 6)
    (selectSegment (metas sampleState) 11 (25 # 2)) = Some true.
Proof. repeat split. Qed.

(** ** Frames stamped before the start instant *)

Lemma elapsed_negative (timestamp start : Q) :
  timestamp < start -> (timestamp - start) / 1000 < 0.
Proof.
  intros Hlt. unfold Qdiv. change (/ 1000) with (1 # 1000). lra.
Qed.

(** C10. A frame callback whose timestamp lies before the recorded start
    instant has a negative elapsed time: the scan matches no interval, the
    defaults stay, and the frame painted is the last segment's at local
    elapsed time 0 (not the first segment's, when there are several); the
    loop asks for the next frame. *)
Theorem negative_elapsed_paints_last ctx load scenes images st
    start timestamp :
  scenesReady scenes <> [] ->
  loadImages load (scenesReady scenes) = Some images ->
  resolve ctx (scenesReady scenes) images = (st, None) ->
  timestamp < start ->
  scan ((timestamp - start) / 1000) 0 0%nat (metas st) = None /\
  exists lm frame,
    lastMeta (metas st) = Some lm /\
    renderFrame (metas st) (totalTimelineDuration (metas st)) start timestamp
      = Some ([frame], true) /\
    draw_index frame = (List.length (metas st) - 1)%nat /\
    draw_meta frame = lm /\
    draw_elapsed frame == 0 /\
    ((1 < List.length (metas st))%nat -> draw_index frame <> 0%nat).
Proof.
  intros Hne Hload Hres Hlt.
  pose proof (resolve_nonempty _ _ _ _ _ Hne Hload Hres) as Hms.
  destruct (resolve_metas _ _ _ _ _ Hload Hres) as [_ Hmin].
  pose proof (elapsed_negative _ _ Hlt) as Hneg.
  destruct (select_before_start _ Hms Hmin _ Hneg)
    as (Hnone & sel & lm & Hsel & Hlast & Hidx & Hmeta & Hlocal).
  split; [exact Hnone |].
  unfold renderFrame. rewrite Hsel, Hlast.
  assert (Htot : 0 <= totalTimelineDuration (metas st)).
  { rewrite total_is_sum. apply sumDurations_nonneg, ge_min_nonneg, Hmin. }
  replace (Qltb ((timestamp - start) / 1000)
                (totalTimelineDuration (metas st))) with true
    by (symmetry; apply Qltb_lt; lra).
  eexists. eexists. split; [reflexivity |]. split; [reflexivity |].
  simpl. repeat split; auto. lia.
Qed.

Lemma negative_elapsed_paints_last_sample :
  scan ((990 - 1000) / 1000) 0 0%nat (metas sampleState) = None.
Proof.
  exact (proj1 (negative_elapsed_paints_last sampleCtx sampleLoad
                  sampleScenes sampleImages sampleState 1000 990
                  ltac:(discriminate) eq_refl eq_refl eq_refl)).
Defined.

(** A tick at or past the end of the timeline paints the selected frame,
    then the last segment with a full progress bar, and stops the
    recorder. *)
Lemma renderFrame_past_end ms start timestamp :
  ms <> [] ->
  Forall (fun meta => DURATION_MIN <= SceneMeta.duration meta) ms ->
  totalTimelineDuration ms <= (timestamp - start) / 1000 ->
  exists lm first final,
    lastMeta ms = Some lm /\
    renderFrame ms (totalTimelineDuration ms) start timestamp
      = Some ([first; final], false) /\
    draw_meta first = lm /\
    draw_elapsed first == SceneMeta.duration lm /\
    draw_meta final = lm /\
    completion (draw_elapsed final) (draw_total final) == 1.
Proof.
  intros Hne Hmin Hge.
  destruct (select_past_end ms Hne Hmin _ Hge)
    as (sel & lm & Hsel & Hlast & _ & Hmeta & Hlocal).
  unfold renderFrame. rewrite Hsel, Hlast.
  replace (Qltb ((timestamp - start) / 1000) (totalTimelineDuration ms))
    with false by (symmetry; apply Qltb_ge; exact Hge).
  exists lm. eexists. eexists. split; [reflexivity |].
  split; [reflexivity |]. simpl.
  assert (Hlm : DURATION_MIN <= SceneMeta.duration lm).
  { unfold lastMeta in Hlast. apply nth_error_In in Hlast.
    rewrite Forall_forall in Hmin. auto. }
  unfold DURATION_MIN in Hlm.
  repeat split; auto.
  unfold completion.
  replace (Qltb 0 (SceneMeta.duration lm)) with true
    by (symmetry; apply Qltb_lt; lra).
  assert (Hone : SceneMeta.duration lm / SceneMeta.duration lm == 1)
    by (field; lra).
  rewrite Hone. reflexivity.
Qed.

(** The five ticks of the sample host: the early one paints the last
    segment, the next two the first and the second segment, the fourth is
    past the end, paints the closing frames and stops the recorder. *)
Example sample_frames :
  (let '(draws, ending) :=
     renderLoop (metas sampleState) 11 1000 (animationFrames sampleHost) in
   (map draw_index draws, ending))
  = ([1; 0; 1; 1; 1]%nat, RecorderStopped).
Proof. reflexivity. Qed.

(** ** Traces of [generateVideo] *)

Lemma applyEffects_app ui es1 es2 :
  applyEffects ui (es1 ++ es2) = applyEffects (applyEffects ui es1) es2.
Proof. apply fold_left_app. Qed.

Lemma applyEffects_inert {A} (f : A -> Effect) (xs : list A) :
  (forall u x, applyEffect u (f x) = u) ->
  forall ui, applyEffects ui (map f xs) = ui.
Proof.
  intros Hf. induction xs as [| x xs IH]; intros ui; simpl; [reflexivity |].
  rewrite Hf. apply IH.
Qed.

Lemma existsb_map_none {A} (p : Effect -> bool) (f : A -> Effect)
    (xs : list A) :
  (forall x, p (f x) = false) -> existsb p (map f xs) = false.
Proof.
  intros Hf. induction xs as [| x xs IH]; simpl; [reflexivity |].
  now rewrite Hf, IH.
Qed.

(** Normalises a recogniser run over a trace built by appending. *)
Ltac trace_scan :=
  repeat first [ rewrite existsb_app
               | rewrite existsb_map_none by reflexivity
               | progress simpl ].

Lemma applyEffects_cons ui e es :
  applyEffects ui (e :: es) = applyEffects (applyEffect ui e) es.
Proof. reflexivity. Qed.

(** Normalises the page state after a trace built by appending. *)
Ltac trace_state :=
  unfold stateAfter;
  repeat first [ rewrite applyEffects_app
               | rewrite applyEffects_inert by reflexivity
               | rewrite applyEffects_cons
               | progress simpl ].

Lemma scenesReady_none scenes :
  scenes = [] \/ Forall lacksImage scenes -> scenesReady scenes = [].
Proof.
  intros [-> | Hall]; [reflexivity |].
  unfold scenesReady. induction Hall as [| scene rest Hs _ IH]; simpl;
    [reflexivity |].
  unfold lacksImage in Hs. now rewrite Hs.
Qed.

(** ** A stopped session without chunks *)

(** Whenever the recorder of a pass is stopped, the pass ends in the
    success state, its video being the concatenation of the kept chunks. *)
Lemma stopped_pass_succeeds host ui scenes :
  existsb isRecorderStop (trace (generateVideo host ui scenes)) = true ->
  settled (generateVideo host ui scenes) = true /\
  stateAfter host ui scenes
    = mkUi false ToneSuccess msgSuccess
           (Some (new_Blob (recordedChunks (dataEvents host)))).
Proof.
  unfold stateAfter, generateVideo.
  destruct (isGenerating ui) eqn:Hgen; [discriminate |].
  destruct (canvasCurrent host); [| discriminate]. simpl negb. cbv iota.
  destruct (List.length (scenesReady scenes) =? 0)%nat; [discriminate |].
  unfold tryBlock.
  destruct (context2d host); [| discriminate]. simpl negb. cbv iota.
  destruct (loadImages (loadImage host) (scenesReady scenes)) as [images |];
    [| discriminate].
  destruct (resolve (audioCtx host) (scenesReady scenes) images)
    as [st [e |]].
  { simpl. trace_scan. discriminate. }
  destruct (Qle_bool (totalTimelineDuration (metas st)) 0).
  { simpl. trace_scan. discriminate. }
  destruct (isTypeSupported host (chooseMime (isTypeSupported host))).
  2:{ simpl. trace_scan. discriminate. }
  simpl negb. cbv iota.
  destruct (renderLoop (metas st) (totalTimelineDuration (metas st))
              (startInstant host) (animationFrames host)) as [draws ending].
  destruct ending.
  - intros _. split; [reflexivity |].
    cbn [trace]. trace_state.
    destruct (generatedVideoUrl ui); reflexivity.
  - simpl. trace_scan. discriminate.
  - simpl. trace_scan. discriminate.
Qed.

(** The voice recorder of the editor, stopped without a chunk, writes and
    reports nothing. *)
Lemma voiceRecorderStopped_empty decode sceneId ed :
  voiceRecorderStopped decode sceneId [] ed = ed.
Proof. reflexivity. Qed.

(** C4, as the code behaves.  When the capture session of a pass is stopped
    and no chunk was kept, the artifact has size 0, and the pass still ends
    in the success state with that empty artifact as its video: no failure
    is raised for it. *)
Theorem empty_capture_reported_success host ui scenes :
  existsb isRecorderStop (trace (generateVideo host ui scenes)) = true ->
  recordedChunks (dataEvents host) = [] ->
  settled (generateVideo host ui scenes) = true /\
  statusTone (stateAfter host ui scenes) = ToneSuccess /\
  statusMessage (stateAfter host ui scenes) = msgSuccess /\
  exists artifact,
    generatedVideoUrl (stateAfter host ui scenes) = Some artifact /\
    blob_size artifact = 0%nat.
Proof.
  intros Hstop Hnone.
  destruct (stopped_pass_succeeds _ _ _ Hstop) as [Hsettled ->].
  rewrite Hnone. simpl. repeat split; auto.
  exists []. split; reflexivity.
Qed.

Lemma empty_capture_reported_success_sample :
  statusTone (stateAfter silentRecorderHost sampleUi sampleScenes)
    = ToneSuccess /\
  generatedVideoUrl (stateAfter silentRecorderHost sampleUi sampleScenes)
    = Some [].
Proof.
  destruct (empty_capture_reported_success silentRecorderHost sampleUi
              sampleScenes eq_refl eq_refl)
    as (_ & Htone & _ & artifact & Hurl & Hsize).
  split; [exact Htone |].
  rewrite Hurl. destruct artifact; [reflexivity | discriminate].
Defined.

(** The sample pass with its three chunk events: the empty chunk is
    dropped, the other two are concatenated in order. *)
Example sample_artifact :
  stateAfter sampleHost sampleUi sampleScenes
    = mkUi false ToneSuccess msgSuccess
           (Some [Byte.x1a; Byte.x45; Byte.xdf]).
Proof. reflexivity. Qed.

(** ** Audio that does not decode *)

Lemma handleAudioUpload_rejected decode sceneId f ed :
  decode (file_bytes f) = None ->
  handleAudioUpload decode sceneId (Some f) ed
    = mkEditor (ed_scenes ed) ToneError msgAudioUndecodable.
Proof. intros H. unfold handleAudioUpload. now rewrite H. Qed.

(** A list that no edit of the page produces, a scene carrying a clip that
    the decoder rejects: the pass paints no frame, never starts the recorder
    and ends in the error state without a video; with the clip detached the
    same pass succeeds. *)
Example decode_failure_aborts_sample :
  decodeAudioData (audioCtx sampleHost) [] = None /\
  stateAfter sampleHost sampleUi [sceneUndecodable; sceneA]
    = mkUi false ToneError msgFailure None /\
  existsb isDraw
    (trace (generateVideo sampleHost sampleUi [sceneUndecodable; sceneA]))
    = false /\
  existsb isRecorderStart
    (trace (generateVideo sampleHost sampleUi [sceneUndecodable; sceneA]))
    = false /\
  stateAfter sampleHost sampleUi [sceneDetached; sceneA]
    = mkUi false ToneSuccess msgSuccess
           (Some [Byte.x1a; Byte.x45; Byte.xdf]).
Proof. repeat split. Qed.

(** What [generateVideo] does with a scene whose attached buffer its
    decoder rejects: the exception is logged, no frame is painted, the
    recorder is never started, and the page ends in the error state with the
    video it had before.  The editor stores a buffer only once it has
    decoded, so the scene lists of the page never meet the hypotheses. *)
Lemma decode_failure_aborts_render host ui scenes images scene buf
    decode sceneId f ed :
  isGenerating ui = false ->
  canvasCurrent host = true ->
  context2d host = true ->
  loadImages (loadImage host) (scenesReady scenes) = Some images ->
  In scene (scenesReady scenes) ->
  Scene.audioArrayBuffer scene = Some buf ->
  decodeAudioData (audioCtx host) buf = None ->
  decode (file_bytes f) = None ->
  handleAudioUpload decode sceneId (Some f) ed
    = mkEditor (ed_scenes ed) ToneError msgAudioUndecodable /\
  settled (generateVideo host ui scenes) = true /\
  In (ConsoleError AudioDecodeError) (trace (generateVideo host ui scenes)) /\
  existsb isDraw (trace (generateVideo host ui scenes)) = false /\
  existsb isRecorderStart (trace (generateVideo host ui scenes)) = false /\
  stateAfter host ui scenes
    = mkUi false ToneError msgFailure (generatedVideoUrl ui).
Proof.
  intros Hgen Hcanvas Hctx Hload Hin Hbuf Hdec Hfile.
  split; [now apply handleAudioUpload_rejected |].
  assert (Hres : exists st,
             resolve (audioCtx host) (scenesReady scenes) images
               = (st, Some AudioDecodeError)).
  { unfold resolve. eapply resolveLoop_decode_failure; eauto.
    rewrite map_fst_combine; [exact Hin |].
    eapply loadImages_length; eauto. }
  destruct Hres as [st Hres].
  unfold stateAfter, generateVideo. rewrite Hgen, Hcanvas. simpl negb.
  cbv iota.
  destruct (scenesReady scenes) as [| s0 rest] eqn:Hready; [destruct Hin |].
  simpl Nat.eqb. cbv iota.
  unfold tryBlock. rewrite Hctx, Hload, Hres. simpl negb. cbv iota beta.
  cbn [trace settled].
  split; [reflexivity |]. split; [| split; [| split]].
  - apply in_or_app. right. apply in_or_app. right. left. reflexivity.
  - trace_scan. reflexivity.
  - trace_scan. reflexivity.
  - trace_state. reflexivity.
Qed.

Lemma decode_failure_aborts_render_sample :
  stateAfter sampleHost sampleUi [sceneA; sceneUndecodable]
    = mkUi false ToneError msgFailure None.
Proof.
  exact (proj2 (proj2 (proj2 (proj2 (proj2
           (decode_failure_aborts_render sampleHost sampleUi
              [sceneA; sceneUndecodable] sampleImages sceneUndecodable []
              sampleDecode EmptyString (mkFile EmptyString []) 
              (mkEditor [] ToneNeutral EmptyString)
              eq_refl eq_refl eq_refl eq_refl
              (or_intror (or_introl eq_refl)) eq_refl eq_refl eq_refl)))))).
Defined.

(** ** The range of the requested duration *)

(** [generateVideo] itself bounds the stored duration from below only: a
    scene that stored 45 seconds, which no edit of the page produces, would
    enter the computation with 45 seconds. *)
Lemma duration_above_max_not_clamped :
  baseDuration sceneLong == 45 /\ ~ baseDuration sceneLong <= DURATION_MAX.
Proof.
  split; [reflexivity |]. vm_compute. intros H. apply H. reflexivity.
Qed.

(** The value that enters the effective-duration computation is
    [max(scene.duration, DURATION_MIN)]: never below the minimum of 1, equal
    to the stored duration above it, hence at most the maximum of 30 exactly
    when the stored duration is. *)
Lemma requested_duration_lower_clamp scene :
  baseDuration scene == Qmax (Scene.duration scene) DURATION_MIN /\
  DURATION_MIN <= baseDuration scene /\
  (DURATION_MIN <= Scene.duration scene ->
   baseDuration scene == Scene.duration scene) /\
  (baseDuration scene <= DURATION_MAX <->
   Scene.duration scene <= DURATION_MAX).
Proof.
  unfold baseDuration, DURATION_MIN, DURATION_MAX.
  split; [reflexivity |]. split; [extrema |]. split; [intros; extrema |].
  split; intros; extrema.
Qed.

Lemma requested_duration_lower_clamp_sample :
  baseDuration sceneA == Scene.duration sceneA.
Proof.
  refine (proj1 (proj2 (proj2 (requested_duration_lower_clamp sceneA))) _).
  discriminate.
Defined.

(** What the editor adds: the slider hands over values of its range, so the
    scenes it writes stay in the range, and those enter the computation
    unchanged. *)
Lemma createScene_withinSlider newId accent :
  withinSlider (createScene newId accent).
Proof. split; discriminate. Qed.

Lemma handleDurationChange_withinSlider sceneId duration prev :
  DURATION_MIN <= duration <= DURATION_MAX ->
  Forall withinSlider prev ->
  Forall withinSlider (handleDurationChange sceneId duration prev).
Proof.
  intros Hd Hall. unfold handleDurationChange. apply Forall_map.
  eapply Forall_impl; [| exact Hall]. intros scene Hs.
  destruct (String.eqb (Scene.id scene) sceneId); [exact Hd | exact Hs].
Qed.

Lemma withinSlider_base scene :
  withinSlider scene ->
  DURATION_MIN <= baseDuration scene <= DURATION_MAX.
Proof.
  unfold withinSlider, baseDuration, DURATION_MIN, DURATION_MAX.
  intros [Hlo Hhi]. split; extrema.
Qed.

(** * Further properties of the page *)

(** ** Scene-list handlers *)

(** Filtering scenes keeps their identifiers distinct. *)
Lemma distinct_ids_filter (keep : Scene.t -> bool) (scenes : list Scene.t) :
  NoDup (map Scene.id scenes) ->
  NoDup (map Scene.id (filter keep scenes)).
Proof.
  intros Hdistinct.
  induction scenes as [| scene rest IH]; [constructor |].
  simpl in *. apply NoDup_cons_iff in Hdistinct.
  destruct Hdistinct as [Hfresh Hrest].
  destruct (keep scene); [| auto].
  simpl. apply NoDup_cons; [| auto].
  intros Hin. apply Hfresh.
  apply in_map_iff in Hin. destruct Hin as (other & Hid & Hother).
  apply filter_In in Hother. apply in_map_iff. exists other. tauto.
Qed.

Lemma removeScene_facts sceneId prev :
  prev <> [] ->
  NoDup (map Scene.id prev) ->
  removeScene sceneId prev <> [] /\
  NoDup (map Scene.id (removeScene sceneId prev)) /\
  (List.length prev - 1 <= List.length (removeScene sceneId prev))%nat /\
  (List.length prev = 1%nat -> removeScene sceneId prev = prev) /\
  (List.length prev <> 1%nat ->
   ~ In sceneId (map Scene.id (removeScene sceneId prev))).
Proof.
  intros Hne Hnd. unfold removeScene.
  destruct (List.length prev =? 1)%nat eqn:Hone.
  - apply Nat.eqb_eq in Hone. repeat split; auto; try lia.
  - apply Nat.eqb_neq in Hone.
    set (keep := fun scene => negb (String.eqb (Scene.id scene) sceneId)).
    assert (Hlen : (List.length prev - 1
                    <= List.length (filter keep prev))%nat).
    { clear Hne Hone. induction prev as [| a l IH]; simpl; [lia |].
      inversion Hnd as [| ? ? Hnotin Hrest]; subst.
      destruct (keep a) eqn:Hk; simpl.
      - specialize (IH Hrest). lia.
      - assert (Hall : filter keep l = l).
        { apply forallb_filter_id. apply forallb_forall. intros x Hx.
          unfold keep in *. apply negb_false_iff, String.eqb_eq in Hk.
          apply negb_true_iff, String.eqb_neq. intros Heq.
          apply Hnotin. rewrite Hk, <- Heq. now apply in_map. }
        rewrite Hall. lia. }
    repeat split.
    + intros Hnil. rewrite Hnil in Hlen. simpl in Hlen.
      destruct prev as [| a [| b l]]; simpl in *; try congruence; lia.
    + now apply distinct_ids_filter.
    + exact Hlen.
    + intros; lia.
    + intros _ Hin. apply in_map_iff in Hin.
      destruct Hin as (x & Hx & Hxin). apply filter_In in Hxin.
      destruct Hxin as [_ Hk]. unfold keep in Hk.
      apply negb_true_iff, String.eqb_neq in Hk. congruence.
Qed.

(** X1. [removeScene] never empties a list of scenes with distinct
    identifiers: a single scene is kept whatever the identifier, and from
    two scenes on exactly the scenes bearing the identifier go, so at most
    one; the identifiers left are distinct and the removed one is not among
    them. *)
Theorem removeScene_keeps_a_scene sceneId prev :
  prev <> [] ->
  NoDup (map Scene.id prev) ->
  removeScene sceneId prev <> [] /\
  NoDup (map Scene.id (removeScene sceneId prev)) /\
  (List.length prev - 1 <= List.length (removeScene sceneId prev))%nat /\
  (List.length prev = 1%nat -> removeScene sceneId prev = prev) /\
  (List.length prev <> 1%nat ->
   ~ In sceneId (map Scene.id (removeScene sceneId prev))).
Proof. apply removeScene_facts. Qed.

Lemma removeScene_keeps_a_scene_sample :
  removeScene (Scene.id sceneA) [sceneA] = [sceneA] /\
  removeScene (Scene.id sceneA) sampleScenes <> [].
Proof.
  split.
  - reflexivity.
  - refine (proj1 (removeScene_keeps_a_scene (Scene.id sceneA) sampleScenes
                     ltac:(discriminate) _)).
    repeat constructor; simpl; intuition discriminate.
Defined.

Lemma findIndex_split p l i :
  findIndex p l = Some i ->
  exists before x after,
    l = before ++ x :: after /\
    List.length before = i /\
    p x = true /\
    forallb (fun y => negb (p y)) before = true.
Proof.
  revert i. induction l as [| a l IH]; intros i Hfind; [discriminate |].
  simpl in Hfind. destruct (p a) eqn:Hp.
  - injection Hfind as <-. exists [], a, l. auto.
  - destruct (findIndex p l) as [j |]; [| discriminate].
    injection Hfind as <-.
    destruct (IH j eq_refl) as (before & x & after & -> & Hlen & Hx & Hall).
    exists (a :: before), x, after. simpl. rewrite Hp, Hall, Hlen. auto.
Qed.

Lemma findIndex_none p l :
  findIndex p l = None <-> forallb (fun y => negb (p y)) l = true.
Proof.
  induction l as [| a l IH]; simpl; [tauto |].
  destruct (p a); simpl.
  - split; discriminate.
  - rewrite <- IH. destruct (findIndex p l); simpl; split; congruence.
Qed.

(** X2. [duplicateScene] puts the clone right behind the first scene that
    bears the identifier: the clone has the new identifier and accent
    colour and the original's dialogue, duration, image and audio; the rest
    of the list keeps its order.  An identifier that no scene bears leaves
    the list as it is. *)
Theorem duplicateScene_inserts_clone newId accent sceneId prev :
  (In sceneId (map Scene.id prev) ->
   exists before original after,
     prev = before ++ original :: after /\
     Scene.id original = sceneId /\
     ~ In sceneId (map Scene.id before) /\
     duplicateScene newId accent sceneId prev
       = before ++ original :: cloneOf newId accent original :: after) /\
  (~ In sceneId (map Scene.id prev) ->
   duplicateScene newId accent sceneId prev = prev).
Proof.
  unfold duplicateScene.
  set (p := fun scene => String.eqb (Scene.id scene) sceneId).
  destruct (findIndex p prev) as [i |] eqn:Hfind.
  - destruct (findIndex_split _ _ _ Hfind)
      as (before & x & after & -> & Hlen & Hx & Hall).
    unfold p in Hx. apply String.eqb_eq in Hx.
    assert (Hnth : nth_error (before ++ x :: after) i = Some x).
    { rewrite nth_error_app2 by lia. rewrite Hlen, Nat.sub_diag.
      reflexivity. }
    rewrite Hnth. split.
    + intros _. exists before, x, after. repeat split; auto.
      * intros Hin. apply in_map_iff in Hin.
        destruct Hin as (y & Hy & Hyin).
        rewrite forallb_forall in Hall. specialize (Hall _ Hyin).
        unfold p in Hall. apply negb_true_iff, String.eqb_neq in Hall.
        congruence.
      * replace (i + 1)%nat with (List.length (before ++ [x]))
          by (rewrite length_app; simpl; lia).
        change (before ++ x :: after) with (before ++ [x] ++ after).
        rewrite app_assoc.
        rewrite firstn_app, firstn_all, Nat.sub_diag.
        rewrite skipn_app, skipn_all, Nat.sub_diag. simpl.
        rewrite app_nil_r, <- app_assoc. reflexivity.
    + intros Hnot. exfalso. apply Hnot. apply in_map_iff.
      exists x. split; auto. apply in_or_app. right. now left.
  - split; [| reflexivity].
    intros Hin. exfalso. apply findIndex_none in Hfind.
    apply in_map_iff in Hin. destruct Hin as (y & Hy & Hyin).
    rewrite forallb_forall in Hfind. specialize (Hfind _ Hyin).
    unfold p in Hfind. apply negb_true_iff, String.eqb_neq in Hfind.
    congruence.
Qed.

Lemma duplicateScene_inserts_clone_sample :
  duplicateScene "z" "hsl(0, 82%, 58%)" (Scene.id sceneNoImage) sampleScenes
    = [sceneA; sceneNoImage;
       cloneOf "z" "hsl(0, 82%, 58%)" sceneNoImage; sceneB].
Proof.
  destruct (proj1 (duplicateScene_inserts_clone "z" "hsl(0, 82%, 58%)"
                     (Scene.id sceneNoImage) sampleScenes))
    as (before & original & after & _ & _ & _ & Hdup).
  - simpl. auto.
  - reflexivity.
Defined.

(** The handlers that rewrite one scene keep every scene's identifier. *)
Lemma map_id_rewrite (f : Scene.t -> Scene.t) (sceneId : string) prev :
  (forall scene, Scene.id (f scene) = Scene.id scene) ->
  map Scene.id
      (map (fun scene =>
              if String.eqb (Scene.id scene) sceneId then f scene else scene)
           prev)
  = map Scene.id prev.
Proof.
  intros Hf. rewrite map_map. apply map_ext. intros scene.
  destruct (String.eqb (Scene.id scene) sceneId); auto.
Qed.

(** X3. Uploading an audio file that decodes and then clearing the audio
    of the same scene leaves the scenes as clearing alone would; when the
    scenes bearing the identifier carried no audio before, the two steps
    give back the list as it was. *)
Theorem clearAudio_undoes_upload decode sceneId f ed :
  decode (file_bytes f) <> None ->
  clearAudio sceneId
    (ed_scenes (handleAudioUpload decode sceneId (Some f) ed))
    = clearAudio sceneId (ed_scenes ed) /\
  (Forall (fun scene => Scene.id scene = sceneId -> audioless scene)
          (ed_scenes ed) ->
   clearAudio sceneId
     (ed_scenes (handleAudioUpload decode sceneId (Some f) ed))
     = ed_scenes ed).
Proof.
  intros Hdec. unfold handleAudioUpload.
  destruct (decode (file_bytes f)) as [decoded |]; [| congruence].
  cbn [ed_scenes].
  assert (Hfirst :
    clearAudio sceneId
      (map (fun scene =>
              if String.eqb (Scene.id scene) sceneId
              then Scene.mk (Scene.id scene) (Scene.dialogue scene)
                     (Scene.duration scene) (Scene.imageDataUrl scene)
                     (Scene.imageName scene) (Some (file_name f))
                     (Some (file_bytes f)) (Some (ab_duration decoded))
                     (Scene.accentColor scene)
              else scene) (ed_scenes ed))
    = clearAudio sceneId (ed_scenes ed)).
  { unfold clearAudio. rewrite map_map. apply map_ext. intros scene.
    destruct (String.eqb (Scene.id scene) sceneId) eqn:Hid; simpl;
      rewrite Hid; reflexivity. }
  split; [exact Hfirst |].
  intros Hall. rewrite Hfirst. unfold clearAudio.
  rewrite <- (map_id (ed_scenes ed)) at 2.
  apply map_ext_in. intros scene Hin.
  destruct (String.eqb (Scene.id scene) sceneId) eqn:Hid; [| reflexivity].
  apply String.eqb_eq in Hid.
  rewrite Forall_forall in Hall. destruct (Hall _ Hin Hid) as (Hn & Hb & Hd).
  destruct scene; simpl in *. subst. reflexivity.
Qed.

Lemma clearAudio_undoes_upload_sample :
  clearAudio (Scene.id sceneA)
    (ed_scenes (handleAudioUpload sampleDecode (Scene.id sceneA)
                  (Some (mkFile "a.ogg" [Byte.x07]))
                  (mkEditor sampleScenes ToneNeutral EmptyString)))
    = sampleScenes.
Proof.
  refine (proj2 (clearAudio_undoes_upload sampleDecode (Scene.id sceneA)
                   (mkFile "a.ogg" [Byte.x07])
                   (mkEditor sampleScenes ToneNeutral EmptyString)
                   ltac:(discriminate)) _).
  repeat constructor; simpl; try discriminate.
Defined.

(** X4. The handlers that edit one scene - dialogue, duration, image,
    audio upload, audio removal - keep the sequence of identifiers, and an
    edit of the dialogue or of the audio keeps the set of renderable scenes'
    identifiers as well. *)
Theorem edits_keep_identifiers sceneId prev :
  (forall value,
      map Scene.id (handleDialogueChange sceneId value prev)
        = map Scene.id prev /\
      map Scene.id (scenesReady (handleDialogueChange sceneId value prev))
        = map Scene.id (scenesReady prev)) /\
  (forall duration,
      map Scene.id (handleDurationChange sceneId duration prev)
        = map Scene.id prev) /\
  (forall reader file,
      map Scene.id (handleImageUpload reader sceneId file prev)
        = map Scene.id prev) /\
  (forall decode file tone message,
      map Scene.id
          (ed_scenes (handleAudioUpload decode sceneId file
                        (mkEditor prev tone message)))
        = map Scene.id prev /\
      map Scene.id
          (scenesReady
             (ed_scenes (handleAudioUpload decode sceneId file
                           (mkEditor prev tone message))))
        = map Scene.id (scenesReady prev)) /\
  map Scene.id (clearAudio sceneId prev) = map Scene.id prev /\
  map Scene.id (scenesReady (clearAudio sceneId prev))
    = map Scene.id (scenesReady prev).
Proof.
  assert (Hready : forall f : Scene.t -> Scene.t,
    (forall scene, Scene.id (f scene) = Scene.id scene) ->
    (forall scene, Scene.imageDataUrl (f scene) = Scene.imageDataUrl scene) ->
    map Scene.id
      (scenesReady
         (map (fun scene =>
                 if String.eqb (Scene.id scene) sceneId
                 then f scene else scene) prev))
    = map Scene.id (scenesReady prev)).
  { intros f Hid Himg. unfold scenesReady.
    induction prev as [| scene rest IH]; simpl; [reflexivity |].
    destruct (String.eqb (Scene.id scene) sceneId); simpl.
    - rewrite Himg.
      destruct (truthy_string (Scene.imageDataUrl scene)); simpl;
        rewrite ?Hid, IH; reflexivity.
    - destruct (truthy_string (Scene.imageDataUrl scene)); simpl;
        rewrite IH; reflexivity. }
  unfold handleDialogueChange, handleDurationChange, handleImageUpload,
    handleAudioUpload, clearAudio.
  split; [intros value; split |].
  - now apply map_id_rewrite.
  - now apply Hready.
  - split; [intros duration; now apply map_id_rewrite |].
    split; [intros reader file |].
    { destruct file as [f |]; [| reflexivity].
      destruct (reader f); [| reflexivity]. now apply map_id_rewrite. }
    split; [intros decode file tone message |].
    { destruct file as [f |]; [| split; reflexivity].
      cbn [ed_scenes].
      destruct (decode (file_bytes f)); [| split; reflexivity].
      cbn [ed_scenes]. split; [now apply map_id_rewrite | now apply Hready]. }
    split; [now apply map_id_rewrite | now apply Hready].
Qed.

(** X5. Once an image whose data URL is not empty has been loaded into a
    scene of the list, that scene is among the renderable ones, in its
    place, with the new image. *)
Theorem image_upload_makes_renderable reader sceneId f dataUrl prev :
  In sceneId (map Scene.id prev) ->
  reader f = Some dataUrl ->
  dataUrl <> EmptyString ->
  exists scene,
    In scene (scenesReady (handleImageUpload reader sceneId (Some f) prev)) /\
    Scene.id scene = sceneId /\
    Scene.imageDataUrl scene = Some dataUrl /\
    Scene.imageName scene = Some (file_name f).
Proof.
  intros Hin Hread Hne. unfold handleImageUpload. rewrite Hread.
  apply in_map_iff in Hin. destruct Hin as (old & Hid & Hold).
  eexists. split.
  - unfold scenesReady. apply filter_In. split.
    + apply in_map_iff. exists old. split; [| exact Hold].
      rewrite Hid, String.eqb_refl. reflexivity.
    + simpl. destruct dataUrl; [congruence | reflexivity].
  - simpl. auto.
Qed.

Lemma image_upload_makes_renderable_sample :
  exists scene,
    In scene
       (scenesReady
          (handleImageUpload sampleReader
             (Scene.id sceneNoImage) (Some (mkFile "c.png" []))
             [sceneNoImage])) /\
    Scene.id scene = Scene.id sceneNoImage.
Proof.
  destruct (image_upload_makes_renderable
              sampleReader
              (Scene.id sceneNoImage) (mkFile "c.png" [])
              "data:image/png;base64,CCCC" [sceneNoImage]
              (or_introl eq_refl) eq_refl ltac:(discriminate))
    as (scene & Hin & Hid & _).
  exists scene. split; [exact Hin | exact Hid].
Defined.

(** ** Selection *)

Lemma existsb_id_In scenes sel :
  existsb (fun scene => String.eqb (Scene.id scene) sel) scenes = true
  <-> In sel (map Scene.id scenes).
Proof.
  rewrite existsb_exists, in_map_iff.
  split; intros (x & H1 & H2).
  - apply String.eqb_eq in H2. eauto.
  - exists x. split; [exact H2 | now apply String.eqb_eq].
Qed.

Lemma find_id_In scenes sel :
  In sel (map Scene.id scenes) ->
  exists scene,
    find (fun scene => String.eqb (Scene.id scene) sel) scenes = Some scene /\
    Scene.id scene = sel.
Proof.
  intros Hin.
  destruct (find (fun scene => String.eqb (Scene.id scene) sel) scenes)
    as [scene |] eqn:Hfind.
  - exists scene. split; [reflexivity |].
    apply find_some in Hfind. now apply String.eqb_eq.
  - exfalso. apply in_map_iff in Hin. destruct Hin as (x & Hx & Hxin).
    pose proof (find_none _ _ Hfind _ Hxin) as Hno. simpl in Hno.
    apply String.eqb_neq in Hno. congruence.
Qed.

(** X6. On a non-empty list whose identifiers are not empty strings the
    selection effect leaves an identifier that a scene of the list bears,
    so a scene is selected; a selection that already names a scene is kept,
    any other falls back to the first scene; running the effect again
    changes nothing. *)
Theorem syncSelection_selects_a_scene scenes selectedSceneId :
  scenes <> [] ->
  Forall (fun scene => Scene.id scene <> EmptyString) scenes ->
  (exists sel scene,
      syncSelection scenes selectedSceneId = Some sel /\
      In sel (map Scene.id scenes) /\
      selectedScene scenes (Some sel) = Some scene /\
      Scene.id scene = sel) /\
  (forall sel,
      selectedSceneId = Some sel -> In sel (map Scene.id scenes) ->
      syncSelection scenes selectedSceneId = Some sel) /\
  ((forall sel, selectedSceneId = Some sel -> ~ In sel (map Scene.id scenes)) ->
   syncSelection scenes selectedSceneId
     = option_map Scene.id (hd_error scenes)) /\
  syncSelection scenes (syncSelection scenes selectedSceneId)
    = syncSelection scenes selectedSceneId.
Proof.
  intros Hne Hids.
  destruct scenes as [| first rest]; [congruence |].
  assert (Hfirst : Scene.id first <> EmptyString)
    by (inversion Hids; assumption).
  assert (Hkeep : forall sel,
            In sel (map Scene.id (first :: rest)) ->
            syncSelection (first :: rest) (Some sel) = Some sel).
  { intros sel Hin. unfold syncSelection.
    assert (Htruthy : truthy_string (Some sel) = true).
    { apply in_map_iff in Hin. destruct Hin as (x & <- & Hx).
      rewrite Forall_forall in Hids. specialize (Hids _ Hx).
      simpl. destruct (Scene.id x); [congruence | reflexivity]. }
    rewrite Htruthy. cbn [negb andb].
    apply existsb_id_In in Hin. rewrite Hin. reflexivity. }
  assert (Hfall : forall sid,
            (forall sel, sid = Some sel ->
                         ~ In sel (map Scene.id (first :: rest))) ->
            syncSelection (first :: rest) sid = Some (Scene.id first)).
  { intros sid Hnot. unfold syncSelection.
    destruct (truthy_string sid) eqn:Htruthy; cbn [negb andb].
    - destruct sid as [sel |]; [| discriminate].
      destruct (existsb (fun scene => String.eqb (Scene.id scene) sel)
                        (first :: rest)) eqn:Hex; [| reflexivity].
      apply existsb_id_In in Hex. exfalso. exact (Hnot sel eq_refl Hex).
    - reflexivity. }
  assert (Hin_dec : forall sel,
            In sel (map Scene.id (first :: rest))
            \/ ~ In sel (map Scene.id (first :: rest))).
  { intros sel. destruct (in_dec string_dec sel (map Scene.id (first :: rest)));
      auto. }
  assert (Hres : exists sel,
            syncSelection (first :: rest) selectedSceneId = Some sel /\
            In sel (map Scene.id (first :: rest))).
  { destruct selectedSceneId as [sel |].
    - destruct (Hin_dec sel) as [Hin | Hnot].
      + exists sel. split; [now apply Hkeep | exact Hin].
      + exists (Scene.id first). split; [| now left].
        apply Hfall. intros s [= <-]. exact Hnot.
    - exists (Scene.id first). split; [| now left].
      apply Hfall. discriminate. }
  destruct Hres as (sel & Hsync & Hin).
  repeat split.
  - destruct (find_id_In _ _ Hin) as (scene & Hfind & Hid).
    exists sel, scene. repeat split; auto.
  - intros s -> Hs. now apply Hkeep.
  - intros Hnot. now apply Hfall.
  - rewrite Hsync. now apply Hkeep.
Qed.

Lemma syncSelection_selects_a_scene_sample :
  syncSelection sampleScenes (syncSelection sampleScenes (Some "gone"%string))
    = syncSelection sampleScenes (Some "gone"%string).
Proof.
  refine (proj2 (proj2 (proj2
            (syncSelection_selects_a_scene sampleScenes (Some "gone"%string)
               ltac:(discriminate) _)))).
  repeat constructor; discriminate.
Defined.

(** ** Durations shown by the editor *)

Lemma fold_left_sumQ {A} (f : A -> Q) (l : list A) : forall acc,
  fold_left (fun a x => a + f x) l acc == acc + sumQ f l.
Proof.
  induction l as [| x l IH]; intros acc; simpl.
  - lra.
  - rewrite IH. lra.
Qed.

Lemma segmentDuration_ge_min scene : DURATION_MIN <= segmentDuration scene.
Proof. unfold segmentDuration, DURATION_MIN. extrema. Qed.

Lemma sumQ_segment_lower scenes :
  inject_Z (Z.of_nat (List.length scenes)) <= sumQ segmentDuration scenes.
Proof.
  induction scenes as [| scene rest IH].
  - vm_compute. discriminate.
  - cbn [List.length sumQ fold_right].
    rewrite Nat2Z.inj_succ, <- Z.add_1_r, inject_Z_plus.
    change (inject_Z 1) with 1. fold (sumQ segmentDuration rest).
    pose proof (segmentDuration_ge_min scene) as H.
    unfold DURATION_MIN in H. lra.
Qed.

(** The term the memo [totalDuration] adds for a scene is the duration of
    the scene's timeline segment. *)
Lemma totalDuration_term scene :
  match Scene.audioDuration scene with
  | Some a =>
      if truthy_number (Some a)
      then Qmax (Qmax (Scene.duration scene) DURATION_MIN) a
      else Qmax (Scene.duration scene) DURATION_MIN
  | None => Qmax (Scene.duration scene) DURATION_MIN
  end == segmentDuration scene.
Proof.
  unfold segmentDuration, truthy_number, DURATION_MIN.
  destruct (Scene.audioDuration scene) as [a |].
  - destruct (Qeq_bool a 0) eqn:Hz; simpl.
    + apply Qeq_bool_eq in Hz. extrema.
    + extrema.
  - extrema.
Qed.

Lemma totalDuration_sumQ scenes :
  totalDuration scenes == sumQ segmentDuration scenes.
Proof.
  assert (Hfold : forall acc,
    fold_left
      (fun sum scene =>
         let base := Qmax (Scene.duration scene) DURATION_MIN in
         match Scene.audioDuration scene with
         | Some a =>
             if truthy_number (Some a) then sum + Qmax base a else sum + base
         | None => sum + base
         end) scenes acc
    == acc + sumQ segmentDuration scenes).
  { induction scenes as [| scene rest IH]; intros acc;
      cbn [fold_left sumQ fold_right].
    - lra.
    - rewrite IH. fold (sumQ segmentDuration rest). cbv zeta.
      pose proof (totalDuration_term scene) as Hterm.
      destruct (Scene.audioDuration scene) as [a |].
      + destruct (truthy_number (Some a)); lra.
      + lra. }
  unfold totalDuration. rewrite Hfold. lra.
Qed.

(** X7. The total the editor prints and the total the timeline bar is
    divided by are the same number, although the first skips a zero audio
    duration and the second reads a missing one as zero; it is the sum of
    the scenes' segment durations and at least one second per scene. *)
Theorem totalDuration_is_segment_sum scenes :
  totalDuration scenes == sumQ segmentDuration scenes /\
  totalDuration scenes
    == fold_left (fun acc scene => acc + segmentDuration scene) scenes 0 /\
  inject_Z (Z.of_nat (List.length scenes)) <= totalDuration scenes.
Proof.
  pose proof (totalDuration_sumQ scenes) as Htotal.
  split; [exact Htotal |]. split.
  - rewrite Htotal, fold_left_sumQ. lra.
  - rewrite Htotal. apply sumQ_segment_lower.
Qed.

Lemma sumQ_scaled {A} (f : A -> Q) (t : Q) (l : list A) :
  sumQ (fun x => f x / t * 100) l == sumQ f l / t * 100.
Proof.
  induction l as [| x l IH]; simpl.
  - unfold Qdiv. lra.
  - fold (sumQ (fun x => f x / t * 100) l). fold (sumQ f l).
    rewrite IH. unfold Qdiv. lra.
Qed.

Lemma sumQ_map {A B} (g : A -> B) (f : B -> Q) (l : list A) :
  sumQ f (map g l) = sumQ (fun x => f (g x)) l.
Proof.
  induction l as [| x l IH]; simpl; [reflexivity |].
  fold (sumQ f (map g l)). now rewrite IH.
Qed.

Lemma sumQ_nonneg {A} (f : A -> Q) (l : list A) :
  (forall y, 0 <= f y) -> 0 <= sumQ f l.
Proof.
  intros Hpos. induction l as [| b l IH]; simpl; [lra |].
  fold (sumQ f l). pose proof (Hpos b). lra.
Qed.

Lemma sumQ_member {A} (f : A -> Q) (l : list A) x :
  (forall y, 0 <= f y) -> In x l -> f x <= sumQ f l.
Proof.
  intros Hpos. induction l as [| a l IH]; intros Hin; [destruct Hin |].
  simpl. fold (sumQ f l).
  pose proof (sumQ_nonneg f l Hpos) as Hsum.
  destruct Hin as [-> | Hin].
  - lra.
  - specialize (IH Hin). pose proof (Hpos a). lra.
Qed.

(** X8. For a non-empty scene list the timeline bar has one segment per
    scene, in order, with the scene's identifier and colour; every width is
    a positive percentage of at most 100, a scene that lasts at least as long
    as another gets a segment at least as wide, and a single scene takes the
    whole bar. *)
Theorem timelineSegments_widths scenes :
  scenes <> [] ->
  map seg_id (timelineSegments scenes) = map Scene.id scenes /\
  map seg_color (timelineSegments scenes) = map Scene.accentColor scenes /\
  Forall (fun seg => 0 < seg_width seg <= 100) (timelineSegments scenes) /\
  (forall i j a b sa sb,
      nth_error scenes i = Some a ->
      nth_error scenes j = Some b ->
      nth_error (timelineSegments scenes) i = Some sa ->
      nth_error (timelineSegments scenes) j = Some sb ->
      segmentDuration a <= segmentDuration b ->
      seg_width sa <= seg_width sb) /\
  (forall only seg,
      scenes = [only] ->
      In seg (timelineSegments scenes) ->
      seg_width seg == 100).
Proof.
  intros Hne. unfold timelineSegments.
  set (total := fold_left (fun acc scene => acc + segmentDuration scene)
                          scenes 0).
  assert (Htotal : total == sumQ segmentDuration scenes).
  { unfold total. rewrite fold_left_sumQ. lra. }
  assert (Hpos : 1 <= total).
  { rewrite Htotal. pose proof (sumQ_segment_lower scenes) as Hlow.
    destruct scenes as [| s rest]; [congruence |].
    cbn [List.length] in Hlow.
    rewrite Nat2Z.inj_succ, <- Z.add_1_r, inject_Z_plus in Hlow.
    change (inject_Z 1) with 1 in Hlow.
    assert (0 <= inject_Z (Z.of_nat (List.length rest))).
    { change 0 with (inject_Z 0). rewrite <- Zle_Qle. lia. }
    lra. }
  assert (Hnz : Qeq_bool total 0 = false).
  { destruct (Qeq_bool total 0) eqn:Hz; [| reflexivity].
    apply Qeq_bool_eq in Hz. lra. }
  rewrite Hnz.
  split; [rewrite map_map; reflexivity |].
  split; [rewrite map_map; reflexivity |].
  split; [| split].
  - apply Forall_forall. intros seg Hin. apply in_map_iff in Hin.
    destruct Hin as (scene & <- & Hscene). cbn [seg_width].
    pose proof (segmentDuration_ge_min scene) as Hmin.
    unfold DURATION_MIN in Hmin.
    assert (Hle : segmentDuration scene <= total).
    { rewrite Htotal. apply sumQ_member; [| exact Hscene].
      intros y. pose proof (segmentDuration_ge_min y) as Hy.
      unfold DURATION_MIN in Hy. lra. }
    assert (Hfrac : 0 < segmentDuration scene / total <= 1).
    { split.
      - apply Qlt_shift_div_l; lra.
      - apply Qle_shift_div_r; lra. }
    lra.
  - intros i j a b sa sb Ha Hb Hsa Hsb Hab.
    rewrite nth_error_map, Ha in Hsa. rewrite nth_error_map, Hb in Hsb.
    injection Hsa as <-. injection Hsb as <-. cbn [seg_width].
    assert (Hinv : 0 < / total) by (apply Qinv_lt_0_compat; lra).
    unfold Qdiv. nra.
  - intros only seg Hone Hin. apply in_map_iff in Hin.
    destruct Hin as (scene & <- & Hscene). cbn [seg_width].
    rewrite Hone in Hscene. destruct Hscene as [<- | []].
    assert (Hsame : total == segmentDuration only).
    { rewrite Htotal, Hone. simpl. lra. }
    rewrite <- Hsame. field. lra.
Qed.

Lemma timelineSegments_widths_sample :
  map seg_id (timelineSegments sampleScenes) = ["a"; "c"; "b"]%string /\
  Forall (fun seg => 0 < seg_width seg <= 100)
         (timelineSegments sampleScenes).
Proof.
  destruct (timelineSegments_widths sampleScenes ltac:(discriminate))
    as (Hids & _ & Hwidths & _).
  split; [exact Hids | exact Hwidths].
Defined.

(** The duration the resolver gives a scene is the duration of its
    timeline segment when the stored audio duration agrees with the
    decoder. *)
Lemma resolvesTo_segmentDuration ctx scene meta :
  storedAudioAgrees ctx scene ->
  resolvesTo ctx scene meta ->
  SceneMeta.duration meta == segmentDuration scene.
Proof.
  unfold storedAudioAgrees, resolvesTo, segmentDuration.
  intros Hagree [_ Hres].
  destruct (Scene.audioArrayBuffer scene) as [buf |];
    destruct (Scene.audioDuration scene) as [stored |]; try tauto.
  - destruct Hagree as (d1 & Hd1 & Hs). destruct Hres as (d2 & Hd2 & Hdur).
    rewrite Hd1 in Hd2. injection Hd2 as <-.
    rewrite Hdur. unfold DURATION_MIN. extrema.
  - rewrite Hres. unfold DURATION_MIN. extrema.
Qed.

Lemma sumQ_filter_le {A} (f : A -> Q) (p : A -> bool) (l : list A) :
  (forall y, 0 <= f y) -> sumQ f (filter p l) <= sumQ f l.
Proof.
  intros Hpos. induction l as [| a l IH]; simpl; [lra |].
  fold (sumQ f l). pose proof (Hpos a).
  destruct (p a); simpl; [fold (sumQ f (filter p l)) |]; lra.
Qed.

(** X9. When the audio durations stored with the scenes agree with the
    decoder of the render pass, the length of the rendered timeline is the
    sum of the segment durations of the scenes that have an image: never
    more than the total the editor shows, and equal to it when every scene
    has an image. *)
Theorem rendered_total_within_shown_total ctx load scenes images st :
  Forall (storedAudioAgrees ctx) scenes ->
  loadImages load (scenesReady scenes) = Some images ->
  resolve ctx (scenesReady scenes) images = (st, None) ->
  totalTimelineDuration (metas st)
    == sumQ segmentDuration (scenesReady scenes) /\
  totalTimelineDuration (metas st) <= totalDuration scenes /\
  (scenesReady scenes = scenes ->
   totalTimelineDuration (metas st) == totalDuration scenes).
Proof.
  intros Hagree Hload Hres.
  destruct (resolve_iterations _ _ _ _ _ Hload Hres) as [Hits Hfst].
  pose proof (Iterations_resolvesTo _ _ _ _ _ _ Hits) as Hall.
  rewrite Hfst in Hall.
  assert (Hready : Forall (storedAudioAgrees ctx) (scenesReady scenes)).
  { apply Forall_forall. intros s Hs. apply filter_In in Hs.
    rewrite Forall_forall in Hagree. apply Hagree. tauto. }
  assert (Hsum : sumDurations (metas st)
                 == sumQ segmentDuration (scenesReady scenes)).
  { clear Hits Hfst Hload Hres.
    induction Hall as [| scene meta ready ms Hone _ IH]; simpl; [lra |].
    inversion Hready as [| ? ? Hs Hrest]; subst.
    fold (sumDurations ms). fold (sumQ segmentDuration ready).
    rewrite (resolvesTo_segmentDuration _ _ _ Hs Hone), (IH Hrest). lra. }
  pose proof (totalDuration_sumQ scenes) as Hui.
  assert (Hfirst : totalTimelineDuration (metas st)
                   == sumQ segmentDuration (scenesReady scenes))
    by (rewrite total_is_sum; exact Hsum).
  split; [exact Hfirst |]. split.
  - rewrite Hfirst, Hui. apply sumQ_filter_le.
    intros y. pose proof (segmentDuration_ge_min y) as Hy.
    unfold DURATION_MIN in Hy. lra.
  - intros Hallready. rewrite Hfirst, Hui, Hallready. lra.
Qed.

Lemma rendered_total_within_shown_total_sample :
  totalTimelineDuration (metas sampleState) <= totalDuration sampleScenes.
Proof.
  refine (proj1 (proj2
            (rendered_total_within_shown_total sampleCtx sampleLoad
               sampleScenes sampleImages sampleState _ eq_refl eq_refl))).
  repeat constructor.
  simpl. eexists. split; reflexivity.
Defined.

(** ** [formatSeconds] *)

Lemma Qfloor_unique (q : Q) (z : Z) :
  inject_Z z <= q -> q < inject_Z (z + 1) -> Qfloor q = z.
Proof.
  intros Hlo Hhi.
  assert (H1 : (z <= Qfloor q)%Z).
  { rewrite <- (Qfloor_Z z). now apply Qfloor_resp_le. }
  assert (H2 : (Qfloor q < z + 1)%Z).
  { rewrite Zlt_Qlt. pose proof (Qfloor_le q). lra. }
  lia.
Qed.

Lemma Qfloor_div60 (q : Q) : Qfloor (q / 60) = (Qfloor q / 60)%Z.
Proof.
  destruct q as [n d]. unfold Qdiv, Qmult, Qinv, Qfloor. simpl.
  rewrite Z.mul_1_r, Pos2Z.inj_mul, Z.div_div by lia. reflexivity.
Qed.

Lemma jsRem_nonneg (seconds : Q) :
  0 <= seconds ->
  Qfloor (jsRem seconds 60) = (Qfloor seconds mod 60)%Z.
Proof.
  intros Hpos. unfold jsRem, Qtrunc.
  assert (Hdiv : 0 <= seconds / 60).
  { apply Qle_shift_div_l; lra. }
  apply Qle_bool_iff in Hdiv. rewrite Hdiv.
  rewrite Qfloor_div60.
  set (m := (Qfloor seconds / 60)%Z).
  apply Qfloor_unique.
  - pose proof (Qfloor_le seconds) as Hfl.
    assert (Hmod : inject_Z (Qfloor seconds mod 60)
                   == inject_Z (Qfloor seconds) - 60 * inject_Z m).
    { rewrite Z.mod_eq by lia. fold m.
      unfold Zminus. rewrite inject_Z_plus, inject_Z_opp, inject_Z_mult.
      change (inject_Z 60) with 60. lra. }
    lra.
  - pose proof (Qlt_floor seconds) as Hfl.
    rewrite inject_Z_plus in Hfl |- *. change (inject_Z 1) with 1 in *.
    assert (Hmod : inject_Z (Qfloor seconds mod 60)
                   == inject_Z (Qfloor seconds) - 60 * inject_Z m).
    { rewrite Z.mod_eq by lia. fold m.
      unfold Zminus. rewrite inject_Z_plus, inject_Z_opp, inject_Z_mult.
      change (inject_Z 60) with 60. lra. }
    lra.
Qed.

Lemma formatSeconds_clock (seconds : Q) :
  0 <= seconds ->
  formatSeconds seconds
    = clock (Qfloor seconds / 60) (Qfloor seconds mod 60).
Proof.
  intros Hpos. unfold formatSeconds, clock.
  now rewrite Qfloor_div60, jsRem_nonneg.
Qed.

(** Every clock text below a hundred minutes, checked one by one. *)
Lemma clock_two_digits :
  forallb
    (fun m =>
       forallb
         (fun s =>
            let text := clock (Z.of_nat m) (Z.of_nat s) in
            Nat.eqb (String.length text) 5
            && match String.get 2 text with
               | Some c => Ascii.eqb c ":"%char
               | None => false
               end
            && match readDecimal (String.substring 0 2 text),
                     readDecimal (String.substring 3 2 text) with
               | Some a, Some b =>
                   Z.eqb a (Z.of_nat m) && Z.eqb b (Z.of_nat s)
               | _, _ => false
               end)
         (seq 0 60))
    (seq 0 100) = true.
Proof. vm_compute. reflexivity. Qed.

(** X10. For a duration from zero up to, but not including, a hundred
    minutes, [formatSeconds] gives five characters, two digits, a colon and
    two digits, which read back as the whole minutes and the remaining whole
    seconds of the duration; the seconds stay below sixty. *)
Theorem formatSeconds_reads_back (seconds : Q) :
  0 <= seconds < 6000 ->
  String.length (formatSeconds seconds) = 5%nat /\
  String.get 2 (formatSeconds seconds) = Some ":"%char /\
  readDecimal (String.substring 0 2 (formatSeconds seconds))
    = Some (Qfloor seconds / 60)%Z /\
  readDecimal (String.substring 3 2 (formatSeconds seconds))
    = Some (Qfloor seconds mod 60)%Z /\
  (0 <= Qfloor seconds mod 60 < 60)%Z /\
  (60 * (Qfloor seconds / 60) + Qfloor seconds mod 60 = Qfloor seconds)%Z.
Proof.
  intros [Hlo Hhi]. rewrite formatSeconds_clock by exact Hlo.
  assert (Hfl : (0 <= Qfloor seconds < 6000)%Z).
  { split.
    - change 0%Z with (Qfloor 0). now apply Qfloor_resp_le.
    - rewrite Zlt_Qlt. pose proof (Qfloor_le seconds).
      change (inject_Z 6000) with 6000. lra. }
  set (w := Qfloor seconds) in *.
  assert (Hm : (0 <= w / 60 < 100)%Z).
  { split; [apply Z.div_pos; lia | apply Z.div_lt_upper_bound; lia]. }
  assert (Hs : (0 <= w mod 60 < 60)%Z) by (apply Z.mod_pos_bound; lia).
  pose proof clock_two_digits as Hall.
  rewrite forallb_forall in Hall.
  specialize (Hall (Z.to_nat (w / 60)) ltac:(apply in_seq; lia)).
  rewrite forallb_forall in Hall.
  specialize (Hall (Z.to_nat (w mod 60)) ltac:(apply in_seq; lia)).
  cbv zeta in Hall. rewrite !Z2Nat.id in Hall by lia.
  apply andb_true_iff in Hall. destruct Hall as [Hall Hread].
  apply andb_true_iff in Hall. destruct Hall as [Hlen Hcolon].
  apply Nat.eqb_eq in Hlen.
  destruct (String.get 2 (clock (w / 60) (w mod 60))) as [c |];
    [| discriminate].
  apply Ascii.eqb_eq in Hcolon. subst c.
  destruct (readDecimal (substring 0 2 (clock (w / 60) (w mod 60))))
    as [a |]; [| discriminate].
  destruct (readDecimal (substring 3 2 (clock (w / 60) (w mod 60))))
    as [b |]; [| discriminate].
  apply andb_true_iff in Hread. destruct Hread as [Ha Hb].
  apply Z.eqb_eq in Ha. apply Z.eqb_eq in Hb. subst a b.
  repeat split; auto; try lia.
  rewrite (Z.div_mod w 60) at 3 by lia. reflexivity.
Qed.

Lemma formatSeconds_reads_back_sample :
  String.length (formatSeconds (251 # 2)) = 5%nat.
Proof.
  refine (proj1 (formatSeconds_reads_back (251 # 2) _)).
  split; [discriminate | reflexivity].
Defined.

(** 125.5 seconds print as two minutes and five seconds. *)
Example formatSeconds_sample :
  formatSeconds (251 # 2) = "02:05"%string /\
  formatSeconds 0 = "00:00"%string /\
  formatSeconds 11 = "00:11"%string.
Proof. repeat split. Qed.

(** ** Wrapping the caption *)

Lemma string_app_assoc (a b c : string) :
  ((a ++ b) ++ c)%string = (a ++ (b ++ c))%string.
Proof. induction a as [| ch a IH]; simpl; [reflexivity | now rewrite IH]. Qed.

Lemma joinWords_cons line rest :
  rest <> [] ->
  joinWords (line :: rest) = (line ++ " " ++ joinWords rest)%string.
Proof. destruct rest; [congruence | reflexivity]. Qed.

Lemma nonEmpty_true s : nonEmpty s = true <-> s <> EmptyString.
Proof. destruct s; simpl; split; congruence. Qed.

Section Wrap.

Variable measure : string -> Q.
Variables x maxWidth lineHeight : Q.

(** From a line in progress that is not empty, the lines flushed and the
    line left spell the line followed by the words still to come. *)
Lemma wrapLoop_words words : forall n line currentY ops final y,
  line <> EmptyString ->
  Forall (fun word => word <> EmptyString) words ->
  wrapLoop measure x maxWidth lineHeight words n line currentY
    = (ops, final, y) ->
  final <> EmptyString /\
  joinWords (textsOf ops ++ [final]) = joinWords (line :: words).
Proof.
  induction words as [| word rest IH];
    intros n line currentY ops final y Hline Hwords Hrun.
  - injection Hrun as <- <- <-. auto.
  - inversion Hwords as [| ? ? Hword Hrest]; subst.
    cbn [wrapLoop] in Hrun.
    apply nonEmpty_true in Hline. rewrite Hline in Hrun.
    apply nonEmpty_true in Hline.
    destruct (Qltb maxWidth (measure (line ++ " " ++ word))
              && (0 <? n)%nat).
    + destruct (wrapLoop measure x maxWidth lineHeight rest (S n) word
                         (currentY + lineHeight))
        as [[ops' final'] y'] eqn:Hrec.
      injection Hrun as <- <- <-.
      destruct (IH _ _ _ _ _ _ Hword Hrest Hrec) as [Hfinal Hjoin].
      split; [exact Hfinal |].
      cbn [textsOf flat_map textOf app]. fold (textsOf ops').
      rewrite joinWords_cons by (destruct (textsOf ops'); discriminate).
      rewrite Hjoin. symmetry. apply joinWords_cons. discriminate.
    + assert (Htest : (line ++ " " ++ word)%string <> EmptyString)
        by (destruct line; [congruence | discriminate]).
      destruct (IH _ _ _ _ _ _ Htest Hrest Hrun) as [Hfinal Hjoin].
      split; [exact Hfinal |]. rewrite Hjoin.
      destruct rest as [| w2 rest]; [reflexivity |].
      rewrite (joinWords_cons line) by discriminate.
      rewrite !(joinWords_cons _ (w2 :: rest)) by discriminate.
      now rewrite string_app_assoc.
Qed.

(** The lines drawn spell the words. *)
Lemma wrapWords_join words y :
  Forall (fun word => word <> EmptyString) words ->
  joinWords (textsOf (wrapWords measure words x y maxWidth lineHeight))
    = joinWords words.
Proof.
  intros Hwords. unfold wrapWords.
  destruct words as [| word rest]; [reflexivity |].
  inversion Hwords as [| ? ? Hword Hrest]; subst.
  cbn [wrapLoop nonEmpty]. rewrite andb_false_r.
  destruct (wrapLoop measure x maxWidth lineHeight rest 1 word y)
    as [[ops final] y'] eqn:Hrun.
  destruct (wrapLoop_words _ _ _ _ _ _ _ Hword Hrest Hrun) as [Hfinal Hjoin].
  apply nonEmpty_true in Hfinal. rewrite Hfinal.
  rewrite <- Hjoin. f_equal. unfold textsOf.
  rewrite !flat_map_app. simpl. reflexivity.
Qed.

(** The ordinates of the loop, one line further. *)
Lemma lineOrdinates_snoc lines : forall currentY,
  exists last,
    lineOrdinates currentY lineHeight (S lines)
    = lineOrdinates currentY lineHeight lines ++ [last].
Proof.
  induction lines as [| lines IH]; intros currentY.
  - exists currentY. reflexivity.
  - destruct (IH (currentY + lineHeight)) as [last Hlast].
    exists last. change (lineOrdinates currentY lineHeight (S (S lines)))
      with (currentY
            :: lineOrdinates (currentY + lineHeight) lineHeight (S lines)).
    rewrite Hlast. reflexivity.
Qed.

Lemma lineOrdinates_next lines : forall currentY k yk yk',
  nth_error (lineOrdinates currentY lineHeight lines) k = Some yk ->
  nth_error (lineOrdinates currentY lineHeight lines) (S k) = Some yk' ->
  yk' = yk + lineHeight.
Proof.
  induction lines as [| lines IH]; intros currentY k yk yk' Hk Hk';
    [destruct k; discriminate |].
  destruct k as [| k].
  - simpl in Hk. injection Hk as <-.
    destruct lines as [| lines]; [discriminate |].
    simpl in Hk'. now injection Hk' as <-.
  - exact (IH _ _ _ _ Hk Hk').
Qed.

(** The lines drawn along the loop: each one is a word or fits and is
    drawn at abscissa [x]; their ordinates, followed by the ordinate of the
    line in progress, are the values of [currentY]. *)
Lemma wrapLoop_layout (allowed : string -> Prop) words :
  forall n line currentY ops final y,
  Forall allowed words ->
  (n = 0%nat /\ line = EmptyString) \/
  ((0 < n)%nat /\ (allowed line \/ measure line <= maxWidth)) ->
  wrapLoop measure x maxWidth lineHeight words n line currentY
    = (ops, final, y) ->
  (final = EmptyString \/ allowed final \/ measure final <= maxWidth) /\
  map ordinateOf ops ++ [Some y]
    = map Some (lineOrdinates currentY lineHeight (S (List.length ops))) /\
  Forall (fun op =>
            exists text yk,
              op = FillText text x yk /\
              (allowed text \/ measure text <= maxWidth)) ops.
Proof.
  induction words as [| word rest IH];
    intros n line currentY ops final y Hwords Hline Hrun.
  - injection Hrun as <- <- <-. split; [tauto |].
    split; [reflexivity | constructor].
  - inversion Hwords as [| ? ? Hword Hrest]; subst.
    cbn [wrapLoop] in Hrun.
    set (testLine := if nonEmpty line then (line ++ " " ++ word)%string
                     else word) in *.
    destruct (Qltb maxWidth (measure testLine)) eqn:Hwide;
      destruct (0 <? n)%nat eqn:Hn; cbn [andb] in Hrun.
    + destruct (wrapLoop measure x maxWidth lineHeight rest (S n) word
                         (currentY + lineHeight))
        as [[ops' final'] y'] eqn:Hrec.
      injection Hrun as <- <- <-.
      destruct (IH (S n) word (currentY + lineHeight) ops' final' y' Hrest)
        as (Hfinal & Hy & Hops); [right; split; [lia | tauto] | exact Hrec |].
      split; [exact Hfinal |]. split.
      * cbn [List.length map ordinateOf app].
        change (lineOrdinates currentY lineHeight
                              (S (S (List.length ops'))))
          with (currentY
                :: lineOrdinates (currentY + lineHeight) lineHeight
                                 (S (List.length ops'))).
        cbn [map]. now rewrite Hy.
      * constructor; [| exact Hops].
        exists line, currentY. split; [reflexivity |].
        apply Nat.ltb_lt in Hn.
        destruct Hline as [[H _] | [_ H]]; [lia | exact H].
    + apply (IH (S n) testLine currentY ops final y Hrest); [| exact Hrun].
      apply Nat.ltb_ge in Hn.
      destruct Hline as [[_ ->] | [H _]]; [| lia].
      right. split; [lia |]. left. exact Hword.
    + apply (IH (S n) testLine currentY ops final y Hrest); [| exact Hrun].
      right. split; [lia |]. right. apply Qltb_ge in Hwide. exact Hwide.
    + apply (IH (S n) testLine currentY ops final y Hrest); [| exact Hrun].
      right. split; [lia |]. right. apply Qltb_ge in Hwide. exact Hwide.
Qed.

(** Each line drawn is a word or fits, at its place. *)
Lemma wrapWords_lines words y :
  let ops := wrapWords measure words x y maxWidth lineHeight in
  Forall (fun op =>
            exists text yk,
              op = FillText text x yk /\
              (In text words \/ measure text <= maxWidth)) ops /\
  map ordinateOf ops
    = map Some (lineOrdinates y lineHeight (List.length ops)).
Proof.
  unfold wrapWords.
  destruct (wrapLoop measure x maxWidth lineHeight words 0 EmptyString y)
    as [[ops final] y'] eqn:Hrun.
  destruct (wrapLoop_layout (fun w => In w words) words 0%nat EmptyString
              y ops final y') as (Hfinal & Hy & Hops).
  - apply Forall_forall. auto.
  - left. auto.
  - exact Hrun.
  - cbv zeta. destruct (nonEmpty final) eqn:Hne.
    + split.
      * apply Forall_app. split; [exact Hops |]. constructor; [| constructor].
        exists final, y'. split; [reflexivity |].
        apply nonEmpty_true in Hne.
        destruct Hfinal as [H | H]; [congruence | exact H].
      * rewrite map_app, length_app, Nat.add_1_r. exact Hy.
    + rewrite app_nil_r. split; [exact Hops |].
      destruct (lineOrdinates_snoc (List.length ops) y)
        as [last Hlast].
      rewrite Hlast, map_app in Hy. cbn [map] in Hy.
      now apply app_inj_tail in Hy.
Qed.

End Wrap.

(** The caption "uno dos tres" under the sample metrics, wrapped at 80
    pixels from ordinate 100 with a line height of 34. *)
Example wrapWords_sample :
  wrapText sampleTextHost 28 "uno dos tres" 50 100 80 34
    = [FillText "uno dos" 50 100; FillText "tres" 50 (100 + 34)].
Proof. reflexivity. Qed.

(** X11. [wrapText] loses no word and changes no order: when the text
    splits into words none of which is empty, the lines it draws, read one
    after the other with a space between them, are the words with a space
    between them. *)
Theorem wrapText_keeps_the_words host fontSize text x y maxWidth lineHeight :
  Forall (fun word => word <> EmptyString) (splitWhitespace host text) ->
  joinWords (textsOf (wrapText host fontSize text x y maxWidth lineHeight))
    = joinWords (splitWhitespace host text).
Proof. intros Hwords. unfold wrapText. now apply wrapWords_join. Qed.

Lemma wrapText_keeps_the_words_sample :
  joinWords (textsOf (wrapText sampleTextHost 28 "uno dos tres"
                               50 100 80 34))
    = joinWords sampleWords.
Proof.
  apply (wrapText_keeps_the_words sampleTextHost 28 "uno dos tres"
           50 100 80 34).
  repeat constructor; discriminate.
Defined.

(** X12. Every operation of [wrapText] draws a line of text; the line is
    a single word of the text or measures at most the maximum width; the
    lines share the abscissa [x], the first one is at ordinate [y] and each
    next one at the ordinate of the one before plus the line height, the
    values [currentY] takes under [currentY += lineHeight]. *)
Theorem wrapText_layout host fontSize text x y maxWidth lineHeight :
  Forall (fun op =>
            exists line yk,
              op = FillText line x yk /\
              (In line (splitWhitespace host text)
               \/ measureText host fontSize line <= maxWidth))
         (wrapText host fontSize text x y maxWidth lineHeight) /\
  map ordinateOf (wrapText host fontSize text x y maxWidth lineHeight)
    = map Some
        (lineOrdinates y lineHeight
           (List.length
              (wrapText host fontSize text x y maxWidth lineHeight))) /\
  (forall op,
      nth_error (wrapText host fontSize text x y maxWidth lineHeight) 0
        = Some op ->
      ordinateOf op = Some y) /\
  (forall k above below yk,
      nth_error (wrapText host fontSize text x y maxWidth lineHeight) k
        = Some above ->
      nth_error (wrapText host fontSize text x y maxWidth lineHeight) (S k)
        = Some below ->
      ordinateOf above = Some yk ->
      ordinateOf below = Some (yk + lineHeight)).
Proof.
  unfold wrapText.
  destruct (wrapWords_lines (measureText host fontSize) x maxWidth
              lineHeight (splitWhitespace host text) y) as [Hlines Hys].
  set (ops := wrapWords (measureText host fontSize)
                (splitWhitespace host text) x y maxWidth lineHeight) in *.
  split; [exact Hlines |]. split; [exact Hys |]. split.
  - intros op Hop.
    apply (f_equal (fun l => nth_error l 0)) in Hys.
    rewrite !nth_error_map, Hop in Hys. cbn [option_map] in Hys.
    destruct ops as [| first rest]; [discriminate |].
    simpl in Hys. now injection Hys.
  - intros k above below yk Ha Hb Hyk.
    pose proof (f_equal (fun l => nth_error l k) Hys) as Hk.
    pose proof (f_equal (fun l => nth_error l (S k)) Hys) as Hk'.
    cbv beta in Hk, Hk'.
    rewrite !nth_error_map in Hk, Hk'. rewrite Ha in Hk. rewrite Hb in Hk'.
    cbn [option_map] in Hk, Hk'. rewrite Hyk in Hk.
    destruct (nth_error (lineOrdinates y lineHeight (List.length ops)) k)
      as [a |] eqn:Hnk; [| discriminate].
    destruct (nth_error (lineOrdinates y lineHeight (List.length ops)) (S k))
      as [b |] eqn:Hnk'; [| discriminate].
    cbn [option_map] in Hk, Hk'. injection Hk as ->.
    rewrite (lineOrdinates_next _ _ _ _ _ _ Hnk Hnk') in Hk'.
    injection Hk' as Hk'. exact Hk'.
Qed.

(** ** Geometry of a frame *)

(** X13. The image is letterboxed: on a canvas and an image of positive
    size the rectangle it is drawn in spans the full width of the canvas,
    its height being the width divided by the image's ratio, or the full
    height, its width being the height times the image's ratio; it lies
    inside the canvas, and the margins on the left and on top are half of
    what the rectangle leaves of the width and of the height, one of them
    being zero. *)
Theorem fitImage_letterbox image width height dx dy drawWidth drawHeight :
  0 < img_width image -> 0 < img_height image ->
  0 < width -> 0 < height ->
  fitImage image width height = (dx, dy, drawWidth, drawHeight) ->
  0 < drawWidth <= width /\
  0 < drawHeight <= height /\
  ((drawWidth = width /\
    drawHeight = width / (img_width image / img_height image)) \/
   (drawHeight = height /\
    drawWidth = height * (img_width image / img_height image))) /\
  dx = (width - drawWidth) / 2 /\
  dy = (height - drawHeight) / 2 /\
  0 <= dx /\ 0 <= dy /\
  dx + drawWidth <= width /\
  dy + drawHeight <= height /\
  (dx == 0 \/ dy == 0).
Proof.
  intros Hiw Hih Hw Hh. unfold fitImage.
  set (r := img_width image / img_height image).
  set (c := width / height).
  assert (Hr : r * img_height image == img_width image)
    by (unfold r; field; lra).
  assert (Hc : c * height == width) by (unfold c; field; lra).
  assert (Hrpos : 0 < r) by (unfold r; apply Qlt_shift_div_l; lra).
  assert (Hcpos : 0 < c) by (unfold c; apply Qlt_shift_div_l; lra).
  destruct (Qltb c r) eqn:Hcmp; intros [= <- <- <- <-].
  - apply Qltb_lt in Hcmp.
    assert (Hd : width / r * r == width) by (field; lra).
    assert (Hdpos : 0 < width / r) by (apply Qlt_shift_div_l; lra).
    assert (Hdle : width / r <= height).
    { apply Qle_shift_div_r; [exact Hrpos |]. nra. }
    split; [lra |]. split; [lra |].
    split; [left; split; reflexivity |].
    split; [reflexivity |]. split; [reflexivity |].
    set (d := width / r) in *.
    assert (Hx : (width - width) / 2 == 0) by (field).
    assert (Hy : (height - d) / 2 + d + (height - d) / 2 == height)
      by (field).
    assert (Hy0 : 0 <= (height - d) / 2)
      by (apply Qle_shift_div_l; lra).
    repeat split; lra.
  - apply Qltb_ge in Hcmp.
    assert (Hdle : height * r <= width) by nra.
    assert (Hdpos : 0 < height * r) by nra.
    split; [lra |]. split; [lra |].
    split; [right; split; reflexivity |].
    split; [reflexivity |]. split; [reflexivity |].
    set (d := height * r) in *.
    assert (Hy : (height - height) / 2 == 0) by (field).
    assert (Hx : (width - d) / 2 + d + (width - d) / 2 == width)
      by (field).
    assert (Hx0 : 0 <= (width - d) / 2)
      by (apply Qle_shift_div_l; lra).
    repeat split; lra.
Qed.

Lemma fitImage_letterbox_sample :
  snd (fitImage (mkImage 640 480) 1280 720) <= 720.
Proof.
  refine (proj2 (proj1 (proj2
            (fitImage_letterbox (mkImage 640 480) 1280 720 _ _ _ _
               eq_refl eq_refl eq_refl eq_refl eq_refl)))).
Defined.

(** A 4:3 image on the 16:9 canvas: full height, 960 wide, 160 pixels of
    margin on either side. *)
Example fitImage_sample :
  let '(dx, dy, drawWidth, drawHeight) :=
    fitImage (mkImage 640 480) 1280 720 in
  dx == 160 /\ dy == 0 /\ drawWidth == 960 /\ drawHeight == 720.
Proof. vm_compute. repeat split. Qed.

Lemma completion_bounds elapsed total :
  0 <= elapsed ->
  0 <= completion elapsed total <= 1 /\
  (total <= elapsed -> completion elapsed total == 1).
Proof.
  intros He. unfold completion.
  destruct (Qltb 0 total) eqn:Ht.
  - apply Qltb_lt in Ht.
    assert (Hfrac : 0 <= elapsed / total) by (apply Qle_shift_div_l; lra).
    split; [split; extrema |].
    intros Hge.
    assert (1 <= elapsed / total) by (apply Qle_shift_div_l; lra).
    extrema.
  - split; [split; lra | intros; lra].
Qed.

(** X14. Whatever the timestamp, the frames a tick paints stay in range:
    each names a meta of the list by its position, takes that meta's
    duration as its total, has a local elapsed time between zero and that
    duration, and so a progress fraction between 0 and 1. *)
Theorem frames_stay_in_range ms total start timestamp draws more :
  Forall (fun meta => DURATION_MIN <= SceneMeta.duration meta) ms ->
  renderFrame ms total start timestamp = Some (draws, more) ->
  Forall (fun d =>
            nth_error ms (draw_index d) = Some (draw_meta d) /\
            draw_total d = SceneMeta.duration (draw_meta d) /\
            0 <= draw_elapsed d <= draw_total d /\
            0 <= completion (draw_elapsed d) (draw_total d) <= 1)
         draws.
Proof.
  intros Hmin Hframe. unfold renderFrame in Hframe.
  destruct (selectSegment ms total ((timestamp - start) / 1000))
    as [sel |] eqn:Hsel; [| discriminate].
  destruct (lastMeta ms) as [lm |] eqn:Hlast; [| discriminate].
  assert (Hdur : forall i meta,
            nth_error ms i = Some meta -> 1 <= SceneMeta.duration meta).
  { intros i meta Hnth. apply nth_error_In in Hnth.
    rewrite Forall_forall in Hmin. apply (Hmin _ Hnth). }
  assert (Hselected :
            nth_error ms (currentIndex sel) = Some (currentMeta sel) /\
            0 <= sceneElapsed sel <= SceneMeta.duration (currentMeta sel)).
  { unfold selectSegment in Hsel. rewrite Hlast in Hsel.
    destruct (scan ((timestamp - start) / 1000) 0 0%nat ms)
      as [[[i meta] s] |] eqn:Hscan; injection Hsel as <-; simpl.
    - destruct (scan_some _ _ _ _ _ _ _ Hscan) as (k & -> & Hm & _).
      split; [exact Hm |]. pose proof (Hdur _ _ Hm). split; extrema.
    - split; [exact Hlast |]. pose proof (Hdur _ _ Hlast). split; extrema. }
  destruct Hselected as [Hidx Hrange].
  pose proof (Hdur _ _ Hlast) as Hlm.
  assert (Hfirst :
    nth_error ms (currentIndex sel) = Some (currentMeta sel) /\
    SceneMeta.duration (currentMeta sel)
      = SceneMeta.duration (currentMeta sel) /\
    0 <= sceneElapsed sel <= SceneMeta.duration (currentMeta sel) /\
    0 <= completion (sceneElapsed sel)
           (SceneMeta.duration (currentMeta sel)) <= 1).
  { split; [exact Hidx |]. split; [reflexivity |]. split; [exact Hrange |].
    apply completion_bounds. tauto. }
  destruct (Qltb ((timestamp - start) / 1000) total);
    injection Hframe as <- <-; repeat constructor; simpl; try tauto;
    try lra; try exact Hlast;
    apply completion_bounds; lra.
Qed.

Lemma frames_stay_in_range_sample :
  match renderFrame (metas sampleState) 11 1000 6500 with
  | Some (draws, _) =>
      Forall (fun d => 0 <= draw_elapsed d <= draw_total d) draws
  | None => True
  end.
Proof.
  destruct (renderFrame (metas sampleState) 11 1000 6500)
    as [[draws more] |] eqn:Htick; [| exact I].
  refine (Forall_impl _ _
            (frames_stay_in_range (metas sampleState) 11 1000 6500 draws
               more _ Htick)).
  - intros d H. tauto.
  - repeat constructor; discriminate.
Defined.

(** ** What a frame shows *)

Lemma textsOf_app ops1 ops2 :
  textsOf (ops1 ++ ops2) = textsOf ops1 ++ textsOf ops2.
Proof. unfold textsOf. apply flat_map_app. Qed.

(** X15. A frame shows the caption whole or not at all: when the dialogue
    trims to nothing no text is drawn; otherwise, the trimmed dialogue
    splitting into words none of which is empty, the lines drawn spell
    those words in order. *)
Theorem drawSceneFrame_caption host width height meta elapsed total :
  (nonEmpty (trim host (Scene.dialogue (SceneMeta.scene meta))) = false ->
   textsOf (drawSceneFrame host width height meta elapsed total) = []) /\
  (nonEmpty (trim host (Scene.dialogue (SceneMeta.scene meta))) = true ->
   Forall (fun word => word <> EmptyString)
          (splitWhitespace host
             (trim host (Scene.dialogue (SceneMeta.scene meta)))) ->
   joinWords (textsOf (drawSceneFrame host width height meta elapsed total))
     = joinWords
         (splitWhitespace host
            (trim host (Scene.dialogue (SceneMeta.scene meta))))).
Proof.
  unfold drawSceneFrame.
  destruct (fitImage (SceneMeta.image meta) width height)
    as [[[dx dy] dw] dh].
  destruct (progressTrack width height) as [[[px py] pw] ph].
  split; intros Hcaption.
  - rewrite Hcaption. reflexivity.
  - intros Hwords. rewrite Hcaption.
    rewrite !textsOf_app. cbn [textsOf flat_map textOf app].
    rewrite app_nil_r. fold (textsOf
      (wrapText host (Qmax 28 (width * (26 # 1000)))
         (trim host (Scene.dialogue (SceneMeta.scene meta))) (width / 2)
         (height - height * (28 # 100) / 2) (width * (7 # 10))
         (Qmax 34 (width * (35 # 1000))))).
    unfold wrapText. now apply wrapWords_join.
Qed.

Lemma drawSceneFrame_caption_sample :
  textsOf (drawSceneFrame sampleTextHost 1280 720
             (SceneMeta.mk sceneB (mkImage 640 480) 6 6) 3 6) = [].
Proof.
  exact (proj1 (drawSceneFrame_caption sampleTextHost 1280 720
                  (SceneMeta.mk sceneB (mkImage 640 480) 6 6) 3 6)
               eq_refl).
Defined.

(** X16. A frame ends with the progress bar and the restore: the track,
    centred and 60 percent of the canvas wide, then the fill in the
    scene's accent colour, which starts where the track starts, is never
    wider than the track, and covers it when the elapsed time has reached
    the total. *)
Theorem drawSceneFrame_progress host width height meta elapsed total :
  0 <= width -> 0 <= elapsed ->
  exists front px py pw ph fill,
    drawSceneFrame host width height meta elapsed total
      = front ++
        [SetFillStyle (Color "rgba(255, 255, 255, 0.25)");
         FillRect px py pw ph;
         SetFillStyle (Color (Scene.accentColor (SceneMeta.scene meta)));
         FillRect px py fill ph; Restore] /\
    hd_error front = Some Save /\
    pw == width * (6 # 10) /\
    px + pw + px == width /\
    10 <= ph /\
    0 <= fill <= pw /\
    (total <= elapsed -> fill == pw).
Proof.
  intros Hw He. unfold drawSceneFrame, progressTrack.
  destruct (fitImage (SceneMeta.image meta) width height)
    as [[[dx dy] dw] dh].
  destruct (completion_bounds elapsed total He) as [[Hc0 Hc1] Hfull].
  eexists. eexists. eexists. eexists. eexists. eexists.
  split; [rewrite app_assoc; reflexivity |].
  split; [reflexivity |]. split; [reflexivity |].
  split; [field |]. split; [extrema |].
  split; [split; nra |].
  intros Hge. rewrite (Hfull Hge). lra.
Qed.

Lemma drawSceneFrame_progress_sample :
  exists front px py pw ph fill,
    drawSceneFrame sampleTextHost 1280 720
      (SceneMeta.mk sceneA (mkImage 640 480) 5 5) 5 5
      = front ++
        [SetFillStyle (Color "rgba(255, 255, 255, 0.25)");
         FillRect px py pw ph;
         SetFillStyle (Color (Scene.accentColor sceneA));
         FillRect px py fill ph; Restore] /\
    fill == pw.
Proof.
  destruct (drawSceneFrame_progress sampleTextHost 1280 720
              (SceneMeta.mk sceneA (mkImage 640 480) 5 5) 5 5
              ltac:(discriminate) ltac:(discriminate))
    as (front & px & py & pw & ph & fill & Heq & _ & _ & _ & _ & _ & Hfull).
  exists front, px, py, pw, ph, fill. split; [exact Heq |].
  apply Hfull. discriminate.
Defined.

(** ** The render pass as a whole *)

Lemma resolved_total_positive ctx load ready images st :
  ready <> [] ->
  loadImages load ready = Some images ->
  resolve ctx ready images = (st, None) ->
  1 <= totalTimelineDuration (metas st).
Proof.
  intros Hne Hload Hres.
  destruct (resolve_metas _ _ _ _ _ Hload Hres) as [Hlen Hmin].
  rewrite total_is_sum.
  pose proof (sumDurations_ge_count _ Hmin) as Hsum.
  unfold DURATION_MIN in Hsum.
  assert (Hcount : 1 <= inject_Z (Z.of_nat (List.length (metas st)))).
  { change 1 with (inject_Z 1). rewrite <- Zle_Qle. rewrite Hlen.
    destruct ready; [congruence | simpl; lia]. }
  lra.
Qed.

(** X17. The guard on the total duration never fires: no run of
    [generateVideo] logs the invalid-timeline exception, because a timeline
    resolved from at least one scene lasts at least a second. *)
Theorem invalid_timeline_never_raised host ui scenes :
  existsb logsInvalidTimeline (trace (generateVideo host ui scenes)) = false.
Proof.
  unfold generateVideo.
  destruct (isGenerating ui); [reflexivity |].
  destruct (canvasCurrent host); [| reflexivity]. simpl negb. cbv iota.
  destruct (List.length (scenesReady scenes) =? 0)%nat eqn:Hlen;
    [reflexivity |].
  assert (Hne : scenesReady scenes <> []).
  { intros Heq. rewrite Heq in Hlen. discriminate. }
  unfold tryBlock.
  destruct (context2d host); [| reflexivity]. simpl negb. cbv iota.
  destruct (loadImages (loadImage host) (scenesReady scenes))
    as [images |] eqn:Hload; [| reflexivity].
  destruct (resolve (audioCtx host) (scenesReady scenes) images)
    as [st [e |]] eqn:Hres.
  { destruct (resolveLoop_failure _ _ _ _ _ Hres) as [-> _].
    cbn [trace]. trace_scan. reflexivity. }
  pose proof (resolved_total_positive _ _ _ _ _ Hne Hload Hres) as Hpos.
  replace (Qle_bool (totalTimelineDuration (metas st)) 0) with false
    by (symmetry; apply Qle_bool_gt; lra).
  destruct (isTypeSupported host (chooseMime (isTypeSupported host)));
    simpl negb; cbv iota.
  2:{ cbn [trace]. trace_scan. reflexivity. }
  destruct (renderLoop (metas st) (totalTimelineDuration (metas st))
              (startInstant host) (animationFrames host)) as [draws ending].
  destruct ending; cbn [trace]; trace_scan;
    try (destruct (generatedVideoUrl ui)); reflexivity.
Qed.

(** X18. What a run leaves in the page, started with no render in
    progress: a run that settles has put the in-progress flag back to
    false; a run still waiting for the recorder keeps it true under the
    "rendering" message; and the video of the page changes only in a run
    that settles with the success tone. *)
Theorem run_leaves_consistent_state host ui scenes :
  isGenerating ui = false ->
  (settled (generateVideo host ui scenes) = true ->
   isGenerating (stateAfter host ui scenes) = false) /\
  (settled (generateVideo host ui scenes) = false ->
   isGenerating (stateAfter host ui scenes) = true /\
   statusMessage (stateAfter host ui scenes) = msgRendering /\
   generatedVideoUrl (stateAfter host ui scenes) = generatedVideoUrl ui) /\
  (generatedVideoUrl (stateAfter host ui scenes) <> generatedVideoUrl ui ->
   settled (generateVideo host ui scenes) = true /\
   statusTone (stateAfter host ui scenes) = ToneSuccess /\
   generatedVideoUrl (stateAfter host ui scenes)
     = Some (new_Blob (recordedChunks (dataEvents host)))).
Proof.
  intros Hgen. unfold stateAfter, generateVideo. rewrite Hgen.
  destruct (canvasCurrent host); simpl negb; cbv iota.
  2:{ cbn [trace settled]. trace_state. rewrite Hgen.
      repeat split; congruence. }
  destruct (List.length (scenesReady scenes) =? 0)%nat.
  { cbn [trace settled]. trace_state. rewrite Hgen.
    repeat split; congruence. }
  unfold tryBlock.
  destruct (context2d host); simpl negb; cbv iota.
  2:{ cbn [trace settled]. trace_state. repeat split; congruence. }
  destruct (loadImages (loadImage host) (scenesReady scenes)) as [images |].
  2:{ cbn [trace settled]. trace_state. repeat split; congruence. }
  destruct (resolve (audioCtx host) (scenesReady scenes) images)
    as [st [e |]].
  { cbn [trace settled]. trace_state. repeat split; congruence. }
  destruct (Qle_bool (totalTimelineDuration (metas st)) 0).
  { cbn [trace settled]. trace_state. repeat split; congruence. }
  destruct (isTypeSupported host (chooseMime (isTypeSupported host)));
    simpl negb; cbv iota.
  2:{ cbn [trace settled]. trace_state. repeat split; congruence. }
  destruct (renderLoop (metas st) (totalTimelineDuration (metas st))
              (startInstant host) (animationFrames host)) as [draws ending].
  destruct ending; cbn [trace settled]; trace_state;
    try (destruct (generatedVideoUrl ui)); trace_state;
    repeat split; congruence.
Qed.

Lemma run_leaves_consistent_state_sample :
  isGenerating (stateAfter sampleHost sampleUi sampleScenes) = false.
Proof.
  exact (proj1 (run_leaves_consistent_state sampleHost sampleUi sampleScenes
                  eq_refl) eq_refl).
Defined.

(** ** Chunks and artifact *)

Lemma recordedChunks_from events : forall chunks,
  fold_left ondataavailable events chunks
    = chunks ++ filter (fun data => (0 <? blob_size data)%nat) events.
Proof.
  induction events as [| data rest IH]; intros chunks; simpl.
  - now rewrite app_nil_r.
  - rewrite IH. unfold ondataavailable.
    destruct (0 <? blob_size data)%nat; [| reflexivity].
    now rewrite <- app_assoc.
Qed.

Lemma concat_nonempty (events : list Blob) :
  List.concat (filter (fun data => (0 <? blob_size data)%nat) events)
    = List.concat events.
Proof.
  induction events as [| data rest IH]; simpl; [reflexivity |].
  destruct data as [| b data]; simpl; [exact IH |].
  now rewrite IH.
Qed.

(** X19. Dropping the empty chunks loses nothing: the chunks kept are the
    non-empty events in their order, the artifact is the concatenation of
    the data of all the events in the order they came, and its size is the
    sum of their sizes. *)
Theorem artifact_is_all_data events :
  recordedChunks events
    = filter (fun data => (0 <? blob_size data)%nat) events /\
  new_Blob (recordedChunks events) = List.concat events /\
  blob_size (new_Blob (recordedChunks events))
    = list_sum (map blob_size events).
Proof.
  assert (Hkept : recordedChunks events
                  = filter (fun data => (0 <? blob_size data)%nat) events).
  { unfold recordedChunks. now rewrite recordedChunks_from. }
  assert (Hblob : new_Blob (recordedChunks events) = List.concat events).
  { unfold new_Blob. rewrite Hkept. apply concat_nonempty. }
  repeat split; auto.
  rewrite Hblob. unfold blob_size. clear.
  induction events as [| data rest IH]; simpl; [reflexivity |].
  now rewrite length_app, IH.
Qed.

(** ** Sources on the bus *)

Lemma iteration_buffer_fits ctx c item meta src :
  1 <= sampleRate ctx ->
  iteration ctx c item meta src ->
  SceneMeta.audioLength meta <= SceneMeta.duration meta /\
  ab_duration (src_buffer src) <= SceneMeta.duration meta.
Proof.
  intros Hrate (Haudio & _). unfold sceneAudio in Haudio.
  pose proof (baseDuration_ge_min (fst item)) as Hbase.
  unfold DURATION_MIN in Hbase.
  destruct (Scene.audioArrayBuffer (fst item)) as [buf |].
  - destruct (decodeAudioData ctx buf) as [decoded |]; [| discriminate].
    injection Haudio as <- <- <-. split; extrema.
  - injection Haudio as <- <- <-. split; [lra |].
    unfold ab_duration, createBuffer, silenceFrames. simpl.
    apply silence_seconds; assumption.
Qed.

Lemma Iterations_no_overlap ctx c items ms srcs c' :
  1 <= sampleRate ctx ->
  Iterations ctx c items ms srcs c' ->
  c <= c' /\
  Forall (fun src =>
            c <= src_when src /\
            src_when src + ab_duration (src_buffer src) <= c') srcs /\
  (forall i si sj,
      nth_error srcs i = Some si ->
      nth_error srcs (S i) = Some sj ->
      src_when si + ab_duration (src_buffer si) <= src_when sj).
Proof.
  intros Hrate.
  induction 1 as [| c item meta src items ms srcs c' Hit Hrest IH].
  - split; [lra |]. split; [constructor |].
    intros [| i] si sj H; discriminate.
  - destruct IH as (Hle & Hall & Hnext).
    destruct (iteration_buffer_fits _ _ _ _ _ Hrate Hit) as [_ Hfit].
    pose proof (iteration_duration_ge_min _ _ _ _ _ Hit) as Hmin.
    unfold DURATION_MIN in Hmin.
    assert (Hwhen : src_when src = c) by (destruct Hit; tauto).
    split; [lra |]. split.
    + constructor; [rewrite Hwhen; split; lra |].
      eapply Forall_impl; [| exact Hall]. simpl. intros s [H1 H2].
      split; lra.
    + intros [| i] si sj Hi Hj; simpl in Hi, Hj.
      * injection Hi as <-. rewrite Hwhen.
        destruct srcs as [| s2 srcs]; [discriminate |].
        injection Hj as <-. inversion Hall as [| ? ? [Hs2 _] _]; subst.
        lra.
      * eapply Hnext; eauto.
Qed.

(** X20. On a context whose sample rate is at least 1, the sources put on
    the bus, one per ready scene, never overlap: each one ends, at the
    latest, when the next one starts, none starts before the lead-in, every
    one has ended when the cursor's final position is reached, which is not
    before the lead-in, and no meta records more audio than its
    duration. *)
Theorem audio_sources_do_not_overlap ctx load scenes images st :
  1 <= sampleRate ctx ->
  loadImages load (scenesReady scenes) = Some images ->
  resolve ctx (scenesReady scenes) images = (st, None) ->
  List.length (bus st) = List.length (scenesReady scenes) /\
  (forall i si sj,
      nth_error (bus st) i = Some si ->
      nth_error (bus st) (S i) = Some sj ->
      src_when si + ab_duration (src_buffer si) <= src_when sj) /\
  Forall (fun src =>
            currentTime ctx + LEAD_IN <= src_when src /\
            src_when src + ab_duration (src_buffer src)
              <= audioTimelineCursor st) (bus st) /\
  currentTime ctx + LEAD_IN <= audioTimelineCursor st /\
  Forall (fun meta => SceneMeta.audioLength meta <= SceneMeta.duration meta)
         (metas st).
Proof.
  intros Hrate Hload Hres.
  destruct (resolve_iterations _ _ _ _ _ Hload Hres) as [Hits _].
  destruct (resolve_metas _ _ _ _ _ Hload Hres) as [Hlen _].
  destruct (Iterations_lengths _ _ _ _ _ _ Hits) as [Hmetas Hbus].
  destruct (Iterations_no_overlap _ _ _ _ _ _ Hrate Hits)
    as (Hcursor & Hall & Hnext).
  split; [rewrite Hbus, <- Hmetas; exact Hlen |].
  split; [exact Hnext |]. split; [exact Hall |].
  split; [exact Hcursor |].
  clear Hall Hnext Hcursor Hload Hres Hlen Hmetas Hbus.
  induction Hits as [| c item meta src items ms srcs c' Hit _ IH];
    constructor; [| exact IH].
  apply (iteration_buffer_fits _ _ _ _ _ Hrate Hit).
Qed.

Lemma audio_sources_do_not_overlap_sample :
  List.length (bus sampleState) = 2%nat /\
  Forall (fun src =>
            currentTime sampleCtx + LEAD_IN <= src_when src /\
            src_when src + ab_duration (src_buffer src)
              <= audioTimelineCursor sampleState) (bus sampleState).
Proof.
  destruct (audio_sources_do_not_overlap sampleCtx sampleLoad sampleScenes
              sampleImages sampleState ltac:(discriminate)
              eq_refl eq_refl) as (Hbus & _ & Hall & _).
  split; [exact Hbus | exact Hall].
Defined.

(** ** The chain of frame callbacks *)

Lemma renderFrame_defined ms total start timestamp :
  ms <> [] ->
  exists draws,
    renderFrame ms total start timestamp
      = Some (draws, Qltb ((timestamp - start) / 1000) total) /\
    List.length draws
      = if Qltb ((timestamp - start) / 1000) total then 1%nat else 2%nat.
Proof.
  intros Hne. unfold renderFrame, selectSegment.
  destruct (last_offset ms 0 Hne) as (lm & s & Hlast & _ & _).
  rewrite Hlast.
  destruct (scan ((timestamp - start) / 1000) 0 0%nat ms)
    as [[[i meta] st] |];
    destruct (Qltb ((timestamp - start) / 1000) total);
    eexists; split; reflexivity.
Qed.

(** X21. The chain of frame callbacks paints one frame per tick while the
    elapsed time is below the total and ends on the first tick at or past
    it, which paints two frames and stops the recorder; later ticks paint
    nothing.  Until that tick comes the chain is still waiting. *)
Theorem renderLoop_stops_at_first_late_tick ms total start early late later :
  ms <> [] ->
  Forall (fun timestamp => (timestamp - start) / 1000 < total) early ->
  total <= (late - start) / 1000 ->
  exists painted closing,
    renderLoop ms total start early = (painted, AwaitingFrame) /\
    List.length painted = List.length early /\
    List.length closing = 2%nat /\
    renderLoop ms total start (early ++ late :: later)
      = (painted ++ closing, RecorderStopped).
Proof.
  intros Hne Hearly Hlate.
  induction Hearly as [| timestamp early Hlt _ IH].
  - destruct (renderFrame_defined ms total start late Hne)
      as (draws & Hframe & Hlen).
    replace (Qltb ((late - start) / 1000) total) with false in *
      by (symmetry; apply Qltb_ge; exact Hlate).
    exists [], draws. simpl. rewrite Hframe. auto.
  - destruct IH as (painted & closing & Hwait & Hlen & Hclose & Hrun).
    destruct (renderFrame_defined ms total start timestamp Hne)
      as (draws & Hframe & Hone).
    replace (Qltb ((timestamp - start) / 1000) total) with true in *
      by (symmetry; apply Qltb_lt; exact Hlt).
    exists (draws ++ painted), closing.
    simpl. rewrite Hframe, Hwait, Hrun.
    rewrite length_app, Hone, Hlen, <- app_assoc. auto.
Qed.

Lemma renderLoop_stops_at_first_late_tick_sample :
  exists painted closing,
    renderLoop (metas sampleState) 11 1000 [990; 1016; 6500]
      = (painted, AwaitingFrame) /\
    List.length painted = 3%nat /\
    List.length closing = 2%nat /\
    renderLoop (metas sampleState) 11 1000
               ([990; 1016; 6500] ++ 12000 :: [12016])
      = (painted ++ closing, RecorderStopped).
Proof.
  refine (renderLoop_stops_at_first_late_tick (metas sampleState) 11 1000
            [990; 1016; 6500] 12000 [12016] ltac:(discriminate) _ _).
  - repeat constructor.
  - discriminate.
Defined.

(** ** The editor and the render pass together *)

Lemma syncSelection_fallback scenes selectedSceneId :
  scenes <> [] ->
  (forall sel, selectedSceneId = Some sel -> ~ In sel (map Scene.id scenes)) ->
  syncSelection scenes selectedSceneId
    = option_map Scene.id (hd_error scenes).
Proof.
  intros Hne Hnot. unfold syncSelection.
  destruct scenes as [| first rest]; [congruence |].
  destruct (truthy_string selectedSceneId) eqn:Htruthy; cbn [negb andb].
  - destruct selectedSceneId as [sel |]; [| discriminate].
    destruct (existsb (fun scene => String.eqb (Scene.id scene) sel)
                      (first :: rest)) eqn:Hex; [| reflexivity].
    apply existsb_id_In in Hex. exfalso. exact (Hnot sel eq_refl Hex).
  - reflexivity.
Qed.

(** X22. Removing the selected scene from a list of two or more scenes
    with distinct identifiers moves the selection, at the next run of the
    selection effect, to the first scene that is left. *)
Theorem removing_selected_selects_first sceneId prev :
  NoDup (map Scene.id prev) ->
  (2 <= List.length prev)%nat ->
  exists first,
    hd_error (removeScene sceneId prev) = Some first /\
    In first prev /\
    Scene.id first <> sceneId /\
    syncSelection (removeScene sceneId prev) (Some sceneId)
      = Some (Scene.id first).
Proof.
  intros Hnd Hlen.
  assert (Hne : prev <> []) by (destruct prev; [simpl in Hlen; lia | discriminate]).
  destruct (removeScene_facts sceneId prev Hne Hnd)
    as (Hleft & _ & _ & _ & Habsent).
  assert (Hgone : ~ In sceneId (map Scene.id (removeScene sceneId prev)))
    by (apply Habsent; lia).
  destruct (removeScene sceneId prev) as [| first rest] eqn:Hrem;
    [congruence |].
  exists first. split; [reflexivity |].
  assert (Hin : In first (removeScene sceneId prev))
    by (rewrite Hrem; now left).
  unfold removeScene in Hin.
  replace (List.length prev =? 1)%nat with false in Hin
    by (symmetry; apply Nat.eqb_neq; lia).
  apply filter_In in Hin. destruct Hin as [Hin Hkeep].
  apply negb_true_iff, String.eqb_neq in Hkeep.
  repeat split; auto.
  rewrite syncSelection_fallback; [reflexivity | discriminate |].
  intros sel [= <-]. exact Hgone.
Qed.

Lemma removing_selected_selects_first_sample :
  exists first,
    hd_error (removeScene (Scene.id sceneA) sampleScenes) = Some first /\
    In first sampleScenes /\
    Scene.id first <> Scene.id sceneA /\
    syncSelection (removeScene (Scene.id sceneA) sampleScenes)
                  (Some (Scene.id sceneA))
      = Some (Scene.id first).
Proof.
  refine (removing_selected_selects_first (Scene.id sceneA) sampleScenes
            _ _).
  - repeat constructor; simpl; intuition discriminate.
  - simpl. lia.
Defined.

(** X23. A scene added by [addScene] has no image and six seconds: the
    renderable scenes stay as they were, while the list grows by one scene
    and the total the editor shows by six seconds. *)
Theorem addScene_counts_six_seconds newId accent prev :
  scenesReady (addScene newId accent prev) = scenesReady prev /\
  List.length (addScene newId accent prev) = S (List.length prev) /\
  totalDuration (addScene newId accent prev) == totalDuration prev + 6.
Proof.
  unfold addScene. repeat split.
  - unfold scenesReady. rewrite filter_app. simpl. apply app_nil_r.
  - rewrite length_app. simpl. lia.
  - rewrite !totalDuration_sumQ.
    induction prev as [| scene rest IH]; simpl.
    + vm_compute. reflexivity.
    + fold (sumQ segmentDuration (rest ++ [createScene newId accent])).
      fold (sumQ segmentDuration rest). rewrite IH. lra.
Qed.

Lemma Forall_rewrite (P : Scene.t -> Prop) (f : Scene.t -> Scene.t)
    (sceneId : string) prev :
  (forall scene, P scene -> P (f scene)) ->
  Forall P prev ->
  Forall P (map (fun scene =>
                   if String.eqb (Scene.id scene) sceneId
                   then f scene else scene) prev).
Proof.
  intros Hf Hall. apply Forall_map. eapply Forall_impl; [| exact Hall].
  intros scene Hs. destruct (String.eqb (Scene.id scene) sceneId); auto.
Qed.

(** X24. The agreement between the audio duration stored with a scene and
    its buffer is an invariant of the editor: it holds for a fresh scene,
    and every handler - dialogue, duration, image, audio upload, voice
    recording, audio removal, adding, duplicating, removing - keeps it,
    the editor decoding as the render pass does. *)
Theorem editor_keeps_audio_agreement ctx prev :
  Forall (storedAudioAgrees ctx) prev ->
  (forall newId accent, storedAudioAgrees ctx (createScene newId accent)) /\
  (forall sceneId value,
      Forall (storedAudioAgrees ctx)
             (handleDialogueChange sceneId value prev)) /\
  (forall sceneId duration,
      Forall (storedAudioAgrees ctx)
             (handleDurationChange sceneId duration prev)) /\
  (forall reader sceneId file,
      Forall (storedAudioAgrees ctx)
             (handleImageUpload reader sceneId file prev)) /\
  (forall sceneId file tone message,
      Forall (storedAudioAgrees ctx)
             (ed_scenes (handleAudioUpload (decodeAudioData ctx) sceneId file
                           (mkEditor prev tone message)))) /\
  (forall sceneId chunks tone message,
      Forall (storedAudioAgrees ctx)
             (ed_scenes (voiceRecorderStopped (decodeAudioData ctx) sceneId
                           chunks (mkEditor prev tone message)))) /\
  (forall sceneId, Forall (storedAudioAgrees ctx) (clearAudio sceneId prev)) /\
  (forall newId accent,
      Forall (storedAudioAgrees ctx) (addScene newId accent prev)) /\
  (forall newId accent sceneId,
      Forall (storedAudioAgrees ctx)
             (duplicateScene newId accent sceneId prev)) /\
  (forall sceneId, Forall (storedAudioAgrees ctx) (removeScene sceneId prev)).
Proof.
  intros Hall.
  split; [intros; exact I |].
  split; [intros; now apply Forall_rewrite |].
  split; [intros; now apply Forall_rewrite |].
  split.
  { intros reader sceneId file. unfold handleImageUpload.
    destruct file as [f |]; [| exact Hall].
    destruct (reader f); [| exact Hall]. now apply Forall_rewrite. }
  split.
  { intros sceneId file tone message. unfold handleAudioUpload.
    destruct file as [f |]; [| exact Hall].
    destruct (decodeAudioData ctx (file_bytes f)) as [decoded |] eqn:Hdec;
      [| exact Hall].
    cbn [ed_scenes]. apply Forall_rewrite; [| exact Hall].
    intros scene _. unfold storedAudioAgrees. simpl.
    exists decoded. split; [exact Hdec | reflexivity]. }
  split.
  { intros sceneId chunks tone message. unfold voiceRecorderStopped.
    destruct (blob_size (new_Blob chunks) =? 0)%nat; [exact Hall |].
    destruct (decodeAudioData ctx (new_Blob chunks)) as [decoded |] eqn:Hdec;
      [| exact Hall].
    cbn [ed_scenes]. apply Forall_rewrite; [| exact Hall].
    intros scene _. unfold storedAudioAgrees. simpl.
    exists decoded. split; [exact Hdec | reflexivity]. }
  split; [intros; apply Forall_rewrite; [intros; exact I | exact Hall] |].
  split.
  { intros newId accent. unfold addScene. apply Forall_app.
    split; [exact Hall | repeat constructor]. }
  split.
  { intros newId accent sceneId. unfold duplicateScene.
    destruct (findIndex _ prev) as [i |]; [| exact Hall].
    destruct (nth_error prev i) as [original |] eqn:Hnth; [| exact Hall].
    rewrite Forall_forall in Hall.
    assert (Hparts : forall s,
              In s (firstn (i + 1) prev) \/ In s (skipn (i + 1) prev) ->
              In s prev).
    { intros s Hs. rewrite <- (firstn_skipn (i + 1) prev).
      apply in_or_app. exact Hs. }
    apply Forall_app. split.
    - apply Forall_forall. intros s Hs. apply Hall, Hparts. now left.
    - constructor.
      + apply nth_error_In in Hnth. exact (Hall _ Hnth).
      + apply Forall_forall. intros s Hs. apply Hall, Hparts. now right. }
  intros sceneId. unfold removeScene.
  destruct (List.length prev =? 1)%nat; [exact Hall |].
  apply Forall_forall. intros scene Hin. apply filter_In in Hin.
  rewrite Forall_forall in Hall. apply Hall. tauto.
Qed.

Lemma editor_keeps_audio_agreement_sample :
  Forall (storedAudioAgrees sampleCtx)
         (ed_scenes (handleAudioUpload (decodeAudioData sampleCtx)
                       (Scene.id sceneA) (Some (mkFile "a.ogg" [Byte.x07]))
                       (mkEditor sampleScenes ToneNeutral EmptyString))).
Proof.
  refine (proj1 (proj2 (proj2 (proj2 (proj2
            (editor_keeps_audio_agreement sampleCtx sampleScenes _)))))
            (Scene.id sceneA) (Some (mkFile "a.ogg" [Byte.x07]))
            ToneNeutral EmptyString).
  repeat constructor.
  simpl. eexists. split; reflexivity.
Defined.

(** ** The scene lists the page can hold *)

Lemma Forall_duplicateScene (P : Scene.t -> Prop) newId accent sceneId prev :
  (forall original,
      P original ->
      P (Scene.mk newId (Scene.dialogue original) (Scene.duration original)
           (Scene.imageDataUrl original) (Scene.imageName original)
           (Scene.audioName original) (Scene.audioArrayBuffer original)
           (Scene.audioDuration original) accent)) ->
  Forall P prev ->
  Forall P (duplicateScene newId accent sceneId prev).
Proof.
  intros Hclone Hall. unfold duplicateScene.
  destruct (findIndex _ prev) as [i |]; [| exact Hall].
  destruct (nth_error prev i) as [original |] eqn:Hnth; [| exact Hall].
  assert (Horiginal : P original).
  { rewrite Forall_forall in Hall. apply Hall.
    eapply nth_error_In; eauto. }
  rewrite <- (firstn_skipn (i + 1) prev) in Hall.
  apply Forall_app in Hall. destruct Hall as [Hhead Htail].
  apply Forall_app. split; [exact Hhead |].
  constructor; [apply Hclone; exact Horiginal | exact Htail].
Qed.

Lemma Forall_removeScene (P : Scene.t -> Prop) sceneId prev :
  Forall P prev -> Forall P (removeScene sceneId prev).
Proof.
  intros Hall. unfold removeScene.
  destruct (List.length prev =? 1)%nat; [exact Hall |].
  rewrite Forall_forall in *. intros scene Hin.
  apply filter_In in Hin. apply Hall, Hin.
Qed.

(** Every edit keeps the stored durations inside the slider's range. *)
Lemma EditorStep_withinSlider decode prev next :
  EditorStep decode prev next ->
  Forall withinSlider prev -> Forall withinSlider next.
Proof.
  intros Hstep Hall.
  destruct Hstep
    as [sceneId value prev | sceneId value prev Hrange
        | reader sceneId file prev | sceneId file tone message prev
        | sceneId chunks tone message prev | sceneId prev
        | newId accent prev Hfresh | newId accent sceneId prev Hfresh
        | sceneId prev].
  - now apply Forall_rewrite.
  - now apply handleDurationChange_withinSlider.
  - unfold handleImageUpload. destruct file as [f |]; [| exact Hall].
    destruct (reader f); [| exact Hall]. now apply Forall_rewrite.
  - unfold handleAudioUpload. destruct file as [f |]; [| exact Hall].
    destruct (decode (file_bytes f)); [| exact Hall].
    cbn [ed_scenes]. now apply Forall_rewrite.
  - unfold voiceRecorderStopped.
    destruct (blob_size (new_Blob chunks) =? 0)%nat; [exact Hall |].
    destruct (decode (new_Blob chunks)); [| exact Hall].
    cbn [ed_scenes]. now apply Forall_rewrite.
  - now apply Forall_rewrite.
  - unfold addScene. apply Forall_app. split; [exact Hall |].
    constructor; [apply createScene_withinSlider | constructor].
  - now apply Forall_duplicateScene.
  - now apply Forall_removeScene.
Qed.

Lemma Reachable_withinSlider decode scenes :
  Reachable decode scenes -> Forall withinSlider scenes.
Proof.
  induction 1 as [newId accent | prev next _ IH Hstep].
  - constructor; [apply createScene_withinSlider | constructor].
  - eapply EditorStep_withinSlider; eauto.
Qed.



(** The list of the page is never empty and its identifiers are distinct. *)
Lemma rewrite_distinct (f : Scene.t -> Scene.t) (sceneId : string) prev :
  (forall scene, Scene.id (f scene) = Scene.id scene) ->
  prev <> [] /\ NoDup (map Scene.id prev) ->
  let next :=
    map (fun scene =>
           if String.eqb (Scene.id scene) sceneId then f scene else scene)
        prev in
  next <> [] /\ NoDup (map Scene.id next).
Proof.
  intros Hf [Hne Hnd]. split.
  - destruct prev; [congruence | discriminate].
  - now rewrite map_id_rewrite.
Qed.

Lemma EditorStep_distinct decode prev next :
  EditorStep decode prev next ->
  prev <> [] /\ NoDup (map Scene.id prev) ->
  next <> [] /\ NoDup (map Scene.id next).
Proof.
  intros Hstep Hprev.
  destruct Hstep
    as [sceneId value prev | sceneId value prev Hrange
        | reader sceneId file prev | sceneId file tone message prev
        | sceneId chunks tone message prev | sceneId prev
        | newId accent prev Hfresh | newId accent sceneId prev Hfresh
        | sceneId prev].
  - now apply rewrite_distinct.
  - now apply rewrite_distinct.
  - unfold handleImageUpload. destruct file as [f |]; [| exact Hprev].
    destruct (reader f); [| exact Hprev]. now apply rewrite_distinct.
  - unfold handleAudioUpload. destruct file as [f |]; [| exact Hprev].
    destruct (decode (file_bytes f)); [| exact Hprev].
    cbn [ed_scenes]. now apply rewrite_distinct.
  - unfold voiceRecorderStopped.
    destruct (blob_size (new_Blob chunks) =? 0)%nat; [exact Hprev |].
    destruct (decode (new_Blob chunks)); [| exact Hprev].
    cbn [ed_scenes]. now apply rewrite_distinct.
  - now apply rewrite_distinct.
  - destruct Hprev as [Hne Hnd]. unfold addScene. split.
    + destruct prev; discriminate.
    + rewrite map_app. simpl.
      apply (NoDup_Add (Add_app newId (map Scene.id prev) [])).
      rewrite app_nil_r. split; assumption.
  - destruct Hprev as [Hne Hnd]. unfold duplicateScene.
    destruct (findIndex _ prev) as [i |]; [| split; assumption].
    destruct (nth_error prev i) as [original |]; [| split; assumption].
    split; [destruct (firstn (i + 1) prev); discriminate |].
    rewrite map_app. simpl.
    apply (NoDup_Add (Add_app newId (map Scene.id (firstn (i + 1) prev))
                              (map Scene.id (skipn (i + 1) prev)))).
    rewrite <- map_app, firstn_skipn. split; assumption.
  - destruct Hprev as [Hne Hnd].
    destruct (removeScene_facts sceneId prev Hne Hnd) as (H1 & H2 & _).
    split; assumption.
Qed.

Lemma Reachable_distinct decode scenes :
  Reachable decode scenes ->
  scenes <> [] /\ NoDup (map Scene.id scenes).
Proof.
  induction 1 as [newId accent | prev next _ IH Hstep].
  - split; [discriminate |]. repeat constructor. intros [].
  - eapply EditorStep_distinct; eauto.
Qed.

(** Once the selection effect has run on a non-empty list, a scene is
    selected and the preview canvas is mounted. *)
Lemma sync_mounts_canvas scenes selectedSceneId :
  scenes <> [] ->
  canvasMounted scenes (syncSelection scenes selectedSceneId) = true.
Proof.
  intros Hne. destruct scenes as [| first rest]; [congruence |].
  assert (Hfirst : canvasMounted (first :: rest) (Some (Scene.id first))
                   = true).
  { unfold canvasMounted, selectedScene. simpl.
    now rewrite String.eqb_refl. }
  unfold syncSelection.
  destruct (truthy_string selectedSceneId) eqn:Htruthy; cbn [negb andb].
  - destruct selectedSceneId as [sel |]; [| discriminate].
    destruct (existsb (fun scene => String.eqb (Scene.id scene) sel)
                      (first :: rest)) eqn:Hex; cbn [negb].
    + apply existsb_id_In in Hex.
      destruct (find_id_In _ _ Hex) as (scene & Hfind & _).
      unfold canvasMounted, selectedScene. now rewrite Hfind.
    + exact Hfirst.
  - exact Hfirst.
Qed.





(** ** The requested duration on the page *)

(** C6.  On the scene lists the page can hold, the requested duration that
    enters the effective-duration computation,
    [Math.max(scene.duration, DURATION_MIN)], is at least [DURATION_MIN = 1]
    and at most [DURATION_MAX = 30], and it is the duration the scene
    stores: a scene is created with 6 seconds, and the only handler that
    writes the duration takes it from the range input, whose values lie
    between the two bounds. *)
Theorem requested_duration_within_range decode scenes :
  Reachable decode scenes ->
  DURATION_MIN == 1 /\ DURATION_MAX == 30 /\
  Forall (fun scene =>
            DURATION_MIN <= baseDuration scene <= DURATION_MAX /\
            baseDuration scene == Scene.duration scene)
         scenes.
Proof.
  intros Hreach. split; [reflexivity |]. split; [reflexivity |].
  pose proof (Reachable_withinSlider _ _ Hreach) as Hall.
  eapply Forall_impl; [| exact Hall]. simpl. intros scene Hs.
  split; [now apply withinSlider_base |].
  unfold withinSlider, DURATION_MIN in Hs. unfold baseDuration, DURATION_MIN.
  destruct Hs as [Hlo _]. extrema.
Qed.

Lemma requested_duration_within_range_sample :
  Forall (fun scene =>
            DURATION_MIN <= baseDuration scene <= DURATION_MAX /\
            baseDuration scene == Scene.duration scene)
         pageScenes /\
  map baseDuration pageScenes = [12].
Proof.
  split; [| reflexivity].
  apply (requested_duration_within_range sampleDecode pageScenes).
  unfold pageScenes.
  eapply Reachable_step; [| apply StepAudio].
  eapply Reachable_step; [| apply StepImage].
  eapply Reachable_step; [apply Reachable_initial |].
  apply StepDuration. split; discriminate.
Defined.

(** ** A call without a renderable scene *)

(** C9.  When the scene list is empty or every scene lacks a bound image,
    the filtered list is empty and [generateVideo] returns at one of its
    entry guards, before any audio, capture or encoder resource is started
    and without reporting a success; past the guards for a render in
    progress and for the canvas it reports the error "add at least one scene
    with an image".  On the page the list is never empty, the selection
    effect keeps a scene selected and with it the canvas mounted, and the
    buttons are disabled while a render is in progress: every call a click
    makes on a list whose scenes all lack an image ends with that error and
    nothing else. *)
Theorem no_renderable_scenes decode host ui scenes selectedSceneId :
  scenes = [] \/ Forall lacksImage scenes ->
  scenesReady scenes = [] /\
  settled (generateVideo host ui scenes) = true /\
  existsb startsResource (trace (generateVideo host ui scenes)) = false /\
  existsb isSuccessTone (trace (generateVideo host ui scenes)) = false /\
  generateVideo host ui scenes
    = (if isGenerating ui then mkRun [] true
       else mkRun [SetStatusTone ToneError;
                   SetStatusMessage
                     (if canvasCurrent host
                      then msgNoScenes else msgNoCanvas)] true) /\
  (Reachable decode scenes ->
   scenes <> [] /\
   canvasCurrent (onPage host scenes
                         (syncSelection scenes selectedSceneId)) = true /\
   forall run,
     clickGenerate (onPage host scenes
                           (syncSelection scenes selectedSceneId))
                   ui scenes = Some run ->
     run = mkRun [SetStatusTone ToneError; SetStatusMessage msgNoScenes]
                 true /\
     applyEffects ui (trace run)
       = mkUi false ToneError msgNoScenes (generatedVideoUrl ui)).
Proof.
  intros Hnone. pose proof (scenesReady_none _ Hnone) as Hready.
  split; [exact Hready |].
  assert (Hrun : forall h,
             generateVideo h ui scenes
             = (if isGenerating ui then mkRun [] true
                else mkRun [SetStatusTone ToneError;
                            SetStatusMessage
                              (if canvasCurrent h
                               then msgNoScenes else msgNoCanvas)] true)).
  { intros h. unfold generateVideo. rewrite Hready.
    destruct (isGenerating ui); [reflexivity |].
    destruct (canvasCurrent h); reflexivity. }
  rewrite Hrun.
  split; [now destruct (isGenerating ui) |].
  split; [now destruct (isGenerating ui) |].
  split; [now destruct (isGenerating ui) |].
  split; [reflexivity |].
  intros Hreach.
  destruct (Reachable_distinct _ _ Hreach) as [Hne _].
  pose proof (sync_mounts_canvas scenes selectedSceneId Hne) as Hcanvas.
  split; [exact Hne |]. split; [exact Hcanvas |].
  intros run Hclick. unfold clickGenerate in Hclick.
  destruct (isGenerating ui) eqn:Hgen; [discriminate |].
  injection Hclick as <-. rewrite Hrun.
  cbn [onPage canvasCurrent]. rewrite Hcanvas.
  split; [reflexivity |].
  unfold applyEffects. simpl. now rewrite Hgen.
Qed.

Lemma no_renderable_scenes_sample :
  generateVideo
    (onPage sampleHost [sceneNoImage] (syncSelection [sceneNoImage] None))
    sampleUi [sceneNoImage]
    = mkRun [SetStatusTone ToneError; SetStatusMessage msgNoScenes] true /\
  existsb startsResource
    (trace (generateVideo sampleHost sampleUi [sceneNoImage])) = false.
Proof.
  destruct (no_renderable_scenes sampleDecode sampleHost sampleUi
              [sceneNoImage] None
              (or_intror (Forall_cons sceneNoImage
                            (eq_refl : lacksImage sceneNoImage)
                            (Forall_nil _))))
    as (_ & _ & Hnone & _ & _ & Hpage).
  split; [| exact Hnone].
  destruct Hpage as (_ & _ & Hclick).
  - eapply Reachable_step; [apply Reachable_initial |].
    exact (StepDialogue sampleDecode "c"%string "sin imagen"%string
             [createScene "c"%string "hsl(90, 82%, 58%)"%string]).
  - exact (proj1 (Hclick _ eq_refl)).
Defined.
